(** * Viva Guard (Intelligence-Assistant): the session core of [src/App.tsx]

    A shallow embedding of the frame encoder ([encode], [createBlob]), the
    turn accumulator (the [onmessage] callback) and the session controller
    ([stopSession], [startSession], [onopen], [onerror], [onclose]) of the
    [App] component, with the properties the specification states about
    them.

    Conventions of the embedding.
    - A JavaScript string is the list of its UTF-16 code units, each a [Z].
    - A JavaScript number is a binary64 float ([PrimFloat.float]).
    - React state ([useState]) and refs ([useRef]) are fields of one record,
      [World]; a state setter updates its field at once, and queued updater
      functions run in the order they were queued.
    - Browser objects the component holds references to (media tracks, the
      audio context, the live session) live in stores of the [World], so that
      what happens to an object is visible after the reference to it is
      dropped.
    - What the environment decides (fresh identifiers, the clock, the
      answers of the permission prompts, whether [close()] throws) is an
      explicit argument.
    - An [async] function is cut at its awaits: the pieces between them
      run to their end, and what the rest of the page does while the
      function waits is an explicit argument too. *)

From Stdlib Require Import ZArith String Ascii Floats.
From stdpp Require Import base tactics option list.

#[local] Set Warnings "-inexact-float".

Local Open Scope Z_scope.

(** ** JavaScript strings *)

Module JS.

(** One UTF-16 code unit. *)
Definition char16 := Z.

Definition jsstring := list char16.

(** A string literal of the source (ASCII only in this program). *)
Definition lit (s : string) : jsstring :=
  (fun a => Z.of_N (N_of_ascii a)) <$> list_ascii_of_string s.

(** ECMAScript [WhiteSpace] and [LineTerminator] code points: what
    [String.prototype.trim] strips. *)
Definition isWhiteSpace (c : char16) : bool :=
  (9 <=? c) && (c <=? 13)
  || (c =? 32) || (c =? 160) || (c =? 5760)
  || (8192 <=? c) && (c <=? 8202)
  || (c =? 8232) || (c =? 8233) || (c =? 8239) || (c =? 8287)
  || (c =? 12288) || (c =? 65279).

Fixpoint trimStart (s : jsstring) : jsstring :=
  match s with
  | [] => []
  | c :: s' => if isWhiteSpace c then trimStart s' else s
  end.

Definition trimEnd (s : jsstring) : jsstring :=
  reverse (trimStart (reverse s)).

(** [s.trim()] *)
Definition trim (s : jsstring) : jsstring := trimEnd (trimStart s).

(** Truthiness of a string: every string but the empty one. *)
Definition truthy (s : jsstring) : bool :=
  match s with [] => false | _ => true end.

(** A string made of white space only (the empty string included). *)
Definition blank (s : jsstring) : bool := forallb isWhiteSpace s.

End JS.

Import JS.

(** ** The frame encoder *)

Module Encoder.

(** *** Typed-array stores *)

(** The integer part of a number, towards zero: a finite number is
    [m * 2^e] with a sign, and its integer part is [m] shifted by [e]. NaN,
    the zeros and the infinities count as 0, as [ToInt16] takes them. *)
Definition truncate (x : float) : Z :=
  match Prim2SF x with
  | S754_finite s m e =>
      let a := Z.shiftl (Z.pos m) e in
      if s then - a else a
  | _ => 0
  end.

(** An integer modulo 2^16, read as a signed 16-bit integer. *)
Definition wrap16 (z : Z) : Z :=
  let u := z mod 65536 in
  if 32768 <=? u then u - 65536 else u.

(** ECMAScript [ToInt16], the conversion a store into an [Int16Array]
    applies. *)
Definition toInt16 (x : float) : Z := wrap16 (truncate x).

(** [data[i]] on a [Float32Array]: [undefined] out of range, which the
    multiplication turns into NaN. *)
Definition sampleAt (data : list float) (i : nat) : float :=
  default nan (data !! i).

(** The bytes of an [Int16Array]'s buffer, as [new Uint8Array(int16.buffer)]
    reads them: two's complement, low byte first (typed arrays have the
    byte order of the platform, little-endian on the platforms the
    application runs on). *)
Definition int16Bytes (v : Z) : list Z :=
  let u := v mod 65536 in
  [Z.land u 255; Z.shiftr u 8].

Definition bufferBytes (int16 : list Z) : list Z :=
  int16 ≫= int16Bytes.

(** *** [btoa] *)

(** The base64 alphabet of RFC 4648, section 4. *)
Definition sextetChar (n : Z) : char16 :=
  if n <? 26 then 65 + n
  else if n <? 52 then 97 + (n - 26)
  else if n <? 62 then 48 + (n - 52)
  else if n =? 62 then 43
  else 47.

Definition padChar : char16 := 61.

Fixpoint base64 (bs : list Z) : jsstring :=
  match bs with
  | [] => []
  | [a] =>
      [sextetChar (Z.shiftr a 2);
       sextetChar (Z.shiftl (Z.land a 3) 4);
       padChar; padChar]
  | [a; b] =>
      [sextetChar (Z.shiftr a 2);
       sextetChar (Z.lor (Z.shiftl (Z.land a 3) 4) (Z.shiftr b 4));
       sextetChar (Z.shiftl (Z.land b 15) 2);
       padChar]
  | a :: b :: c :: rest =>
      sextetChar (Z.shiftr a 2)
      :: sextetChar (Z.lor (Z.shiftl (Z.land a 3) 4) (Z.shiftr b 4))
      :: sextetChar (Z.lor (Z.shiftl (Z.land b 15) 2) (Z.shiftr c 6))
      :: sextetChar (Z.land c 63)
      :: base64 rest
  end.

(** [btoa(binary)]: throws [InvalidCharacterError] ([None]) when a code
    unit is above 255, and otherwise encodes the code units as bytes. *)
Definition btoa (binary : jsstring) : option jsstring :=
  if forallb (fun c => (0 <=? c) && (c <=? 255)) binary
  then Some (base64 binary)
  else None.

(** *** [encode] and [createBlob] *)

(** [String.fromCharCode(n)] for an integer [n]: the code unit [n mod 2^16]. *)
Definition fromCharCode (n : Z) : jsstring := [n mod 65536].

(** [bytes[i]] on a [Uint8Array] inside the loop of [encode]. *)
Definition byteAt (bytes : list Z) (i : nat) : Z :=
  default 0 (bytes !! i).

(** [encode]: the loop appends one character per byte to [binary]. *)
Definition encode (bytes : list Z) : option jsstring :=
  let len := length bytes in
  let binary :=
    foldl (fun binary i => binary ++ fromCharCode (byteAt bytes i))
          [] (seq 0 len) in
  btoa binary.

Record GeminiBlob := {
  data : jsstring;
  mimeType : jsstring
}.

(** [createBlob]: [new Int16Array(l)] is zero-filled; the loop stores
    [data[i] * 32768] into slot [i], and the store converts with
    [ToInt16]. *)
Definition createBlob (samples : list float) : option GeminiBlob :=
  let l := length samples in
  let int16 :=
    foldl (fun int16 i =>
             <[i := toInt16 (sampleAt samples i * 32768)%float]> int16)
          (replicate l 0) (seq 0 l) in
  payload ← encode (bufferBytes int16);
  Some {| data := payload; mimeType := lit "audio/pcm;rate=16000" |}.

(** *** The encoder as the specification words it *)

(** The number a float stands for, as a fraction [n / d] with [d]
    positive (a finite binary64 number is an integer times a power of
    two); NaN and the infinities stand for no number. *)
Definition asFraction (x : float) : option (Z * Z) :=
  match Prim2SF x with
  | S754_zero _ => Some (0, 1)
  | S754_finite negative m e =>
      let n := if negative then Z.neg m else Z.pos m in
      Some (if 0 <=? e then (n * 2 ^ e, 1) else (n, 2 ^ (- e)))
  | _ => None
  end.

(** "truncate": the fraction of [n / d] is dropped, which is the quotient
    that rounds towards zero. The words do not say what becomes of a
    product that is no number; it is given the integer part 0 here, the
    value an [Int16Array] stores for it. *)
Definition integerPart (x : float) : Z :=
  match asFraction x with
  | Some (n, d) => Z.quot n d
  | None => 0
  end.

(** "multiply by 32768 and truncate to a 16-bit signed integer", with no
    clamp: the integer part of the product is taken modulo 2^16 into the
    signed range. *)
Definition quantize (x : float) : Z :=
  (integerPart (x * 32768)%float + 32768) mod 65536 - 32768.

(** "pack the resulting N 16-bit integers ... little-endian" *)
Definition littleEndian16 (v : Z) : list Z :=
  [v mod 256; (v `div` 256) mod 256].

Definition framePayload (samples : list float) : jsstring :=
  base64 ((quantize <$> samples) ≫= littleEndian16).

(** *** Reading a frame back *)

(** What a receiver of the frame does to get the 16-bit values back; the
    program has no decoder, these functions only serve to state that the
    payload determines the quantised block. *)
Definition sextetValue (c : char16) : Z :=
  if (65 <=? c) && (c <=? 90) then c - 65
  else if (97 <=? c) && (c <=? 122) then c - 71
  else if (48 <=? c) && (c <=? 57) then c + 4
  else if c =? 43 then 62
  else 63.

Fixpoint unbase64 (s : jsstring) : list Z :=
  match s with
  | c1 :: c2 :: c3 :: c4 :: rest =>
      let n1 := sextetValue c1 in
      let n2 := sextetValue c2 in
      let n3 := sextetValue c3 in
      let n4 := sextetValue c4 in
      let b1 := Z.lor (Z.shiftl n1 2) (Z.shiftr n2 4) in
      let b2 := Z.lor (Z.shiftl (Z.land n2 15) 4) (Z.shiftr n3 2) in
      let b3 := Z.lor (Z.shiftl (Z.land n3 3) 6) n4 in
      if c3 =? padChar then [b1]
      else if c4 =? padChar then [b1; b2]
      else b1 :: b2 :: b3 :: unbase64 rest
  | _ => []
  end.

Fixpoint readInt16s (bytes : list Z) : list Z :=
  match bytes with
  | lo :: hi :: rest => wrap16 (lo + 256 * hi) :: readInt16s rest
  | _ => []
  end.

End Encoder.


(** ** The data model of [types.ts] and of the browser objects *)

Module Message.
Inductive Role := user | assistant.

Record t := {
  id : jsstring;
  role : Role;
  text : jsstring;
  timestamp : Z
}.
End Message.

Module Suggestion.
Record t := {
  id : jsstring;
  title : jsstring;
  content : jsstring;
  confidence : float;
  timestamp : Z
}.
End Suggestion.

Module SessionStatus.
Record t := {
  isActive : bool;
  isConnecting : bool;
  isMicActive : bool;
  error : option jsstring
}.
End SessionStatus.

#[global] Instance Role_eq_dec : EqDecision Message.Role.
Proof. solve_decision. Defined.

(** A JavaScript exception value: the [name] and the [message] of an
    [Error] (or of a [DOMException]). *)
Record Exn := {
  name : jsstring;
  message : jsstring
}.

(** [new Error(msg)] *)
Definition newError (msg : jsstring) : Exn :=
  {| name := lit "Error"; message := msg |}.

Inductive TrackKind := audio | video.
Inductive ReadyState := live | ended.

#[global] Instance TrackKind_eq_dec : EqDecision TrackKind.
Proof. solve_decision. Defined.

#[global] Instance ReadyState_eq_dec : EqDecision ReadyState.
Proof. solve_decision. Defined.

Record MediaStreamTrack := {
  kind : TrackKind;
  readyState : ReadyState
}.

(** A [MediaStream] holds references to its tracks (positions in the track
    store). *)
Record MediaStream := {
  getTracks : list nat
}.

Inductive ContextState := running | closed.

(** The live session object: [closeThrows] is the exception its [close()]
    raises, if it raises one; [isClosed] records a [close()] that went
    through. *)
Record LiveSession := {
  closeThrows : option Exn;
  isClosed : bool
}.

(** One server event, as [onmessage] reads it. The text of a
    transcription delta is a string (specification, section 4.4). *)
Record Transcription := {
  text : jsstring
}.

Record LiveServerContent := {
  outputTranscription : option Transcription;
  inputTranscription : option Transcription;
  turnComplete : bool
}.

Record LiveServerMessage := {
  serverContent : option LiveServerContent
}.

(** ** The component's state *)

(** [useState] *)
Record ReactState := {
  status : SessionStatus.t;
  messages : list Message.t;
  suggestions : list Suggestion.t;
  knowledgeBase : jsstring;
  streamingInput : jsstring;
  streamingOutput : jsstring
}.

(** [useRef]: each field is the [.current] of the ref of that name. *)
Record Refs := {
  sessionRef : option nat;
  audioContextRef : option nat;
  micStreamRef : option MediaStream;
  systemStreamRef : option MediaStream;
  currentInputTranscription : jsstring;
  currentOutputTranscription : jsstring
}.

(** The browser objects created so far, and what [console.error] printed. *)
Record Browser := {
  trackStore : list MediaStreamTrack;
  sessionStore : list LiveSession;
  contextStore : list ContextState;
  console : list jsstring
}.

Record World := {
  react : ReactState;
  refs : Refs;
  browser : Browser
}.

Definition initialStatus : SessionStatus.t :=
  {| SessionStatus.isActive := false;
     SessionStatus.isConnecting := false;
     SessionStatus.isMicActive := false;
     SessionStatus.error := None |}.

(** The component when it mounts. *)
Definition initial : World :=
  {| react := {| status := initialStatus; messages := []; suggestions := [];
                 knowledgeBase := []; streamingInput := [];
                 streamingOutput := [] |};
     refs := {| sessionRef := None; audioContextRef := None;
                micStreamRef := None; systemStreamRef := None;
                currentInputTranscription := [];
                currentOutputTranscription := [] |};
     browser := {| trackStore := []; sessionStore := []; contextStore := [];
                   console := [] |} |}.

(** ** Effects: state and exceptions *)

(** The outcome of running a piece of the component: it returns or it
    throws, and either way the mutations made so far stay. *)
Inductive Outcome (A : Type) :=
| Ok (a : A) (w : World)
| Throw (e : Exn) (w : World).
Arguments Ok {A} a w.
Arguments Throw {A} e w.

Definition M (A : Type) : Type := World -> Outcome A.

#[global] Instance M_ret : MRet M := fun A a w => Ok a w.

#[global] Instance M_bind : MBind M := fun A B f m w =>
  match m w with
  | Ok a w' => f a w'
  | Throw e w' => Throw e w'
  end.

Definition throw {A} (e : Exn) : M A := fun w => Throw e w.

(** [try { m } catch (e) { handler e }] *)
Definition tryCatch {A} (m : M A) (handler : Exn -> M A) : M A := fun w =>
  match m w with
  | Ok a w' => Ok a w'
  | Throw e w' => handler e w'
  end.

Definition read {A} (f : World -> A) : M A := fun w => Ok (f w) w.

Definition modify (f : World -> World) : M unit := fun w => Ok tt (f w).

(** [l.forEach(f)] *)
Fixpoint forEach {A} (l : list A) (f : A -> M unit) : M unit :=
  match l with
  | [] => mret tt
  | x :: l' => f x;; forEach l' f
  end.

(** The world an outcome leaves. *)
Definition worldOf {A} (o : Outcome A) : World :=
  match o with
  | Ok _ w => w
  | Throw _ w => w
  end.

Definition returns {A} (o : Outcome A) : bool :=
  match o with
  | Ok _ _ => true
  | Throw _ _ => false
  end.

(** *** State setters *)

Definition updReact (f : ReactState -> ReactState) (w : World) : World :=
  {| react := f (react w); refs := refs w; browser := browser w |}.

Definition updRefs (f : Refs -> Refs) (w : World) : World :=
  {| react := react w; refs := f (refs w); browser := browser w |}.

Definition updBrowser (f : Browser -> Browser) (w : World) : World :=
  {| react := react w; refs := refs w; browser := f (browser w) |}.

(** [setStatus(prev => f prev)]; [setStatus(v)] is [setStatus (fun _ => v)]. *)
Definition setStatus (f : SessionStatus.t -> SessionStatus.t) : M unit :=
  modify (updReact (fun r =>
    {| status := f (status r); messages := messages r;
       suggestions := suggestions r; knowledgeBase := knowledgeBase r;
       streamingInput := streamingInput r;
       streamingOutput := streamingOutput r |})).

Definition setMessages (f : list Message.t -> list Message.t) : M unit :=
  modify (updReact (fun r =>
    {| status := status r; messages := f (messages r);
       suggestions := suggestions r; knowledgeBase := knowledgeBase r;
       streamingInput := streamingInput r;
       streamingOutput := streamingOutput r |})).

Definition setSuggestions
    (f : list Suggestion.t -> list Suggestion.t) : M unit :=
  modify (updReact (fun r =>
    {| status := status r; messages := messages r;
       suggestions := f (suggestions r); knowledgeBase := knowledgeBase r;
       streamingInput := streamingInput r;
       streamingOutput := streamingOutput r |})).

Definition setKnowledgeBase (v : jsstring) : M unit :=
  modify (updReact (fun r =>
    {| status := status r; messages := messages r;
       suggestions := suggestions r; knowledgeBase := v;
       streamingInput := streamingInput r;
       streamingOutput := streamingOutput r |})).

Definition setStreamingInput (v : jsstring) : M unit :=
  modify (updReact (fun r =>
    {| status := status r; messages := messages r;
       suggestions := suggestions r; knowledgeBase := knowledgeBase r;
       streamingInput := v; streamingOutput := streamingOutput r |})).

Definition setStreamingOutput (v : jsstring) : M unit :=
  modify (updReact (fun r =>
    {| status := status r; messages := messages r;
       suggestions := suggestions r; knowledgeBase := knowledgeBase r;
       streamingInput := streamingInput r; streamingOutput := v |})).

(** *** Assignments to the refs *)

Definition setSessionRef (v : option nat) : M unit :=
  modify (updRefs (fun r =>
    {| sessionRef := v; audioContextRef := audioContextRef r;
       micStreamRef := micStreamRef r; systemStreamRef := systemStreamRef r;
       currentInputTranscription := currentInputTranscription r;
       currentOutputTranscription := currentOutputTranscription r |})).

Definition setAudioContextRef (v : option nat) : M unit :=
  modify (updRefs (fun r =>
    {| sessionRef := sessionRef r; audioContextRef := v;
       micStreamRef := micStreamRef r; systemStreamRef := systemStreamRef r;
       currentInputTranscription := currentInputTranscription r;
       currentOutputTranscription := currentOutputTranscription r |})).

Definition setMicStreamRef (v : option MediaStream) : M unit :=
  modify (updRefs (fun r =>
    {| sessionRef := sessionRef r; audioContextRef := audioContextRef r;
       micStreamRef := v; systemStreamRef := systemStreamRef r;
       currentInputTranscription := currentInputTranscription r;
       currentOutputTranscription := currentOutputTranscription r |})).

Definition setSystemStreamRef (v : option MediaStream) : M unit :=
  modify (updRefs (fun r =>
    {| sessionRef := sessionRef r; audioContextRef := audioContextRef r;
       micStreamRef := micStreamRef r; systemStreamRef := v;
       currentInputTranscription := currentInputTranscription r;
       currentOutputTranscription := currentOutputTranscription r |})).

Definition setCurrentInputTranscription (v : jsstring) : M unit :=
  modify (updRefs (fun r =>
    {| sessionRef := sessionRef r; audioContextRef := audioContextRef r;
       micStreamRef := micStreamRef r; systemStreamRef := systemStreamRef r;
       currentInputTranscription := v;
       currentOutputTranscription := currentOutputTranscription r |})).

Definition setCurrentOutputTranscription (v : jsstring) : M unit :=
  modify (updRefs (fun r =>
    {| sessionRef := sessionRef r; audioContextRef := audioContextRef r;
       micStreamRef := micStreamRef r; systemStreamRef := systemStreamRef r;
       currentInputTranscription := currentInputTranscription r;
       currentOutputTranscription := v |})).

(** The two stream refs, as values: [stopSession] iterates over the array
    [[micStreamRef, systemStreamRef]]. *)
Inductive StreamRef := micStream | systemStream.

Definition streamRefCurrent (r : StreamRef) (w : World) : option MediaStream :=
  match r with
  | micStream => micStreamRef (refs w)
  | systemStream => systemStreamRef (refs w)
  end.

Definition setStreamRef (r : StreamRef) (v : option MediaStream) : M unit :=
  match r with
  | micStream => setMicStreamRef v
  | systemStream => setSystemStreamRef v
  end.

(** *** Browser operations *)

Definition setTrackStore (f : list MediaStreamTrack -> list MediaStreamTrack)
    : M unit :=
  modify (updBrowser (fun b =>
    {| trackStore := f (trackStore b); sessionStore := sessionStore b;
       contextStore := contextStore b; console := console b |})).

Definition setSessionStore (f : list LiveSession -> list LiveSession)
    : M unit :=
  modify (updBrowser (fun b =>
    {| trackStore := trackStore b; sessionStore := f (sessionStore b);
       contextStore := contextStore b; console := console b |})).

Definition setContextStore (f : list ContextState -> list ContextState)
    : M unit :=
  modify (updBrowser (fun b =>
    {| trackStore := trackStore b; sessionStore := sessionStore b;
       contextStore := f (contextStore b); console := console b |})).

(** [console.error(label, e)] *)
Definition consoleError (label : jsstring) (e : Exn) : M unit :=
  modify (updBrowser (fun b =>
    {| trackStore := trackStore b; sessionStore := sessionStore b;
       contextStore := contextStore b;
       console := console b ++ [label ++ lit " " ++ message e] |})).

Definition stopped (t : MediaStreamTrack) : MediaStreamTrack :=
  {| kind := kind t; readyState := ended |}.

(** [track.stop()]: never throws. *)
Definition trackStop (track : nat) : M unit :=
  setTrackStore (alter stopped track).

(** [session.close()]: may throw. *)
Definition sessionClose (session : nat) : M unit := fun w =>
  match sessionStore (browser w) !! session with
  | Some s =>
      match closeThrows s with
      | Some e => Throw e w
      | None =>
          setSessionStore
            (<[session := {| closeThrows := None; isClosed := true |}]>) w
      end
  | None => Ok tt w
  end.

(** [audioContext.close()]: returns a promise and does not throw. *)
Definition audioContextClose (ctx : nat) : M unit :=
  setContextStore (<[ctx := closed]>).

(** A stream the browser hands out: its tracks are new and live. *)
Definition newStream (kinds : list TrackKind) : M MediaStream := fun w =>
  let first := length (trackStore (browser w)) in
  match
    setTrackStore
      (fun ts => ts ++ ((fun k => {| kind := k; readyState := live |}) <$> kinds))
      w
  with
  | Ok _ w' => Ok {| getTracks := seq first (length kinds) |} w'
  | Throw e w' => Throw e w'
  end.

(** [stream.getAudioTracks()] *)
Definition getAudioTracks (stream : MediaStream) : M (list nat) :=
  read (fun w =>
    filter (fun i => kind <$> trackStore (browser w) !! i = Some audio)
           (getTracks stream)).

(** [new AudioContext({ sampleRate: 16000 })] *)
Definition newAudioContext : M nat := fun w =>
  let ctx := length (contextStore (browser w)) in
  match setContextStore (fun cs => cs ++ [running]) w with
  | Ok _ w' => Ok ctx w'
  | Throw e w' => Throw e w'
  end.

(** The session object a successful [ai.live.connect] resolves to. *)
Definition newSession (s : LiveSession) : M nat := fun w =>
  let h := length (sessionStore (browser w)) in
  match setSessionStore (fun ss => ss ++ [s]) w with
  | Ok _ w' => Ok h w'
  | Throw e w' => Throw e w'
  end.

(** ** The session controller *)

(** [stopSession] *)
Definition stopSession : M unit :=
  (session ← read (fun w => sessionRef (refs w));
   match session with
   | Some s =>
       tryCatch (sessionClose s)
                (fun e => consoleError (lit "Error closing session:") e);;
       setSessionRef None
   | None => mret tt
   end);;
  forEach [micStream; systemStream] (fun ref =>
    current ← read (streamRefCurrent ref);
    match current with
    | Some stream =>
        forEach (getTracks stream) trackStop;;
        setStreamRef ref None
    | None => mret tt
    end);;
  (ctx ← read (fun w => audioContextRef (refs w));
   match ctx with
   | Some c =>
       audioContextClose c;;
       setAudioContextRef None
   | None => mret tt
   end);;
  setStatus (fun prev =>
    {| SessionStatus.isActive := false;
       SessionStatus.isConnecting := SessionStatus.isConnecting prev;
       SessionStatus.isMicActive := false;
       SessionStatus.error := SessionStatus.error prev |});;
  setStreamingInput [];;
  setStreamingOutput [].

(** What the environment answers during one [startSession]. The awaits of
    [startSession] are taken in one go here: the function runs from the
    click to its end with these answers, nothing else runs meanwhile, the
    promises of [window.aistudio] resolve and the audio graph is built.
    The function cut at its awaits, with what runs meanwhile and with
    these failures, comes after the callbacks ([startSessionAmid]). *)
Record StartEnv := {
  (** [navigator.mediaDevices && navigator.mediaDevices.getDisplayMedia] *)
  mediaDevices : bool;
  (** [window.aistudio], with the answer of [hasSelectedApiKey()] *)
  aistudio : option bool;
  (** [process.env.API_KEY], empty when it is not set *)
  apiKey : jsstring;
  (** [getUserMedia]: rejects, or resolves to a stream of new tracks *)
  getUserMedia : Exn + list TrackKind;
  (** [getDisplayMedia]: rejects, or resolves to a stream of new tracks *)
  getDisplayMedia : Exn + list TrackKind;
  (** [ai.live.connect]: rejects, or resolves to a session *)
  connect : Exn + LiveSession
}.

Definition audioNotShared : jsstring :=
  lit "AUDIO NOT SHARED: You must check the 'Share audio' box in the browser popup (usually bottom-left).".

Definition permissionDenied : jsstring :=
  lit "PERMISSION DENIED: You cancelled the share or denied permission. Please try again and ensure 'Share Audio' is checked.".

(** Step 1 of [startSession], "Get Microphone". *)
Definition getMicrophone (env : StartEnv) : M MediaStream :=
  micStream ←
    match getUserMedia env with
    | inr kinds => newStream kinds
    | inl err => throw (newError (lit "Microphone denied: " ++ message err))
    end;
  setMicStreamRef (Some micStream);;
  mret micStream.

(** Step 2 of [startSession], "Get System Audio": the inner [try]/[catch]. *)
Definition getSystemAudio (env : StartEnv) : M (option MediaStream) :=
  tryCatch
    (systemStream ←
       match getDisplayMedia env with
       | inr kinds => newStream kinds
       | inl err => throw err
       end;
     audioTracks ← getAudioTracks systemStream;
     if decide (length audioTracks = 0%nat) then
       forEach (getTracks systemStream) trackStop;;
       throw (newError audioNotShared)
     else
       setSystemStreamRef (Some systemStream);;
       mret (Some systemStream))
    (fun e =>
       if decide (name e = lit "NotAllowedError")
       then throw (newError permissionDenied)
       else throw e).

(** [startSession]. The audio graph built between the context and the
    connection (gains 1.0 and 2.0, the 4096-sample script processor) holds
    no state of the component and is left out. *)
Definition startSession (env : StartEnv) : M unit :=
  setStatus (fun _ =>
    {| SessionStatus.isActive := false;
       SessionStatus.isConnecting := true;
       SessionStatus.isMicActive := false;
       SessionStatus.error := None |});;
  if negb (mediaDevices env) then
    setStatus (fun prev =>
      {| SessionStatus.isActive := SessionStatus.isActive prev;
         SessionStatus.isConnecting := false;
         SessionStatus.isMicActive := SessionStatus.isMicActive prev;
         SessionStatus.error :=
           Some (lit "Media capture is not supported in this browser or environment (ensure HTTPS/Localhost).") |})
  else
    (match aistudio env with
     | Some false => mret tt (* [await window.aistudio.openSelectKey()] *)
     | _ => mret tt
     end);;
    if negb (truthy (apiKey env)) then
      setStatus (fun prev =>
        {| SessionStatus.isActive := SessionStatus.isActive prev;
           SessionStatus.isConnecting := false;
           SessionStatus.isMicActive := SessionStatus.isMicActive prev;
           SessionStatus.error := Some (lit "API Key missing.") |})
    else
      tryCatch
        (micStream ← getMicrophone env;
         systemStream ← getSystemAudio env;
         audioCtx ← newAudioContext;
         setAudioContextRef (Some audioCtx);;
         session ←
           match connect env with
           | inr s => newSession s
           | inl err => throw err
           end;
         setSessionRef (Some session))
        (fun err =>
           consoleError (lit "Startup Error:") err;;
           setStatus (fun prev =>
             {| SessionStatus.isActive := SessionStatus.isActive prev;
                SessionStatus.isConnecting := false;
                SessionStatus.isMicActive := SessionStatus.isMicActive prev;
                SessionStatus.error := Some (message err) |});;
           stopSession).

(** ** The callbacks of the live session *)

(** [onopen] (the frames its [onaudioprocess] sends are [createBlob] of the
    tapped block and go to the session, not to the component's state). *)
Definition onopen : M unit :=
  setStatus (fun prev =>
    {| SessionStatus.isActive := true;
       SessionStatus.isConnecting := false;
       SessionStatus.isMicActive := true;
       SessionStatus.error := SessionStatus.error prev |}).

(** The values [uuidv4()] and [new Date()] return during one call of
    [onmessage], one per place of the source that asks for them. *)
Record Fresh := {
  userId : jsstring;
  userTimestamp : Z;
  newMsgId : jsstring;
  assistantTimestamp : Z;
  suggestionTimestamp : Z
}.

(** [onmessage], lines 176 to 184: the delta branches. An event is looked
    at for an output delta first, and for an input delta only when it has
    none. *)
Definition appendDelta (msg : LiveServerMessage) : M unit :=
  match serverContent msg ≫= outputTranscription with
  | Some t =>
      current ← read (fun w => currentOutputTranscription (refs w));
      setCurrentOutputTranscription (current ++ text t);;
      current ← read (fun w => currentOutputTranscription (refs w));
      setStreamingOutput current
  | None =>
      match serverContent msg ≫= inputTranscription with
      | Some t =>
          current ← read (fun w => currentInputTranscription (refs w));
          setCurrentInputTranscription (current ++ text t);;
          current ← read (fun w => currentInputTranscription (refs w));
          setStreamingInput current
      | None => mret tt
      end
  end.

(** [[newEntry, ...prev].slice(0, 15)], the updater of the suggestion list. *)
Definition prependCapped (newEntry : Suggestion.t) (prev : list Suggestion.t)
    : list Suggestion.t :=
  take 15 (newEntry :: prev).

(** [onmessage], lines 187 to 220: the body of [if (turnComplete)]. *)
Definition commitTurn (fresh : Fresh) : M unit :=
  inputText ← read (fun w => currentInputTranscription (refs w));
  outputText ← read (fun w => currentOutputTranscription (refs w));
  (if truthy (trim inputText) then
     setMessages (fun prev => prev ++
       [{| Message.id := userId fresh;
           Message.role := Message.user;
           Message.text := inputText;
           Message.timestamp := userTimestamp fresh |}])
   else mret tt);;
  (if truthy (trim outputText) then
     setMessages (fun prev => prev ++
       [{| Message.id := newMsgId fresh;
           Message.role := Message.assistant;
           Message.text := outputText;
           Message.timestamp := assistantTimestamp fresh |}]);;
     setSuggestions (prependCapped
       {| Suggestion.id := newMsgId fresh;
          Suggestion.title := lit "AI Insight";
          Suggestion.content := outputText;
          Suggestion.confidence := 0.99%float;
          Suggestion.timestamp := suggestionTimestamp fresh |})
   else mret tt);;
  setCurrentInputTranscription [];;
  setCurrentOutputTranscription [];;
  setStreamingInput [];;
  setStreamingOutput [].

(** [message.serverContent?.turnComplete], as a condition *)
Definition isTurnComplete (msg : LiveServerMessage) : bool :=
  default false (turnComplete <$> serverContent msg).

(** [onmessage] *)
Definition onmessage (fresh : Fresh) (msg : LiveServerMessage) : M unit :=
  appendDelta msg;;
  if isTurnComplete msg then commitTurn fresh else mret tt.

(** [onerror] *)
Definition onerror (e : Exn) : M unit :=
  consoleError (lit "Session Error:") e;;
  setStatus (fun prev =>
    {| SessionStatus.isActive := SessionStatus.isActive prev;
       SessionStatus.isConnecting := false;
       SessionStatus.isMicActive := SessionStatus.isMicActive prev;
       SessionStatus.error :=
         Some (lit "Connection error. Please restart Guard.") |});;
  stopSession.

(** [onclose] *)
Definition onclose : M unit := stopSession.

(** ** The component as a transition system *)

(** What can happen to the mounted component. *)
Inductive Event :=
| StartClicked (env : StartEnv)
| StopClicked
| KnowledgeBaseEdited (value : jsstring)
| SessionOpened
| MessageReceived (fresh : Fresh) (msg : LiveServerMessage)
| SessionErrored (e : Exn)
| SessionClosed.

Definition handler (ev : Event) : M unit :=
  match ev with
  | StartClicked env => startSession env
  | StopClicked => stopSession
  | KnowledgeBaseEdited value => setKnowledgeBase value
  | SessionOpened => onopen
  | MessageReceived fresh msg => onmessage fresh msg
  | SessionErrored e => onerror e
  | SessionClosed => onclose
  end.

Definition step (w : World) (ev : Event) : World := worldOf (handler ev w).

Definition run (evs : list Event) (w : World) : World := foldl step w evs.

Definition reachable (w : World) : Prop := exists evs, w = run evs initial.


(** ** Events and scenarios the properties are stated on *)

Inductive Direction := Input | Output.

#[global] Instance Direction_eq_dec : EqDecision Direction.
Proof. solve_decision. Defined.

(** The role of the Message a direction commits. *)
Definition roleOf (d : Direction) : Message.Role :=
  match d with
  | Input => Message.user
  | Output => Message.assistant
  end.

Definition buffer (d : Direction) (w : World) : jsstring :=
  match d with
  | Input => currentInputTranscription (refs w)
  | Output => currentOutputTranscription (refs w)
  end.

Definition streaming (d : Direction) (w : World) : jsstring :=
  match d with
  | Input => streamingInput (react w)
  | Output => streamingOutput (react w)
  end.

(** An event that carries one transcription delta and nothing else. *)
Definition deltaMessage (d : Direction) (t : jsstring) : LiveServerMessage :=
  {| serverContent := Some
       match d with
       | Input =>
           {| outputTranscription := None;
              inputTranscription := Some {| text := t |};
              turnComplete := false |}
       | Output =>
           {| outputTranscription := Some {| text := t |};
              inputTranscription := None;
              turnComplete := false |}
       end |}.

(** An event that carries the turn-complete marker and nothing else. *)
Definition turnCompleteMessage : LiveServerMessage :=
  {| serverContent := Some
       {| outputTranscription := None;
          inputTranscription := None;
          turnComplete := true |} |}.

(** The text [appendDelta] adds to the buffer of a direction for an event. *)
Definition deltaOf (d : Direction) (msg : LiveServerMessage) : jsstring :=
  match d with
  | Output =>
      match serverContent msg ≫= outputTranscription with
      | Some t => text t
      | None => []
      end
  | Input =>
      match serverContent msg ≫= outputTranscription with
      | Some _ => []
      | None =>
          match serverContent msg ≫= inputTranscription with
          | Some t => text t
          | None => []
          end
      end
  end.

(** The Message and the Suggestion a commit builds from a buffer. *)
Definition messageOf (d : Direction) (fresh : Fresh) (t : jsstring)
    : Message.t :=
  match d with
  | Input =>
      {| Message.id := userId fresh; Message.role := Message.user;
         Message.text := t; Message.timestamp := userTimestamp fresh |}
  | Output =>
      {| Message.id := newMsgId fresh; Message.role := Message.assistant;
         Message.text := t; Message.timestamp := assistantTimestamp fresh |}
  end.

Definition suggestionOf (fresh : Fresh) (t : jsstring) : Suggestion.t :=
  {| Suggestion.id := newMsgId fresh;
     Suggestion.title := lit "AI Insight";
     Suggestion.content := t;
     Suggestion.confidence := 0.99%float;
     Suggestion.timestamp := suggestionTimestamp fresh |}.

(** The Messages of the history that a direction committed. *)
Definition messagesOf (d : Direction) (w : World) : list Message.t :=
  filter (fun m => Message.role m = roleOf d) (messages (react w)).

(** The events of one turn: messages received, with what [uuidv4] and the
    clock answer for each. *)
Definition received (ms : list (Fresh * LiveServerMessage)) : list Event :=
  (fun fm => MessageReceived fm.1 fm.2) <$> ms.

(** Sample values for the worked scenarios. *)
Definition fresh0 : Fresh :=
  {| userId := lit "id-user"; userTimestamp := 1000;
     newMsgId := lit "id-assistant"; assistantTimestamp := 1001;
     suggestionTimestamp := 1002 |}.

(** ** Notions the properties are stated with *)

(** A computation leaves an observation of the world as it found it,
    whether it returns or throws. *)
Definition preserves {A X} (p : World -> X) (m : M A) : Prop :=
  forall w, p (worldOf (m w)) = p w.

(** No exception escapes a computation. *)
Definition neverThrows {A} (m : M A) : Prop :=
  forall w, returns (m w) = true.

(** All the tracks of a list stopped, in a track store. *)
Definition stopTracks (l : list nat) (ts : list MediaStreamTrack)
    : list MediaStreamTrack :=
  foldl (fun ts i => alter stopped i ts) ts l.

Definition tracksOf (stream : option MediaStream) : list nat :=
  match stream with
  | Some s => getTracks s
  | None => []
  end.

(** The session store after [close()] was called on the session a ref
    holds: closed when the call went through, untouched when it threw. *)
Definition closeHeld (session : option nat) (ss : list LiveSession)
    : list LiveSession :=
  match session with
  | Some s =>
      match ss !! s with
      | Some {| closeThrows := None |} =>
          <[s := {| closeThrows := None; isClosed := true |}]> ss
      | _ => ss
      end
  | None => ss
  end.

(** What the [catch] of [stopSession] prints for the session a ref holds. *)
Definition closeErrors (session : option nat) (ss : list LiveSession)
    : list jsstring :=
  match session with
  | Some s =>
      match ss !! s with
      | Some {| closeThrows := Some e |} =>
          [lit "Error closing session:" ++ lit " " ++ message e]
      | _ => []
      end
  | None => []
  end.

(** The world [stopSession] leaves, written out. *)
Definition afterStop (w : World) : World :=
  {| react :=
       {| status :=
            {| SessionStatus.isActive := false;
               SessionStatus.isConnecting :=
                 SessionStatus.isConnecting (status (react w));
               SessionStatus.isMicActive := false;
               SessionStatus.error := SessionStatus.error (status (react w)) |};
          messages := messages (react w);
          suggestions := suggestions (react w);
          knowledgeBase := knowledgeBase (react w);
          streamingInput := [];
          streamingOutput := [] |};
     refs :=
       {| sessionRef := None;
          audioContextRef := None;
          micStreamRef := None;
          systemStreamRef := None;
          currentInputTranscription := currentInputTranscription (refs w);
          currentOutputTranscription := currentOutputTranscription (refs w) |};
     browser :=
       {| trackStore :=
            stopTracks (tracksOf (systemStreamRef (refs w)))
              (stopTracks (tracksOf (micStreamRef (refs w)))
                 (trackStore (browser w)));
          sessionStore :=
            closeHeld (sessionRef (refs w)) (sessionStore (browser w));
          contextStore :=
            match audioContextRef (refs w) with
            | Some c => <[c := closed]> (contextStore (browser w))
            | None => contextStore (browser w)
            end;
          console :=
            console (browser w)
            ++ closeErrors (sessionRef (refs w)) (sessionStore (browser w)) |} |}.

(** Every track of a list is stopped in a world. *)
Definition allEnded (l : list nat) (w : World) : Prop :=
  forall i t, i ∈ l ->
    trackStore (browser w) !! i = Some t -> readyState t = ended.

(** A start in which the display share comes back with a video track and
    no audio track. *)
Definition videoOnlyShare : StartEnv :=
  {| mediaDevices := true;
     aistudio := None;
     apiKey := lit "key";
     getUserMedia := inr [audio];
     getDisplayMedia := inr [video];
     connect := inr {| closeThrows := None; isClosed := false |} |}.

(** A session that was started and opened, and whose [close()] throws. *)
Definition throwingSession : World :=
  run [StartClicked
         {| mediaDevices := true; aistudio := None; apiKey := lit "key";
            getUserMedia := inr [audio];
            getDisplayMedia := inr [video; audio];
            connect := inr {| closeThrows := Some (newError (lit "socket gone"));
                              isClosed := false |} |};
       SessionOpened] initial.

(** A turn in which the assistant says [t] and the participant nothing. *)
Definition assistantTurn (fresh : Fresh) (t : jsstring) : list Event :=
  [MessageReceived fresh (deltaMessage Output t);
   MessageReceived fresh turnCompleteMessage].

(** Sixteen such turns, saying "A", "B", ... "P". *)
Definition sixteenTurns : list Event :=
  concat ((fun i => assistantTurn fresh0 [65 + Z.of_nat i]) <$> seq 0 16).

(** Fifteen Suggestions, told apart by their timestamps, and one more. *)
Definition fifteenSuggestions : list Suggestion.t :=
  (fun i =>
     {| Suggestion.id := lit "id"; Suggestion.title := lit "AI Insight";
        Suggestion.content := lit "text"; Suggestion.confidence := 0.99%float;
        Suggestion.timestamp := 15 - Z.of_nat i |}) <$> seq 0 15.

Definition sixteenthSuggestion : Suggestion.t :=
  {| Suggestion.id := lit "id"; Suggestion.title := lit "AI Insight";
     Suggestion.content := lit "text"; Suggestion.confidence := 0.99%float;
     Suggestion.timestamp := 16 |}.

(** ** The controls the page renders *)

(** The header of [App] shows the start button when the session is not
    active, and the stop button otherwise; the start button is disabled
    while connecting. The setup panel, with the knowledge-base field, is
    there when the session is not active, and holds the retry link when
    [status.error] is truthy. *)
Definition showsStartButton (s : SessionStatus.t) : bool :=
  negb (SessionStatus.isActive s).

Definition startButtonDisabled (s : SessionStatus.t) : bool :=
  SessionStatus.isConnecting s.

Definition showsStopButton (s : SessionStatus.t) : bool :=
  SessionStatus.isActive s.

Definition showsSetupPanel (s : SessionStatus.t) : bool :=
  negb (SessionStatus.isActive s).

Definition showsRetryLink (s : SessionStatus.t) : bool :=
  showsSetupPanel s
  && match SessionStatus.error s with
     | Some e => truthy e
     | None => false
     end.

(** A click can reach [startSession]: through the start button or through
    the retry link. *)
Definition canStart (w : World) : bool :=
  let s := status (react w) in
  showsStartButton s && negb (startButtonDisabled s) || showsRetryLink s.



(** ** More notions for the properties *)

(** No handle is held. *)
Definition idle (w : World) : Prop :=
  sessionRef (refs w) = None /\ audioContextRef (refs w) = None
  /\ micStreamRef (refs w) = None /\ systemStreamRef (refs w) = None.

(** The tracks of the two streams the refs hold. *)
Definition heldTracks (w : World) : list nat :=
  tracksOf (micStreamRef (refs w)) ++ tracksOf (systemStreamRef (refs w)).

(** Nothing the browser handed out is left running without a handle to it:
    a live track is a track of a held stream, a running audio context is
    the held one, and a session that is open and whose [close()] would go
    through is the held one. *)
Definition leakFree (w : World) : Prop :=
  (forall i t, trackStore (browser w) !! i = Some t ->
     readyState t = live -> i ∈ heldTracks w)
  /\ (forall c, contextStore (browser w) !! c = Some running ->
        audioContextRef (refs w) = Some c)
  /\ (forall s session, sessionStore (browser w) !! s = Some session ->
        isClosed session = false -> closeThrows session = None ->
        sessionRef (refs w) = Some s).

(** An event that is not a message from the server. *)
Definition isControllerEvent (ev : Event) : bool :=
  match ev with
  | MessageReceived _ _ => false
  | _ => true
  end.

(** The characters of a base64 text: letters, digits, [+], [/] and the
    padding [=]. *)
Definition isBase64Char (c : char16) : bool :=
  (65 <=? c) && (c <=? 90) || (97 <=? c) && (c <=? 122)
  || (48 <=? c) && (c <=? 57) || (c =? 43) || (c =? 47) || (c =? 61).

(** The status a failed start leaves, and a status put into the state. *)
Definition failedStatus (msg : jsstring) : SessionStatus.t :=
  {| SessionStatus.isActive := false;
     SessionStatus.isConnecting := false;
     SessionStatus.isMicActive := false;
     SessionStatus.error := Some msg |}.

Definition connectingStatus : SessionStatus.t :=
  {| SessionStatus.isActive := false;
     SessionStatus.isConnecting := true;
     SessionStatus.isMicActive := false;
     SessionStatus.error := None |}.

Definition withStatus (s : SessionStatus.t) (r : ReactState) : ReactState :=
  {| status := s; messages := messages r; suggestions := suggestions r;
     knowledgeBase := knowledgeBase r; streamingInput := streamingInput r;
     streamingOutput := streamingOutput r |}.

(** The tracks of a stream the browser hands out, in a given state. *)
Definition tracksIn (st : ReadyState) (kinds : list TrackKind)
    : list MediaStreamTrack :=
  (fun k => {| kind := k; readyState := st |}) <$> kinds.

(** The text [status.error] gets when [startSession] fails, by the answers
    of the environment; [None] when nothing fails. *)
Definition startError (env : StartEnv) : option jsstring :=
  if negb (mediaDevices env) then
    Some (lit "Media capture is not supported in this browser or environment (ensure HTTPS/Localhost).")
  else if negb (truthy (apiKey env)) then Some (lit "API Key missing.")
  else
    match getUserMedia env with
    | inl err => Some (lit "Microphone denied: " ++ message err)
    | inr _ =>
        match getDisplayMedia env with
        | inl err =>
            if decide (name err = lit "NotAllowedError")
            then Some permissionDenied
            else Some (message err)
        | inr kinds =>
            if decide (audio ∈ kinds) then
              match connect env with
              | inl err => Some (message err)
              | inr _ => None
              end
            else Some audioNotShared
        end
    end.

(** A start in which every prompt is granted and the connection opens. *)
Definition grantedStart : StartEnv :=
  {| mediaDevices := true;
     aistudio := None;
     apiKey := lit "key";
     getUserMedia := inr [audio];
     getDisplayMedia := inr [video; audio];
     connect := inr {| closeThrows := None; isClosed := false |} |}.

(** The refs with the four handles replaced. *)
Definition holding (session ctx : option nat) (mic sys : option MediaStream)
    (rf : Refs) : Refs :=
  {| sessionRef := session; audioContextRef := ctx;
     micStreamRef := mic; systemStreamRef := sys;
     currentInputTranscription := currentInputTranscription rf;
     currentOutputTranscription := currentOutputTranscription rf |}.

(** The world in which the [catch] of [startSession] runs [stopSession],
    after it has printed the error and set its text: the refs, the tracks
    and the audio contexts are those the [try] got to. *)
Definition caught (msg : jsstring) (rf : Refs) (ts : list MediaStreamTrack)
    (cs : list ContextState) (w : World) : World :=
  {| react := withStatus (failedStatus msg) (react w);
     refs := rf;
     browser :=
       {| trackStore := ts;
          sessionStore := sessionStore (browser w);
          contextStore := cs;
          console :=
            console (browser w) ++ [lit "Startup Error:" ++ lit " " ++ msg] |} |}.

(** The stream the browser hands out when the track store holds [n]
    tracks. *)
Definition streamAt (n : nat) (kinds : list TrackKind) : MediaStream :=
  {| getTracks := seq n (length kinds) |}.

(** The four handles of a world. *)
Definition handles (w : World)
    : option nat * option nat * option MediaStream * option MediaStream :=
  (sessionRef (refs w), audioContextRef (refs w),
   micStreamRef (refs w), systemStreamRef (refs w)).

(** What a Suggestion and an assistant Message share: the identifier and
    the text. *)
Definition suggestionKey (s : Suggestion.t) : jsstring * jsstring :=
  (Suggestion.id s, Suggestion.content s).

Definition messageKey (m : Message.t) : jsstring * jsstring :=
  (Message.id m, Message.text m).



(** Every track is ended and every audio context is closed. *)
Definition allQuiet (w : World) : Prop :=
  Forall (fun t => readyState t = ended) (trackStore (browser w))
  /\ Forall (fun c => c = closed) (contextStore (browser w)).

(** A session that was started, opened, and is in the middle of a turn:
    an input delta has arrived and the turn is not complete. *)
Definition midTurn : World :=
  run [StartClicked grantedStart; SessionOpened;
       MessageReceived fresh0 (deltaMessage Input (lit "What is "))] initial.

(** A start in which the microphone is refused. *)
Definition microphoneRefused : StartEnv :=
  {| mediaDevices := true;
     aistudio := None;
     apiKey := lit "key";
     getUserMedia :=
       inl {| name := lit "NotAllowedError"; message := lit "Permission denied" |};
     getDisplayMedia := inr [video; audio];
     connect := inr {| closeThrows := None; isClosed := false |} |}.

(** The identifiers [uuidv4] can hand out during the events of a run, in
    the order of the events: only an event that completes a turn draws
    any, one for the user Message and one for the assistant Message. *)
Definition idsOf (ev : Event) : list jsstring :=
  match ev with
  | MessageReceived fresh msg =>
      if isTurnComplete msg then [userId fresh; newMsgId fresh] else []
  | _ => []
  end.

Definition idsDrawn (evs : list Event) : list jsstring := evs ≫= idsOf.

(** A second answer of [uuidv4] and the clock, and two assistant turns
    with different identifiers. *)
Definition fresh1 : Fresh :=
  {| userId := lit "id-user-1"; userTimestamp := 2000;
     newMsgId := lit "id-assistant-1"; assistantTimestamp := 2001;
     suggestionTimestamp := 2002 |}.

Definition twoTurns : list Event :=
  assistantTurn fresh0 (lit "A") ++ assistantTurn fresh1 (lit "B").

(** ** What [AssistantUI] renders *)

(** One bubble of the transcript column, and one card of the assistance
    column (the time of a card is kept as the timestamp it is formatted
    from). *)
Record Bubble := {
  bubbleKey : jsstring;
  bubbleRole : Message.Role;
  bubbleText : jsstring;
  bubbleCaption : jsstring
}.

Record Card := {
  cardKey : jsstring;
  cardBadge : jsstring;
  cardTime : Z;
  cardText : jsstring
}.

(** The welcome screen, or the two columns: the bubbles of the history,
    the input being heard, the answer being generated, and the cards
    ([None] stands for the "Monitoring conversation" hint shown in their
    place). *)
Inductive AssistantView :=
| Welcome
| Columns (transcript : list Bubble) (hearing : option jsstring)
          (generating : option jsstring) (hub : option (list Card)).

Definition bubbleOf (m : Message.t) : Bubble :=
  {| bubbleKey := Message.id m;
     bubbleRole := Message.role m;
     bubbleText := Message.text m;
     bubbleCaption :=
       match Message.role m with
       | Message.assistant => lit "AI Response"
       | Message.user => lit "Audio Captured"
       end |}.

Definition cardOf (idx : nat) (s : Suggestion.t) : Card :=
  {| cardKey := Suggestion.id s;
     cardBadge :=
       if (idx =? 0)%nat then lit "Immediate Action"
       else lit "Historical Insight";
     cardTime := Suggestion.timestamp s;
     cardText := Suggestion.content s |}.

(** [AssistantUI] *)
Definition AssistantUI (messages : list Message.t)
    (suggestions : list Suggestion.t) (isActive : bool)
    (streamingInput streamingOutput : jsstring) : AssistantView :=
  if negb isActive && (length messages =? 0)%nat then Welcome
  else
    Columns
      (bubbleOf <$> messages)
      (if truthy streamingInput then Some (streamingInput ++ lit "...")
       else None)
      (if truthy streamingOutput then Some streamingOutput else None)
      (if (length suggestions =? 0)%nat && negb (truthy streamingOutput)
       then None
       else Some (imap cardOf suggestions)).

(** The props [App] passes to [AssistantUI]. *)
Definition assistantView (w : World) : AssistantView :=
  AssistantUI (messages (react w)) (suggestions (react w))
              (SessionStatus.isActive (status (react w)))
              (streamingInput (react w)) (streamingOutput (react w)).

(** ** [startSession] as the source suspends it *)

(** [startSession] above takes the awaits in one go. The function is an
    [async] one: at each [await] it is suspended until the promise settles,
    and callbacks and clicks run on the component meanwhile. Here it is
    cut at its five awaits. *)
Inductive Await :=
| HasSelectedApiKey   (* line 89, [window.aistudio.hasSelectedApiKey()] *)
| OpenSelectKey       (* line 90, [window.aistudio.openSelectKey()] *)
| GetUserMedia        (* lines 100 to 108 *)
| GetDisplayMedia     (* line 123 *)
| Connect.            (* line 252, [sessionPromise] *)

(** What a piece of [startSession] ends with: the function is over, or it
    waits at an await. *)
Inductive Progress :=
| Done
| Waiting (a : Await).

(** What else can fail during a start, besides the answers of [StartEnv]:
    the two promises of [window.aistudio] can reject, the constructor of
    the audio context can throw, and so can the construction of the audio
    graph and of the client after it (lines 141 to 162). *)
Record StartFaults := {
  hasSelectedApiKeyRejects : option Exn;
  openSelectKeyRejects : option Exn;
  audioContextThrows : option Exn;
  audioGraphThrows : option Exn
}.

Definition noFaults : StartFaults :=
  {| hasSelectedApiKeyRejects := None; openSelectKeyRejects := None;
     audioContextThrows := None; audioGraphThrows := None |}.

(** The [catch] of [startSession], lines 254 to 258. *)
Definition catchStartup (err : Exn) : M unit :=
  consoleError (lit "Startup Error:") err;;
  setStatus (fun prev =>
    {| SessionStatus.isActive := SessionStatus.isActive prev;
       SessionStatus.isConnecting := false;
       SessionStatus.isMicActive := SessionStatus.isMicActive prev;
       SessionStatus.error := Some (message err) |});;
  stopSession.

(** A piece of the body of the [try]: what it throws goes to the [catch],
    which ends the function. *)
Definition inTry (body : M Progress) : M Progress :=
  tryCatch body (fun err => catchStartup err;; mret Done).

(** Lines 93 to 100: the API-key check, and into the [try] up to the first
    await there. *)
Definition checkApiKey (env : StartEnv) : M Progress :=
  if negb (truthy (apiKey env)) then
    setStatus (fun prev =>
      {| SessionStatus.isActive := SessionStatus.isActive prev;
         SessionStatus.isConnecting := false;
         SessionStatus.isMicActive := SessionStatus.isMicActive prev;
         SessionStatus.error := Some (lit "API Key missing.") |});;
    mret Done
  else mret (Waiting GetUserMedia).

(** From the click to the first await: lines 78 to 89 when
    [window.aistudio] is there, and on to line 100 when it is not (the
    condition of line 89 then awaits nothing). *)
Definition begin (env : StartEnv) : M Progress :=
  setStatus (fun _ =>
    {| SessionStatus.isActive := false;
       SessionStatus.isConnecting := true;
       SessionStatus.isMicActive := false;
       SessionStatus.error := None |});;
  if negb (mediaDevices env) then
    setStatus (fun prev =>
      {| SessionStatus.isActive := SessionStatus.isActive prev;
         SessionStatus.isConnecting := false;
         SessionStatus.isMicActive := SessionStatus.isMicActive prev;
         SessionStatus.error :=
           Some (lit "Media capture is not supported in this browser or environment (ensure HTTPS/Localhost).") |});;
    mret Done
  else
    match aistudio env with
    | Some _ => mret (Waiting HasSelectedApiKey)
    | None => checkApiKey env
    end.

(** Lines 138 to 162: the audio context, its ref, and the audio graph
    with the client (which hold no state of the component but can
    throw). *)
Definition buildAudioGraph (faults : StartFaults) : M unit :=
  audioCtx ←
    match audioContextThrows faults with
    | Some err => throw err
    | None => newAudioContext
    end;
  setAudioContextRef (Some audioCtx);;
  match audioGraphThrows faults with
  | Some err => throw err
  | None => mret tt
  end.

(** The piece that runs when the promise awaited at [a] settles, up to the
    next await or to the end of the function. The two promises of
    [window.aistudio] are awaited before the [try]: their rejection
    rejects the promise of [startSession] itself. *)
Definition resume (env : StartEnv) (faults : StartFaults) (a : Await)
    : M Progress :=
  match a with
  | HasSelectedApiKey =>
      match hasSelectedApiKeyRejects faults with
      | Some err => throw err
      | None =>
          match aistudio env with
          | Some false => mret (Waiting OpenSelectKey)
          | _ => checkApiKey env
          end
      end
  | OpenSelectKey =>
      match openSelectKeyRejects faults with
      | Some err => throw err
      | None => checkApiKey env
      end
  | GetUserMedia =>
      inTry (getMicrophone env;; mret (Waiting GetDisplayMedia))
  | GetDisplayMedia =>
      inTry (getSystemAudio env;;
             buildAudioGraph faults;;
             mret (Waiting Connect))
  | Connect =>
      inTry (session ←
               match connect env with
               | inr s => newSession s
               | inl err => throw err
               end;
             setSessionRef (Some session);;
             mret Done)
  end.

(** What the rest of the page does to the world while a start waits at an
    await. *)
Definition Interference := Await -> World -> World.

(** Nothing else runs while the start waits. *)
Definition undisturbed : Interference := fun _ w => w.

(** A start from a piece's end on: at each await the rest of the page
    runs, then the start resumes. *)
Fixpoint continue (awaits : nat) (others : Interference) (env : StartEnv)
    (faults : StartFaults) (p : Progress) : M unit :=
  match p, awaits with
  | Waiting a, S awaits' =>
      modify (others a);;
      p' ← resume env faults a;
      continue awaits' others env faults p'
  | _, _ => mret tt
  end.

(** [startSession] from the click to its end (it has five awaits at
    most), with what runs meanwhile. *)
Definition startSessionAmid (others : Interference) (env : StartEnv)
    (faults : StartFaults) : M unit :=
  p ← begin env;
  continue 5 others env faults p.

(** How a start ends, by the answers it gets, first failure first: its
    promise rejects, or it sets an error text, or it connects. *)
Inductive StartOutcome :=
| Rejects (err : Exn)
| Fails (msg : jsstring)
| Connects.

(** The rejection of the key selection, if there is one. *)
Definition keySelection (env : StartEnv) (faults : StartFaults) : option Exn :=
  match aistudio env with
  | None => None
  | Some selected =>
      match hasSelectedApiKeyRejects faults with
      | Some err => Some err
      | None => if selected then None else openSelectKeyRejects faults
      end
  end.

Definition startOutcome (env : StartEnv) (faults : StartFaults)
    : StartOutcome :=
  if negb (mediaDevices env) then
    Fails (lit "Media capture is not supported in this browser or environment (ensure HTTPS/Localhost).")
  else
    match keySelection env faults with
    | Some err => Rejects err
    | None =>
        if negb (truthy (apiKey env)) then Fails (lit "API Key missing.")
        else
          match getUserMedia env with
          | inl err => Fails (lit "Microphone denied: " ++ message err)
          | inr _ =>
              match getDisplayMedia env with
              | inl err =>
                  Fails (if decide (name err = lit "NotAllowedError")
                         then permissionDenied else message err)
              | inr kinds =>
                  if decide (audio ∈ kinds) then
                    match audioContextThrows faults with
                    | Some err => Fails (message err)
                    | None =>
                        match audioGraphThrows faults with
                        | Some err => Fails (message err)
                        | None =>
                            match connect env with
                            | inl err => Fails (message err)
                            | inr _ => Connects
                            end
                        end
                    end
                  else Fails audioNotShared
              end
          end
    end.

(** The start got into its [try]: the two checks before it passed and the
    key selection did not reject. *)
Definition entersTry (env : StartEnv) (faults : StartFaults) : bool :=
  mediaDevices env && truthy (apiKey env)
  && match keySelection env faults with
     | None => true
     | Some _ => false
     end.

(** What runs meanwhile leaves the handles and the browser objects
    alone, as [onopen], [onmessage] and the edit of the knowledge base
    do. *)
Definition handsOff (others : Interference) : Prop :=
  forall a w, handles (others a w) = handles w
              /\ browser (others a w) = browser w.

(** While the start waits for the connection its own session opens;
    nothing else happens. *)
Definition opensMeanwhile : Interference := fun a w =>
  match a with
  | Connect => step w SessionOpened
  | _ => w
  end.

(** Two worlds with the same handles and the same browser objects. *)
Definition sameObjects (w1 w2 : World) : Prop :=
  handles w1 = handles w2 /\ browser w1 = browser w2.

(** The awaits a start has before it, the one it waits at included. *)
Definition awaitsLeft (p : Progress) : nat :=
  match p with
  | Done => 0
  | Waiting HasSelectedApiKey => 5
  | Waiting OpenSelectKey => 4
  | Waiting GetUserMedia => 3
  | Waiting GetDisplayMedia => 2
  | Waiting Connect => 1
  end.

(** The status of an open session with no error. *)
Definition activeStatus : SessionStatus.t :=
  {| SessionStatus.isActive := true;
     SessionStatus.isConnecting := false;
     SessionStatus.isMicActive := true;
     SessionStatus.error := None |}.

(** What runs meanwhile leaves the status alone. *)
Definition keepsStatus (others : Interference) : Prop :=
  forall a w, status (react (others a w)) = status (react w).

(** *** The worlds the pieces of a start leave *)

(** A world with another status. *)
Definition statusSet (s : SessionStatus.t) (w : World) : World :=
  {| react := withStatus s (react w); refs := refs w; browser := browser w |}.

(** A world after the browser has handed out a stream of new tracks. *)
Definition withTracks (st : ReadyState) (kinds : list TrackKind) (w : World)
    : World :=
  {| react := react w; refs := refs w;
     browser :=
       {| trackStore := trackStore (browser w) ++ tracksIn st kinds;
          sessionStore := sessionStore (browser w);
          contextStore := contextStore (browser w);
          console := console (browser w) |} |}.

(** ... and after the stream has gone into [micStreamRef], or into
    [systemStreamRef]. *)
Definition withMicrophone (kinds : list TrackKind) (w : World) : World :=
  {| react := react w;
     refs := holding (sessionRef (refs w)) (audioContextRef (refs w))
                     (Some (streamAt (length (trackStore (browser w))) kinds))
                     (systemStreamRef (refs w)) (refs w);
     browser := browser (withTracks live kinds w) |}.

Definition withSystemAudio (kinds : list TrackKind) (w : World) : World :=
  {| react := react w;
     refs := holding (sessionRef (refs w)) (audioContextRef (refs w))
                     (micStreamRef (refs w))
                     (Some (streamAt (length (trackStore (browser w))) kinds))
                     (refs w);
     browser := browser (withTracks live kinds w) |}.

(** A world after a new audio context has gone into [audioContextRef]. *)
Definition withAudioContext (w : World) : World :=
  {| react := react w;
     refs := holding (sessionRef (refs w))
                     (Some (length (contextStore (browser w))))
                     (micStreamRef (refs w)) (systemStreamRef (refs w))
                     (refs w);
     browser :=
       {| trackStore := trackStore (browser w);
          sessionStore := sessionStore (browser w);
          contextStore := contextStore (browser w) ++ [running];
          console := console (browser w) |} |}.

(** A world after a new session has gone into [sessionRef]. *)
Definition withSession (session : LiveSession) (w : World) : World :=
  {| react := react w;
     refs := holding (Some (length (sessionStore (browser w))))
                     (audioContextRef (refs w))
                     (micStreamRef (refs w)) (systemStreamRef (refs w))
                     (refs w);
     browser :=
       {| trackStore := trackStore (browser w);
          sessionStore := sessionStore (browser w) ++ [session];
          contextStore := contextStore (browser w);
          console := console (browser w) |} |}.

(** The world the [catch] of [startSession] leaves when the [try] has
    thrown an error with the text [msg] in the world [w]. *)
Definition failedIn (msg : jsstring) (w : World) : World :=
  afterStop (caught msg (refs w) (trackStore (browser w))
                    (contextStore (browser w)) w).

(** The text of the error the [catch] gets when the display share is
    rejected. *)
Definition displayError (err : Exn) : jsstring :=
  if decide (name err = lit "NotAllowedError")
  then permissionDenied else message err.

(** Two outcomes of the same kind, with the same result or the same
    exception, on worlds with the same objects. *)
Definition sameOutcome {A} (r1 r2 : Outcome A) : Prop :=
  match r1, r2 with
  | Ok a1 w1, Ok a2 w2 => a1 = a2 /\ sameObjects w1 w2
  | Throw e1 w1, Throw e2 w2 => e1 = e2 /\ sameObjects w1 w2
  | _, _ => False
  end.

(** The world in which a start that selects its key without a rejection
    gets to the API-key check, and the world in which a rejection of the
    key selection leaves it. *)
Definition afterKeySelection (others : Interference) (env : StartEnv)
    (w : World) : World :=
  match aistudio env with
  | None => w
  | Some true => others HasSelectedApiKey w
  | Some false => others OpenSelectKey (others HasSelectedApiKey w)
  end.

Definition atRejection (others : Interference) (faults : StartFaults)
    (w : World) : World :=
  match hasSelectedApiKeyRejects faults with
  | Some _ => others HasSelectedApiKey w
  | None => others OpenSelectKey (others HasSelectedApiKey w)
  end.

(** A start in which the audio graph cannot be built. *)
Definition graphFails : StartFaults :=
  {| hasSelectedApiKeyRejects := None; openSelectKeyRejects := None;
     audioContextThrows := None;
     audioGraphThrows := Some (newError (lit "no audio device")) |}.

(** A start in which the key dialog is closed without a choice. *)
Definition keyDialogClosed : StartFaults :=
  {| hasSelectedApiKeyRejects := None;
     openSelectKeyRejects := Some (newError (lit "dialog closed"));
     audioContextThrows := None; audioGraphThrows := None |}.

Definition keyToSelect : StartEnv :=
  {| mediaDevices := true; aistudio := Some false; apiKey := lit "key";
     getUserMedia := inr [audio]; getDisplayMedia := inr [video; audio];
     connect := inr {| closeThrows := None; isClosed := false |} |}.

(** * Properties *)

Import Encoder.

(** ** The frame encoder *)

Section EncoderFacts.

Lemma wrap16_signed z : wrap16 z = (z + 32768) mod 65536 - 32768.
Proof.
  unfold wrap16; cbv zeta.
  destruct (Z.leb_spec 32768 (z mod 65536)); Z.div_mod_to_equations; lia.
Qed.

Lemma wrap16_range z : -32768 <= wrap16 z <= 32767.
Proof. rewrite wrap16_signed. Z.div_mod_to_equations; lia. Qed.

Lemma wrap16_congruent z : (wrap16 z - z) mod 65536 = 0.
Proof. rewrite wrap16_signed. Z.div_mod_to_equations; lia. Qed.

Lemma wrap16_in_range z : -32768 <= z <= 32767 -> wrap16 z = z.
Proof. intros. rewrite wrap16_signed. Z.div_mod_to_equations; lia. Qed.

(** The integer part [ToInt16] takes, by shifting the mantissa, is the
    quotient towards zero of the fraction the number stands for. *)
Lemma truncate_integerPart x : truncate x = integerPart x.
Proof.
  unfold truncate, integerPart, asFraction.
  destruct (Prim2SF x) as [s|s| |s m e]; try done.
  destruct (Z.leb_spec 0 e) as [He|He].
  - rewrite Z.shiftl_mul_pow2, Z.quot_1_r by done.
    destruct s; [| done].
    change (Z.neg m) with (- Z.pos m). by rewrite Z.mul_opp_l.
  - rewrite Z.shiftl_div_pow2 by lia.
    assert (0 < 2 ^ (- e)) by (apply Z.pow_pos_nonneg; lia).
    destruct s.
    + change (Z.neg m) with (- Z.pos m).
      rewrite Z.quot_opp_l, Z.quot_div_nonneg by lia. done.
    + by rewrite Z.quot_div_nonneg by lia.
Qed.

Lemma toInt16_quantize x : toInt16 (x * 32768)%float = quantize x.
Proof.
  unfold toInt16, quantize. rewrite truncate_integerPart. apply wrap16_signed.
Qed.

Lemma asFraction_positive x n d : asFraction x = Some (n, d) -> 0 < d.
Proof.
  unfold asFraction.
  destruct (Prim2SF x) as [s|s| |s m e]; try done.
  - intros [= <- <-]. lia.
  - destruct (Z.leb_spec 0 e); intros [= <- <-]; [lia|].
    apply Z.pow_pos_nonneg; lia.
Qed.

(** What "the fraction dropped" means, without naming a division: the
    integer part [t] of [n / d] has the sign of [n] and is the largest
    magnitude with [|t| * d <= |n|]. *)
Lemma integerPart_towards_zero x n d :
  asFraction x = Some (n, d) ->
  Z.abs (integerPart x) * d <= Z.abs n < (Z.abs (integerPart x) + 1) * d
  /\ 0 <= integerPart x * n.
Proof.
  intros Hx. pose proof (asFraction_positive x n d Hx) as Hd.
  unfold integerPart. rewrite Hx.
  pose proof (Z.quot_rem' n d) as Hqr.
  destruct (Z.le_gt_cases 0 n) as [Hn|Hn].
  - pose proof (Z.rem_bound_pos n d Hn Hd).
    pose proof (Z.quot_pos n d Hn Hd). nia.
  - pose proof (Z.rem_bound_pos_neg n d Hd ltac:(lia)).
    assert (Z.quot n d <= 0) by nia.
    nia.
Qed.

Lemma integerPart_no_number x : asFraction x = None -> integerPart x = 0.
Proof. unfold integerPart. by intros ->. Qed.

(** The bytes the [Uint8Array] view shows are the little-endian bytes of
    the signed value. *)
Lemma int16Bytes_littleEndian v : int16Bytes v = littleEndian16 v.
Proof.
  unfold int16Bytes, littleEndian16; cbv zeta.
  change 255 with (Z.ones 8).
  rewrite Z.land_ones, Z.shiftr_div_pow2 by lia.
  change (2 ^ 8) with 256.
  f_equal; [| f_equal]; Z.div_mod_to_equations; lia.
Qed.

Lemma littleEndian16_bytes v :
  Forall (fun b => 0 <= b <= 255) (littleEndian16 v).
Proof.
  unfold littleEndian16.
  repeat constructor; Z.div_mod_to_equations; lia.
Qed.

Lemma bufferBytes_littleEndian (int16 : list Z) :
  bufferBytes int16 = int16 ≫= littleEndian16.
Proof.
  unfold bufferBytes.
  induction int16 as [|v l IH]; [done|].
  by rewrite !bind_cons, int16Bytes_littleEndian, IH.
Qed.

Lemma bufferBytes_bytes (int16 : list Z) :
  Forall (fun b => 0 <= b <= 255) (bufferBytes int16).
Proof.
  rewrite bufferBytes_littleEndian.
  induction int16 as [|v l IH]; [constructor|].
  rewrite bind_cons.
  apply Forall_app; split; [apply littleEndian16_bytes | exact IH].
Qed.

(** The loop of [createBlob], after [k] rounds. *)
Lemma createBlob_loop (samples : list float) (k : nat) :
  (k <= length samples)%nat ->
  foldl (fun int16 i =>
           <[i := toInt16 (sampleAt samples i * 32768)%float]> int16)
        (replicate (length samples) 0) (seq 0 k)
  = (quantize <$> take k samples) ++ replicate (length samples - k) 0.
Proof.
  induction k as [|k IH]; intros Hk.
  - cbn. by rewrite Nat.sub_0_r.
  - rewrite seq_S, foldl_app, IH by lia. cbn.
    destruct (lookup_lt_is_Some_2 samples k) as [x Hx]; [lia|].
    unfold sampleAt. rewrite Hx. cbn.
    rewrite (take_S_r _ _ _ Hx), fmap_app. cbn.
    rewrite toInt16_quantize.
    assert (Hlen : length (quantize <$> take k samples) = k)
      by (rewrite length_fmap, length_take; lia).
    replace (length samples - k)%nat with (S (length samples - S k)) by lia.
    cbn.
    rewrite <- (Nat.add_0_r k) at 1.
    rewrite <- Hlen at 1.
    rewrite insert_app_r. cbn.
    by rewrite <- app_assoc.
Qed.

(** The loop of [encode], after [k] rounds. *)
Lemma encode_loop (bytes : list Z) (k : nat) :
  Forall (fun b => 0 <= b <= 255) bytes ->
  (k <= length bytes)%nat ->
  foldl (fun binary i => binary ++ fromCharCode (byteAt bytes i))
        [] (seq 0 k)
  = take k bytes.
Proof.
  intros Hb. induction k as [|k IH]; intros Hk; [done|].
  rewrite seq_S, foldl_app, IH by lia. cbn.
  destruct (lookup_lt_is_Some_2 bytes k) as [b Hbk]; [lia|].
  unfold byteAt, fromCharCode. rewrite Hbk. cbn.
  rewrite (take_S_r _ _ _ Hbk).
  assert (0 <= b <= 255) by (eapply Forall_lookup_1 in Hb; eauto).
  by rewrite Z.mod_small by lia.
Qed.

Lemma btoa_bytes (bytes : list Z) :
  Forall (fun b => 0 <= b <= 255) bytes -> btoa bytes = Some (base64 bytes).
Proof.
  intros Hb. unfold btoa.
  replace (forallb _ bytes) with true; [done|].
  symmetry. apply forallb_forall. intros b Hin.
  apply list_elem_of_In in Hin.
  pose proof (proj1 (Forall_forall _ _) Hb b Hin). cbn in *. lia.
Qed.

Lemma encode_bytes (bytes : list Z) :
  Forall (fun b => 0 <= b <= 255) bytes ->
  encode bytes = Some (base64 bytes).
Proof.
  intros Hb. unfold encode; cbv zeta.
  rewrite encode_loop, firstn_all by (done || lia).
  by apply btoa_bytes.
Qed.

End EncoderFacts.

(** The code's [createBlob] computes the payload the specification
    describes, and never throws. *)
Lemma createBlob_framePayload (samples : list float) :
  createBlob samples
  = Some {| data := framePayload samples;
            mimeType := lit "audio/pcm;rate=16000" |}.
Proof.
  unfold createBlob; cbv zeta.
  rewrite createBlob_loop by lia.
  rewrite firstn_all, Nat.sub_diag, app_nil_r.
  rewrite encode_bytes by apply bufferBytes_bytes.
  by rewrite bufferBytes_littleEndian.
Qed.

Lemma quantize_range x : -32768 <= quantize x <= 32767.
Proof. rewrite <- toInt16_quantize. apply wrap16_range. Qed.

Lemma quantize_congruent x :
  (quantize x - truncate (x * 32768)%float) mod 65536 = 0.
Proof. rewrite <- toInt16_quantize. apply wrap16_congruent. Qed.

Lemma quantize_in_range x :
  -32768 <= truncate (x * 32768)%float <= 32767 ->
  quantize x = truncate (x * 32768)%float.
Proof. intros. rewrite <- toInt16_quantize. by apply wrap16_in_range. Qed.

(** Samples inside and outside [-1, 1): full scale [1.0] and beyond wrap
    around, and what is not a finite number gives 0. *)
Lemma quantize_examples :
  quantize 0.5 = 16384 /\ quantize (-1) = -32768 /\ quantize 0 = 0
  /\ quantize (-0.3) = -9830 /\ quantize 0.3 = 9830
  /\ quantize (-0.9999) = -32764
  /\ quantize 0.99999 = 32767 /\ quantize (-0.00001) = 0
  /\ quantize 1 = -32768 /\ quantize 1.5 = -16384 /\ quantize (-1.5) = 16384
  /\ quantize 2 = 0
  /\ quantize nan = 0 /\ quantize infinity = 0.
Proof. vm_compute. repeat split. Qed.

(** The test vectors of RFC 4648, section 10. *)
Lemma base64_rfc4648_vectors :
  base64 (lit "") = lit ""
  /\ base64 (lit "f") = lit "Zg=="
  /\ base64 (lit "fo") = lit "Zm8="
  /\ base64 (lit "foo") = lit "Zm9v"
  /\ base64 (lit "foob") = lit "Zm9vYg=="
  /\ base64 (lit "fooba") = lit "Zm9vYmE="
  /\ base64 (lit "foobar") = lit "Zm9vYmFy".
Proof. vm_compute. repeat split. Qed.

(** The little-endian bytes are bytes, and put back together they give the
    16-bit pattern of the value. *)
Lemma littleEndian16_value v :
  match littleEndian16 v with
  | [lo; hi] => 0 <= lo <= 255 /\ 0 <= hi <= 255 /\ lo + 256 * hi = v mod 65536
  | _ => False
  end.
Proof. unfold littleEndian16. Z.div_mod_to_equations; lia. Qed.

(** A block of four samples, the second at full scale: bytes
    [00 40 00 80 00 80 00 20]. *)
Example createBlob_example :
  createBlob [0.5; 1; -1; 0.25]%float
  = Some {| data := lit "AEAAgACAACA=";
            mimeType := lit "audio/pcm;rate=16000" |}.
Proof. vm_compute. reflexivity. Qed.

(** *** Reading the payload back *)

Lemma sextetValue_sextetChar n : 0 <= n < 64 -> sextetValue (sextetChar n) = n.
Proof.
  intros Hn. unfold sextetValue, sextetChar.
  repeat (case_match; try lia).
Qed.

Lemma sextetChar_not_pad n : 0 <= n < 64 -> (sextetChar n =? padChar) = false.
Proof.
  intros Hn. unfold sextetChar, padChar. repeat case_match; lia.
Qed.

Lemma lor_shiftl_add x y k :
  0 <= k -> 0 <= x -> 0 <= y < 2 ^ k -> Z.lor (Z.shiftl x k) y = x * 2 ^ k + y.
Proof.
  intros Hk Hx Hy. rewrite Z.shiftl_mul_pow2 by lia.
  symmetry. apply Z.add_nocarry_lor.
  destruct (decide (y = 0)) as [->|Hy0]; [apply Z.land_0_r|].
  apply Z.bits_inj'. intros n Hn.
  rewrite Z.land_spec, Z.bits_0.
  destruct (decide (n < k)).
  - rewrite <- Z.shiftl_mul_pow2 by lia. rewrite Z.shiftl_spec_low by lia. done.
  - rewrite (Z.bits_above_log2 y n); [apply andb_false_r | lia |].
    apply Z.log2_lt_pow2; [lia|].
    eapply Z.lt_le_trans; [apply Hy|]. apply Z.pow_le_mono_r; lia.
Qed.

Ltac bits_to_arith :=
  repeat first
    [ rewrite Z.shiftr_div_pow2 by lia
    | rewrite Z.shiftl_mul_pow2 by lia
    | progress change (Z.land ?a 3) with (Z.land a (Z.ones 2))
    | progress change (Z.land ?a 15) with (Z.land a (Z.ones 4))
    | progress change (Z.land ?a 63) with (Z.land a (Z.ones 6))
    | rewrite Z.land_ones by lia ].

Lemma group_roundtrip a b c :
  0 <= a <= 255 -> 0 <= b <= 255 -> 0 <= c <= 255 ->
  let n1 := Z.shiftr a 2 in
  let n2 := Z.lor (Z.shiftl (Z.land a 3) 4) (Z.shiftr b 4) in
  let n3 := Z.lor (Z.shiftl (Z.land b 15) 2) (Z.shiftr c 6) in
  let n4 := Z.land c 63 in
  (0 <= n1 < 64 /\ 0 <= n2 < 64 /\ 0 <= n3 < 64 /\ 0 <= n4 < 64)
  /\ Z.lor (Z.shiftl n1 2) (Z.shiftr n2 4) = a
  /\ Z.lor (Z.shiftl (Z.land n2 15) 4) (Z.shiftr n3 2) = b
  /\ Z.lor (Z.shiftl (Z.land n3 3) 6) n4 = c.
Proof.
  intros Ha Hb Hc n1 n2 n3 n4.
  assert (Hn1 : n1 = a / 4) by (subst n1; by bits_to_arith).
  assert (Hn2 : n2 = (a mod 4) * 16 + b / 16).
  { subst n2. rewrite lor_shiftl_add; bits_to_arith; try done;
      change (2 ^ 4) with 16; change (2 ^ 2) with 4;
      Z.div_mod_to_equations; lia. }
  assert (Hn3 : n3 = (b mod 16) * 4 + c / 64).
  { subst n3. rewrite lor_shiftl_add; bits_to_arith; try done;
      change (2 ^ 4) with 16; change (2 ^ 2) with 4; change (2 ^ 6) with 64;
      Z.div_mod_to_equations; lia. }
  assert (Hn4 : n4 = c mod 64) by (subst n4; by bits_to_arith).
  clearbody n1 n2 n3 n4. subst.
  split; [Z.div_mod_to_equations; lia|].
  repeat split.
  all: rewrite lor_shiftl_add; bits_to_arith;
    change (2 ^ 4) with 16; change (2 ^ 2) with 4; change (2 ^ 6) with 64;
    try (Z.div_mod_to_equations; lia).
Qed.

(** Reading a payload back gives the bytes that were encoded. *)
Lemma unbase64_base64 (bs : list Z) :
  Forall (fun b => 0 <= b <= 255) bs -> unbase64 (base64 bs) = bs.
Proof.
  remember (length bs) as n eqn:Hn. revert bs Hn.
  induction n as [n IH] using lt_wf_ind. intros bs Hn Hbs.
  destruct bs as [|a [|b [|c rest]]]; [done| | |].
  - apply Forall_cons in Hbs as [Ha _].
    destruct (group_roundtrip a 0 0 Ha) as ((H1 & H2 & _) & Hb1 & _); [lia..|].
    cbn [base64 unbase64].
    change (Z.shiftr 0 4) with 0 in *. rewrite Z.lor_0_r in *.
    rewrite Z.eqb_refl, !sextetValue_sextetChar by done.
    by rewrite Hb1.
  - apply Forall_cons in Hbs as [Ha Hbs]. apply Forall_cons in Hbs as [Hb _].
    destruct (group_roundtrip a b 0 Ha Hb) as ((H1 & H2 & H3 & _) & Hb1 & Hb2 & _);
      [lia|].
    cbn [base64 unbase64].
    change (Z.shiftr 0 6) with 0 in *. rewrite Z.lor_0_r in *.
    rewrite sextetChar_not_pad, Z.eqb_refl, !sextetValue_sextetChar by done.
    by rewrite Hb1, Hb2.
  - apply Forall_cons in Hbs as [Ha Hbs]. apply Forall_cons in Hbs as [Hb Hbs].
    apply Forall_cons in Hbs as [Hc Hrest].
    destruct (group_roundtrip a b c Ha Hb Hc)
      as ((H1 & H2 & H3 & H4) & Hb1 & Hb2 & Hb3).
    cbn [base64 unbase64].
    rewrite !sextetChar_not_pad, !sextetValue_sextetChar by done.
    rewrite Hb1, Hb2, Hb3.
    do 3 f_equal. apply (IH (length rest)); [cbn in Hn; lia | done | done].
Qed.

Lemma readInt16s_littleEndian (vs : list Z) :
  Forall (fun v => -32768 <= v <= 32767) vs ->
  readInt16s (vs ≫= littleEndian16) = vs.
Proof.
  induction 1 as [|v vs Hv _ IH]; [done|].
  rewrite bind_cons. cbn [littleEndian16 app readInt16s]. rewrite IH.
  f_equal. rewrite wrap16_signed. Z.div_mod_to_equations; lia.
Qed.

(** The frame determines the quantised block: decoding the payload gives
    back the 16-bit value of every sample. *)
Lemma framePayload_roundtrip (samples : list float) :
  readInt16s (unbase64 (framePayload samples)) = quantize <$> samples.
Proof.
  unfold framePayload.
  rewrite unbase64_base64.
  - apply readInt16s_littleEndian, Forall_fmap, Forall_forall.
    intros x _. apply quantize_range.
  - rewrite <- bufferBytes_littleEndian. apply bufferBytes_bytes.
Qed.

(** ** The claims about the frame encoder *)

(** C5: the frame encoder is a function of the sample block alone. The
    code's [createBlob] never throws and returns the payload the
    specification describes ([framePayload], written from its words and
    sharing nothing with the code but the base64 alphabet): every sample
    is multiplied by 32768 and its integer part taken, that is the fraction
    dropped, towards zero for negative products too; the result is taken
    modulo 2^16 into the signed 16-bit range with no clamp (full scale 1.0
    gives -32768, as -1.0 does); the values are laid out low byte first,
    and the bytes are encoded in the base64 of RFC 4648, from which the
    16-bit values can be read back. A product that is no number gives 0.
    Blocks with the same 16-bit values, identical blocks among them, give
    the same frame. *)
Theorem createBlob_pcm16_base64 :
  (forall samples,
     createBlob samples
     = Some {| data := framePayload samples;
               mimeType := lit "audio/pcm;rate=16000" |})
  /\ (forall x,
        -32768 <= quantize x <= 32767
        /\ (forall n d,
              asFraction (x * 32768)%float = Some (n, d) ->
              exists t,
                (Z.abs t * d <= Z.abs n < (Z.abs t + 1) * d /\ 0 <= t * n)
                /\ (quantize x - t) mod 65536 = 0
                /\ (-32768 <= t <= 32767 -> quantize x = t))
        /\ (asFraction (x * 32768)%float = None -> quantize x = 0))
  /\ (quantize 1 = -32768 /\ quantize (-1) = -32768
      /\ quantize 1.5 = -16384 /\ quantize (-1.5) = 16384
      /\ quantize 0.5 = 16384 /\ quantize (-0.5) = -16384
      /\ quantize 0x99999Ap-25 = 9830 /\ quantize (-0x99999Ap-25) = -9830
      /\ quantize 0xFFFFFFp-24 = 32767 /\ quantize (-0xFFFFFFp-24) = -32767
      /\ quantize 0x1p-17 = 0 /\ quantize (-0x1p-17) = 0
      /\ quantize nan = 0 /\ quantize infinity = 0
      /\ quantize neg_infinity = 0)
  /\ (forall v,
        match littleEndian16 v with
        | [lo; hi] =>
            0 <= lo <= 255 /\ 0 <= hi <= 255 /\ lo + 256 * hi = v mod 65536
        | _ => False
        end)
  /\ (base64 (lit "foobar") = lit "Zm9vYmFy"
      /\ base64 (lit "fooba") = lit "Zm9vYmE="
      /\ base64 (lit "foob") = lit "Zm9vYg==")
  /\ createBlob [-0x99999Ap-25; 0.5; -1; 1]%float
     = Some {| data := lit "mtkAQACAAIA=";
               mimeType := lit "audio/pcm;rate=16000" |}
  /\ (forall samples,
        readInt16s (unbase64 (framePayload samples)) = quantize <$> samples)
  /\ (forall block1 block2,
        quantize <$> block1 = quantize <$> block2 ->
        createBlob block1 = createBlob block2).
Proof.
  split; [exact createBlob_framePayload |].
  split.
  { intros x. split; [apply quantize_range |]. split.
    - intros n d Hx. exists (integerPart (x * 32768)%float).
      split; [by apply integerPart_towards_zero |].
      rewrite <- truncate_integerPart.
      split; [apply quantize_congruent | apply quantize_in_range].
    - intros Hx. unfold quantize. by rewrite integerPart_no_number. }
  split; [by vm_compute |].
  split; [exact littleEndian16_value |].
  split; [by vm_compute |].
  split; [by vm_compute |].
  split; [exact framePayload_roundtrip |].
  intros block1 block2 Hq.
  rewrite !createBlob_framePayload. unfold framePayload. by rewrite Hq.
Qed.

(** A negative sample whose product, -9830.4, is no integer: its integer
    part is the [t] with [|t| <= 9830.4 < |t| + 1], and a sample next to it
    gives the same frame. *)
Lemma createBlob_pcm16_base64_witness :
  (exists t,
     (Z.abs t * 2 ^ 39 <= 5404319767592960 < (Z.abs t + 1) * 2 ^ 39
      /\ 0 <= t * -5404319767592960)
     /\ quantize (-0x99999Ap-25) = t)
  /\ createBlob [-0x99999Ap-25]%float = createBlob [-0x99999Bp-25]%float.
Proof.
  destruct createBlob_pcm16_base64 as (_ & Hq & _ & _ & _ & _ & _ & Hsame).
  split.
  - destruct (Hq (-0x99999Ap-25)%float) as (Hrange & Hpart & _).
    destruct (Hpart (-5404319767592960) (2 ^ 39) eq_refl)
      as (t & Htowards & _ & Hin).
    exists t. split; [exact Htowards |].
    apply Hin. cbn in Htowards. lia.
  - apply Hsame. reflexivity.
Defined.

(** ** Strings *)

Section TrimFacts.

Lemma blank_Forall s : blank s = true <-> Forall (fun c => isWhiteSpace c = true) s.
Proof.
  unfold blank. induction s as [|c s IH]; cbn.
  - split; [constructor | done].
  - rewrite andb_true_iff, Forall_cons, IH. done.
Qed.

Lemma blank_app s t : blank (s ++ t) = blank s && blank t.
Proof. unfold blank. apply forallb_app. Qed.

Lemma blank_reverse s : blank (reverse s) = blank s.
Proof.
  apply eq_true_iff_eq. rewrite !blank_Forall.
  split; intros H; [rewrite <- (reverse_involutive s) |];
    by apply Forall_reverse.
Qed.

Lemma trimStart_nil s : trimStart s = [] <-> blank s = true.
Proof.
  induction s as [|c s IH]; cbn; [done|].
  destruct (isWhiteSpace c); cbn; [exact IH | done].
Qed.

Lemma blank_trimStart s : blank (trimStart s) = blank s.
Proof.
  induction s as [|c s IH]; cbn; [done|].
  destruct (isWhiteSpace c) eqn:Hc; cbn; [exact IH | by rewrite Hc].
Qed.

Lemma trim_nil s : trim s = [] <-> blank s = true.
Proof.
  unfold trim, trimEnd.
  rewrite <- (blank_trimStart s), <- (blank_reverse (trimStart s)).
  rewrite <- trimStart_nil.
  split; intros H; [| by rewrite H].
  apply (f_equal reverse) in H. by rewrite reverse_involutive in H.
Qed.

(** The test [if (s.trim())] of the source. *)
Lemma truthy_trim s : truthy (trim s) = negb (blank s).
Proof.
  destruct (blank s) eqn:Hb; cbn.
  - apply trim_nil in Hb. by rewrite Hb.
  - destruct (trim s) eqn:Ht; [| done].
    apply trim_nil in Ht. congruence.
Qed.

Lemma truthy_nonempty s : truthy s = true <-> s <> [].
Proof. by destruct s. Qed.

End TrimFacts.

(** ** Reasoning about computations *)

Section Effects.

Context {A B X : Type} (p : World -> X).

Lemma preserves_ret (a : A) : preserves p (mret a).
Proof. by intros w. Qed.

Lemma preserves_throw (e : Exn) : preserves p (throw e : M A).
Proof. by intros w. Qed.

Lemma preserves_read (f : World -> A) : preserves p (read f).
Proof. by intros w. Qed.

Lemma preserves_modify (f : World -> World) :
  (forall w, p (f w) = p w) -> preserves p (modify f).
Proof. intros H w. apply H. Qed.

Lemma preserves_bind (m : M A) (f : A -> M B) :
  preserves p m -> (forall a, preserves p (f a)) -> preserves p (m ≫= f).
Proof.
  intros Hm Hf w. unfold mbind, M_bind.
  specialize (Hm w). destruct (m w) as [a w'|e w']; cbn in *.
  - by rewrite Hf.
  - done.
Qed.

Lemma preserves_tryCatch (m : M A) (h : Exn -> M A) :
  preserves p m -> (forall e, preserves p (h e)) -> preserves p (tryCatch m h).
Proof.
  intros Hm Hh w. unfold tryCatch.
  specialize (Hm w). destruct (m w) as [a w'|e w']; cbn in *.
  - done.
  - by rewrite Hh.
Qed.

End Effects.

Lemma preserves_forEach {A X} (p : World -> X) (l : list A) (f : A -> M unit) :
  (forall a, preserves p (f a)) -> preserves p (forEach l f).
Proof.
  intros Hf. induction l as [|a l IH]; cbn.
  - apply preserves_ret.
  - apply preserves_bind; [apply Hf | intros _; exact IH].
Qed.

Lemma neverThrows_ret {A} (a : A) : neverThrows (mret a).
Proof. by intros w. Qed.

Lemma neverThrows_read {A} (f : World -> A) : neverThrows (read f).
Proof. by intros w. Qed.

Lemma neverThrows_modify (f : World -> World) : neverThrows (modify f).
Proof. by intros w. Qed.

Lemma neverThrows_bind {A B} (m : M A) (f : A -> M B) :
  neverThrows m -> (forall a, neverThrows (f a)) -> neverThrows (m ≫= f).
Proof.
  intros Hm Hf w. unfold mbind, M_bind.
  specialize (Hm w). destruct (m w) as [a w'|e w']; cbn in *; [apply Hf | done].
Qed.

(** A [try] whose handler does not throw lets nothing out, whatever its
    body does. *)
Lemma neverThrows_tryCatch {A} (m : M A) (h : Exn -> M A) :
  (forall e, neverThrows (h e)) -> neverThrows (tryCatch m h).
Proof.
  intros Hh w. unfold tryCatch.
  destruct (m w) as [a w'|e w']; cbn; [done | apply Hh].
Qed.

Lemma neverThrows_forEach {A} (l : list A) (f : A -> M unit) :
  (forall a, neverThrows (f a)) -> neverThrows (forEach l f).
Proof.
  intros Hf. induction l as [|a l IH]; cbn.
  - apply neverThrows_ret.
  - apply neverThrows_bind; [apply Hf | intros _; exact IH].
Qed.

(** One step of a frame proof: split the computation, or settle a leaf. *)
Ltac frame_step :=
  lazymatch goal with
  | |- preserves _ (_ ≫= _) => apply preserves_bind; [| intros ?]
  | |- preserves _ (tryCatch _ _) => apply preserves_tryCatch; [| intros ?]
  | |- preserves _ (forEach _ _) => apply preserves_forEach; intros ?
  | |- preserves _ (mret _) => apply preserves_ret
  | |- preserves _ (throw _) => apply preserves_throw
  | |- preserves _ (read _) => apply preserves_read
  | |- preserves _ (match ?x with _ => _ end) => destruct x
  | |- preserves _ (setStreamRef ?r _) => destruct r; cbn [setStreamRef]
  | |- preserves _ _ =>
      intros [? ? [? ? ? ?]];
      unfold sessionClose, newStream, newAudioContext, newSession,
        getAudioTracks;
      cbn; repeat case_match; done
  end.

Ltac frame := repeat frame_step.

Ltac total_step :=
  lazymatch goal with
  | |- neverThrows (_ ≫= _) => apply neverThrows_bind; [| intros ?]
  | |- neverThrows (tryCatch _ _) => apply neverThrows_tryCatch; intros ?
  | |- neverThrows (forEach _ _) => apply neverThrows_forEach; intros ?
  | |- neverThrows (mret _) => apply neverThrows_ret
  | |- neverThrows (read _) => apply neverThrows_read
  | |- neverThrows (match ?x with _ => _ end) => destruct x
  | |- neverThrows (setStreamRef ?r _) => destruct r; cbn [setStreamRef]
  | |- neverThrows _ =>
      intros [? ? [? ? ? ?]];
      unfold newStream, newAudioContext, newSession, getAudioTracks;
      cbn; done
  end.

Ltac total := repeat total_step.

Lemma stopSession_neverThrows : neverThrows stopSession.
Proof. unfold stopSession. total. Qed.

Lemma onmessage_neverThrows fresh msg : neverThrows (onmessage fresh msg).
Proof. unfold onmessage, appendDelta, commitTurn. total. Qed.

(** Running a computation on a world that is written out. *)
Ltac run_m :=
  repeat (progress (
    unfold mbind, M_bind, mret, M_ret, throw, tryCatch, read, modify,
      setStatus, setMessages, setSuggestions, setKnowledgeBase,
      setStreamingInput, setStreamingOutput, setSessionRef,
      setAudioContextRef, setMicStreamRef, setSystemStreamRef,
      setCurrentInputTranscription, setCurrentOutputTranscription,
      setStreamRef, streamRefCurrent, setTrackStore, setSessionStore,
      setContextStore, consoleError, audioContextClose,
      updReact, updRefs, updBrowser;
    cbn -[lit trim blank prependCapped trackStop stopTracks])).

Lemma forEach_trackStop (l : list nat) (w : World) :
  forEach l trackStop w
  = Ok tt
      {| react := react w; refs := refs w;
         browser :=
           {| trackStore := stopTracks l (trackStore (browser w));
              sessionStore := sessionStore (browser w);
              contextStore := contextStore (browser w);
              console := console (browser w) |} |}.
Proof.
  revert w. induction l as [|i l IH]; intros [re rf [ts ss cs co]]; cbn.
  - done.
  - unfold mbind, M_bind. cbn. rewrite IH. done.
Qed.

(** [stopSession] returns, and leaves the world [afterStop] describes. *)
Lemma stopSession_afterStop (w : World) : stopSession w = Ok tt (afterStop w).
Proof.
  destruct w as [re [s a m sy ci co] [ts ss cs cn]].
  unfold stopSession, afterStop, sessionClose.
  destruct s as [s|]; run_m.
  - destruct (ss !! s) as [[[e|] cl]|] eqn:Hs; run_m.
    all: destruct m as [m|], sy as [sy|], a as [a|]; run_m.
    all: rewrite ?forEach_trackStop; run_m.
    all: rewrite ?forEach_trackStop; run_m.
    all: rewrite ?Hs, ?app_nil_r; try done.
  - destruct m as [m|], sy as [sy|], a as [a|]; run_m.
    all: rewrite ?forEach_trackStop; run_m.
    all: rewrite ?forEach_trackStop; run_m.
    all: rewrite ?app_nil_r; try done.
Qed.

(** ** Track stores *)

Section Tracks.

Lemma stopTracks_cons i l ts :
  stopTracks (i :: l) ts = stopTracks l (alter stopped i ts).
Proof. done. Qed.

Lemma stopTracks_length l ts : length (stopTracks l ts) = length ts.
Proof.
  revert ts. induction l as [|i l IH]; intros ts; [done|].
  by rewrite stopTracks_cons, IH, length_alter.
Qed.

Lemma stopped_idemp t : stopped (stopped t) = stopped t.
Proof. done. Qed.

(** A track of the list is stopped, the others are as they were. *)
Lemma stopTracks_lookup l ts i :
  stopTracks l ts !! i
  = (if decide (i ∈ l) then stopped else id) <$> ts !! i.
Proof.
  revert ts. induction l as [|j l IH]; intros ts.
  - cbn. by destruct (ts !! i).
  - rewrite stopTracks_cons, IH.
    destruct (decide (i = j)) as [->|Hij].
    + rewrite list_lookup_alter_eq.
      rewrite (decide_True (P := j ∈ j :: l)) by apply list_elem_of_here.
      destruct (ts !! j) as [t|]; [|done]. cbn.
      by destruct (decide (j ∈ l)).
    + rewrite list_lookup_alter_ne by done.
      destruct (decide (i ∈ l)) as [Hin|Hin].
      * by rewrite decide_True by (by apply list_elem_of_further).
      * rewrite decide_False; [done|].
        intros [?|?]%elem_of_cons; done.
Qed.

Lemma stopTracks_ended l ts i t :
  ts !! i = Some t ->
  i ∈ l \/ readyState t = ended ->
  readyState <$> stopTracks l ts !! i = Some ended.
Proof.
  intros Hi H. rewrite stopTracks_lookup, Hi. cbn.
  destruct (decide (i ∈ l)); [done|].
  destruct H; [done|]. cbn. by f_equal.
Qed.

Lemma stopTracks_kind l ts i :
  kind <$> stopTracks l ts !! i = kind <$> ts !! i.
Proof.
  rewrite stopTracks_lookup. destruct (ts !! i); [|done]. cbn.
  by destruct (decide (i ∈ l)).
Qed.

Lemma stopTracks_nil ts : stopTracks [] ts = ts.
Proof. done. Qed.

(** Stopping the tracks of a stream that was just handed out. *)
Lemma stopTracks_new ts (new : list MediaStreamTrack) :
  stopTracks (seq (length ts) (length new)) (ts ++ new)
  = ts ++ (stopped <$> new).
Proof.
  apply list_eq. intros i. rewrite stopTracks_lookup.
  destruct (decide (i < length ts)%nat) as [Hlt|Hge].
  - rewrite !lookup_app_l by done.
    rewrite decide_False; [by destruct (ts !! i)|].
    rewrite elem_of_seq. lia.
  - rewrite !lookup_app_r by lia. rewrite list_lookup_fmap.
    destruct (new !! (i - length ts)%nat) as [t|] eqn:Ht; [|done].
    apply lookup_lt_Some in Ht as Hlen.
    rewrite decide_True; [done|].
    rewrite elem_of_seq. lia.
Qed.

End Tracks.

(** ** The turn accumulator *)

Section Accumulator.

Lemma appendDelta_returns msg w :
  appendDelta msg w = Ok tt (worldOf (appendDelta msg w)).
Proof.
  destruct msg as [[[[to|] [ti|] tc]|]], w as [re rf br];
    unfold appendDelta; run_m; done.
Qed.

Lemma appendDelta_buffer d msg w :
  buffer d (worldOf (appendDelta msg w)) = buffer d w ++ deltaOf d msg.
Proof.
  destruct msg as [[[[to|] [ti|] tc]|]], w as [re rf br], d;
    unfold appendDelta, buffer, deltaOf; run_m;
    by rewrite ?app_nil_r.
Qed.

(** After a delta of a direction was processed, its live value shows the
    buffer. *)
Lemma appendDelta_streaming d msg w :
  streaming d (worldOf (appendDelta msg w))
  = match d, serverContent msg ≫= outputTranscription,
          serverContent msg ≫= inputTranscription with
    | Output, Some t, _ => buffer Output w ++ text t
    | Input, None, Some t => buffer Input w ++ text t
    | _, _, _ => streaming d w
    end.
Proof.
  destruct msg as [[[[to|] [ti|] tc]|]], w as [re rf br], d;
    unfold appendDelta, buffer, streaming; run_m; done.
Qed.

Lemma appendDelta_messages msg :
  preserves (fun w => messages (react w)) (appendDelta msg).
Proof. unfold appendDelta. frame. Qed.

Lemma appendDelta_suggestions msg :
  preserves (fun w => suggestions (react w)) (appendDelta msg).
Proof. unfold appendDelta. frame. Qed.

Lemma commitTurn_returns fresh w :
  commitTurn fresh w = Ok tt (worldOf (commitTurn fresh w)).
Proof.
  destruct w as [re [s a m sy ci co] br]. unfold commitTurn. run_m.
  destruct (truthy (trim ci)), (truthy (trim co)); run_m; done.
Qed.

Lemma commitTurn_messages fresh w :
  messages (react (worldOf (commitTurn fresh w)))
  = messages (react w)
    ++ (if blank (buffer Input w) then []
        else [messageOf Input fresh (buffer Input w)])
    ++ (if blank (buffer Output w) then []
        else [messageOf Output fresh (buffer Output w)]).
Proof.
  destruct w as [re [s a m sy ci co] br]. unfold commitTurn. run_m.
  rewrite !truthy_trim.
  destruct (blank ci), (blank co); run_m;
    by rewrite ?app_nil_r, <- ?app_assoc.
Qed.

Lemma commitTurn_suggestions fresh w :
  suggestions (react (worldOf (commitTurn fresh w)))
  = if blank (buffer Output w) then suggestions (react w)
    else prependCapped (suggestionOf fresh (buffer Output w))
                       (suggestions (react w)).
Proof.
  destruct w as [re [s a m sy ci co] br]. unfold commitTurn. run_m.
  rewrite !truthy_trim.
  destruct (blank ci), (blank co); run_m; done.
Qed.

Lemma commitTurn_resets fresh w d :
  buffer d (worldOf (commitTurn fresh w)) = []
  /\ streaming d (worldOf (commitTurn fresh w)) = [].
Proof.
  destruct w as [re [s a m sy ci co] br], d. all: unfold commitTurn; run_m.
  all: destruct (truthy (trim ci)), (truthy (trim co)); run_m; done.
Qed.

(** [onmessage] is the delta branches, then the commit when the event
    carries the turn-complete marker. *)
Lemma onmessage_world fresh msg w :
  onmessage fresh msg w
  = Ok tt (if isTurnComplete msg
           then worldOf (commitTurn fresh (worldOf (appendDelta msg w)))
           else worldOf (appendDelta msg w)).
Proof.
  unfold onmessage, mbind, M_bind.
  rewrite appendDelta_returns.
  destruct (isTurnComplete msg); [apply commitTurn_returns | done].
Qed.

Lemma step_received fresh msg w :
  step w (MessageReceived fresh msg)
  = if isTurnComplete msg
    then worldOf (commitTurn fresh (worldOf (appendDelta msg w)))
    else worldOf (appendDelta msg w).
Proof. unfold step. cbn [handler]. by rewrite onmessage_world. Qed.

End Accumulator.

(** ** Runs of events *)

Section Runs.

Lemma run_app evs1 evs2 w : run (evs1 ++ evs2) w = run evs2 (run evs1 w).
Proof. apply foldl_app. Qed.

Lemma run_cons ev evs w : run (ev :: evs) w = run evs (step w ev).
Proof. done. Qed.

Lemma received_cons fresh msg ms :
  received ((fresh, msg) :: ms) = MessageReceived fresh msg :: received ms.
Proof. done. Qed.

Lemma run_snoc evs ev w : run (evs ++ [ev]) w = step (run evs w) ev.
Proof. by rewrite run_app. Qed.

Lemma reachable_initial : reachable initial.
Proof. by exists []. Qed.

Lemma reachable_step w ev : reachable w -> reachable (step w ev).
Proof. intros [evs ->]. exists (evs ++ [ev]). by rewrite run_snoc. Qed.

(** Induction over the reachable worlds. *)
Lemma reachable_ind (P : World -> Prop) :
  P initial ->
  (forall w ev, reachable w -> P w -> P (step w ev)) ->
  forall w, reachable w -> P w.
Proof.
  intros H0 Hstep w [evs ->].
  induction evs as [|ev evs IH] using rev_ind; [exact H0|].
  rewrite run_snoc. apply Hstep; [by exists evs | exact IH].
Qed.

(** What is not a received message leaves an observation alone, when the
    controller's computations do. *)
Lemma step_frame {X} (p : World -> X) ev w :
  (forall env, preserves p (startSession env)) ->
  preserves p stopSession ->
  (forall v, preserves p (setKnowledgeBase v)) ->
  preserves p onopen ->
  (forall e, preserves p (onerror e)) ->
  (forall fresh msg, ev <> MessageReceived fresh msg) ->
  p (step w ev) = p w.
Proof.
  intros Hstart Hstop Hkb Hopen Herr Hev. unfold step.
  destruct ev; cbn [handler]; try done.
  all: by (apply Hstart || apply Hstop || apply Hkb || apply Hopen
           || apply Herr || (exfalso; eapply Hev; reflexivity)).
Qed.

Lemma controller_keeps_messages ev w :
  (forall fresh msg, ev <> MessageReceived fresh msg) ->
  messages (react (step w ev)) = messages (react w).
Proof.
  apply (step_frame (fun w => messages (react w))); intros;
    unfold startSession, getMicrophone, getSystemAudio, onerror, onopen,
      stopSession; frame.
Qed.

Lemma controller_keeps_suggestions ev w :
  (forall fresh msg, ev <> MessageReceived fresh msg) ->
  suggestions (react (step w ev)) = suggestions (react w).
Proof.
  apply (step_frame (fun w => suggestions (react w))); intros;
    unfold startSession, getMicrophone, getSystemAudio, onerror, onopen,
      stopSession; frame.
Qed.

Lemma controller_keeps_buffers ev w d :
  (forall fresh msg, ev <> MessageReceived fresh msg) ->
  buffer d (step w ev) = buffer d w.
Proof.
  apply (step_frame (buffer d)); intros;
    unfold startSession, getMicrophone, getSystemAudio, onerror, onopen,
      stopSession; frame.
Qed.

(** The events of a turn before its end: each adds its delta to the
    buffers, and nothing is committed. *)
Lemma run_deltas (ms : list (Fresh * LiveServerMessage)) w :
  Forall (fun fm => isTurnComplete fm.2 = false) ms ->
  (forall d, buffer d (run (received ms) w)
             = buffer d w ++ concat ((fun fm => deltaOf d fm.2) <$> ms))
  /\ messages (react (run (received ms) w)) = messages (react w)
  /\ suggestions (react (run (received ms) w)) = suggestions (react w).
Proof.
  intros Hms. revert w.
  induction Hms as [|[fresh msg] ms Hm _ IH]; intros w.
  - cbn. split; [intros d; by rewrite app_nil_r | done].
  - rewrite received_cons, run_cons, step_received.
    cbn [snd] in Hm. rewrite Hm.
    destruct (IH (worldOf (appendDelta msg w))) as (Hb & Hmsg & Hsug).
    split; [| split].
    + intros d.
      rewrite Hb, appendDelta_buffer, fmap_cons. cbn [concat snd].
      by rewrite app_assoc.
    + rewrite Hmsg. apply appendDelta_messages.
    + rewrite Hsug. apply appendDelta_suggestions.
Qed.

End Runs.

(** ** The claims about the turn accumulator *)

Lemma messagesOf_app d w (l : list Message.t) w' :
  messages (react w') = messages (react w) ++ l ->
  messagesOf d w' = messagesOf d w ++ filter (fun m => Message.role m = roleOf d) l.
Proof. unfold messagesOf. intros ->. apply filter_app. Qed.

Lemma deltaOf_deltaMessage d d' t :
  deltaOf d (deltaMessage d' t) = if decide (d = d') then t else [].
Proof. by destruct d, d'. Qed.

Lemma concat_deltas_same d (deltas : list (Fresh * jsstring)) :
  concat ((fun fm : Fresh * LiveServerMessage => deltaOf d fm.2)
            <$> ((fun ft : Fresh * jsstring => (ft.1, deltaMessage d ft.2)) <$> deltas))
  = concat (snd <$> deltas).
Proof.
  induction deltas as [|[f t] l IH]; [done|].
  rewrite !fmap_cons. cbn [concat fst snd].
  rewrite IH, deltaOf_deltaMessage. by rewrite decide_True.
Qed.

Lemma concat_deltas_other d d' (deltas : list (Fresh * jsstring)) :
  d <> d' ->
  concat ((fun fm : Fresh * LiveServerMessage => deltaOf d fm.2)
            <$> ((fun ft : Fresh * jsstring => (ft.1, deltaMessage d' ft.2)) <$> deltas))
  = [].
Proof.
  intros Hd. induction deltas as [|[f t] l IH]; [done|].
  rewrite !fmap_cons. cbn [concat fst snd].
  rewrite IH, deltaOf_deltaMessage. by rewrite decide_False.
Qed.

Lemma deltas_not_turnComplete d (deltas : list (Fresh * jsstring)) :
  Forall (fun fm : Fresh * LiveServerMessage => isTurnComplete fm.2 = false)
         ((fun ft : Fresh * jsstring => (ft.1, deltaMessage d ft.2)) <$> deltas).
Proof. apply Forall_fmap, Forall_forall. intros [f t] _. by destruct d. Qed.

(** The end of a turn: what the history gains. *)
Lemma run_turn (ms : list (Fresh * LiveServerMessage)) fresh final w :
  Forall (fun fm => isTurnComplete fm.2 = false) ms ->
  isTurnComplete final = true ->
  let total d :=
    buffer d w ++ concat ((fun fm => deltaOf d fm.2) <$> ms) ++ deltaOf d final in
  messages (react (run (received ms ++ [MessageReceived fresh final]) w))
  = messages (react w)
    ++ (if blank (total Input) then []
        else [messageOf Input fresh (total Input)])
    ++ (if blank (total Output) then []
        else [messageOf Output fresh (total Output)]).
Proof.
  intros Hms Hfinal total.
  destruct (run_deltas ms w Hms) as (Hb & Hmsg & _).
  rewrite run_snoc, step_received, Hfinal, commitTurn_messages.
  rewrite !appendDelta_buffer, appendDelta_messages, Hmsg, !Hb.
  unfold total. by rewrite <- !app_assoc.
Qed.





(** C7: at a turn-complete event where both buffers are non-blank, the
    user Message (from the input buffer) is appended to the history before
    the assistant Message (from the output buffer), whatever the order in
    which the deltas of the two directions arrived during the turn. *)
Theorem user_message_before_assistant_message
    (ms : list (Fresh * LiveServerMessage)) (fresh : Fresh)
    (final : LiveServerMessage) (w : World) :
  Forall (fun fm => isTurnComplete fm.2 = false) ms ->
  isTurnComplete final = true ->
  let total d :=
    buffer d w ++ concat ((fun fm => deltaOf d fm.2) <$> ms) ++ deltaOf d final in
  blank (total Input) = false ->
  blank (total Output) = false ->
  messages (react (run (received ms ++ [MessageReceived fresh final]) w))
  = messages (react w)
    ++ [messageOf Input fresh (total Input);
        messageOf Output fresh (total Output)].
Proof.
  intros Hms Hfinal total HI HO. subst total. cbv beta in *.
  rewrite (run_turn ms fresh final w Hms Hfinal). cbv zeta beta.
  by rewrite HI, HO.
Qed.

(** The output delta arrives first, and the user Message still comes
    first. *)
Lemma user_message_before_assistant_message_witness :
  messages (react
    (run (received [(fresh0, deltaMessage Output (lit "The answer "));
                    (fresh0, deltaMessage Input (lit "What is 2+2?"));
                    (fresh0, deltaMessage Output (lit "is 4."))]
          ++ [MessageReceived fresh0 turnCompleteMessage]) initial))
  = [messageOf Input fresh0 (lit "What is 2+2?");
     messageOf Output fresh0 (lit "The answer is 4.")].
Proof.
  apply (user_message_before_assistant_message
           [(fresh0, deltaMessage Output (lit "The answer "));
            (fresh0, deltaMessage Input (lit "What is 2+2?"));
            (fresh0, deltaMessage Output (lit "is 4."))]
           fresh0 turnCompleteMessage initial).
  - repeat constructor.
  - reflexivity.
  - reflexivity.
  - reflexivity.
Defined.

(** C2: a turn-complete event that finds both buffers empty or made of
    white space only (the buffers as the commit reads them, that is with
    the delta the event itself carries, if any, appended) commits no
    Message and no Suggestion, and leaves both buffers and both live
    values empty. *)
Theorem blank_turn_commits_nothing
    (fresh : Fresh) (msg : LiveServerMessage) (w : World) :
  isTurnComplete msg = true ->
  blank (buffer Input w ++ deltaOf Input msg) = true ->
  blank (buffer Output w ++ deltaOf Output msg) = true ->
  exists w',
    onmessage fresh msg w = Ok tt w'
    /\ messages (react w') = messages (react w)
    /\ suggestions (react w') = suggestions (react w)
    /\ buffer Input w' = [] /\ buffer Output w' = []
    /\ streaming Input w' = [] /\ streaming Output w' = [].
Proof.
  intros Htc HI HO. eexists. split.
  { rewrite onmessage_world, Htc. reflexivity. }
  rewrite commitTurn_messages, commitTurn_suggestions.
  rewrite !appendDelta_buffer, HI, HO.
  rewrite appendDelta_messages, appendDelta_suggestions, app_nil_r.
  repeat split; apply commitTurn_resets.
Qed.

(** White space only on the input side, nothing on the output side. *)
Lemma blank_turn_commits_nothing_witness :
  let w := run [MessageReceived fresh0 (deltaMessage Input (lit "  "))] initial in
  exists w',
    onmessage fresh0 turnCompleteMessage w = Ok tt w'
    /\ messages (react w') = messages (react w)
    /\ suggestions (react w') = suggestions (react w)
    /\ buffer Input w' = [] /\ buffer Output w' = []
    /\ streaming Input w' = [] /\ streaming Output w' = [].
Proof.
  apply (blank_turn_commits_nothing fresh0 turnCompleteMessage); reflexivity.
Defined.

(** C2, read with the buffers as they are when the event arrives, fails:
    an event that carries the output delta ["Hi"] together with the
    turn-complete marker finds both buffers empty, and commits a Message
    and a Suggestion with the text ["Hi"]. *)
Lemma empty_buffers_on_arrival_still_commit :
  let msg :=
    {| serverContent := Some
         {| outputTranscription := Some {| text := lit "Hi" |};
            inputTranscription := None;
            turnComplete := true |} |} in
  let w' := worldOf (onmessage fresh0 msg initial) in
  isTurnComplete msg = true
  /\ buffer Input initial = [] /\ buffer Output initial = []
  /\ messages (react w') = [messageOf Output fresh0 (lit "Hi")]
  /\ suggestions (react w') = [suggestionOf fresh0 (lit "Hi")]
  /\ messages (react w') <> messages (react initial)
  /\ suggestions (react w') <> suggestions (react initial).
Proof. by vm_compute. Qed.

(** C6: an event that carries both an input delta and an output delta has
    only its output delta processed: it is appended to the output buffer,
    which is republished, and the input buffer and its live value stay as
    they were. The rest of [onmessage] then runs on that world. *)
Theorem output_delta_takes_precedence
    (fresh : Fresh) (out inp : jsstring) (complete : bool) (w : World) :
  let msg :=
    {| serverContent := Some
         {| outputTranscription := Some {| text := out |};
            inputTranscription := Some {| text := inp |};
            turnComplete := complete |} |} in
  let w1 := worldOf (appendDelta msg w) in
  buffer Output w1 = buffer Output w ++ out
  /\ streaming Output w1 = buffer Output w ++ out
  /\ buffer Input w1 = buffer Input w
  /\ streaming Input w1 = streaming Input w
  /\ onmessage fresh msg w
     = Ok tt (if complete then worldOf (commitTurn fresh w1) else w1).
Proof.
  intros msg w1. subst w1.
  rewrite !appendDelta_buffer, !appendDelta_streaming, onmessage_world.
  cbn. by rewrite app_nil_r.
Qed.

Lemma prependCapped_length new old :
  length (prependCapped new old) = (S (length old) `min` 15)%nat.
Proof. unfold prependCapped. rewrite length_take. cbn [length]. lia. Qed.

Lemma prependCapped_head new old :
  head (prependCapped new old) = Some new.
Proof. done. Qed.

(** C4: a turn-complete event whose output buffer is not blank creates
    exactly one Suggestion, at the head of the list, with title "AI
    Insight", confidence 0.99 and the text of the assistant Message
    committed by the same event as content; a received event that is not
    such a turn end creates none (so a turn with user text only creates
    none), and neither does any other event. *)
Theorem suggestion_per_assistant_message :
  (forall fresh msg w,
     let out := buffer Output w ++ deltaOf Output msg in
     let w' := step w (MessageReceived fresh msg) in
     (isTurnComplete msg = true -> blank out = false ->
      suggestions (react w')
      = take 15 (suggestionOf fresh out :: suggestions (react w))
      /\ head (suggestions (react w')) = Some (suggestionOf fresh out)
      /\ last (messages (react w')) = Some (messageOf Output fresh out)
      /\ Suggestion.content (suggestionOf fresh out)
         = Message.text (messageOf Output fresh out)
      /\ Suggestion.title (suggestionOf fresh out) = lit "AI Insight"
      /\ Suggestion.confidence (suggestionOf fresh out) = 0.99%float)
     /\ (isTurnComplete msg = false \/ blank out = true ->
         suggestions (react w') = suggestions (react w)))
  /\ (forall ev w,
        (forall fresh msg, ev <> MessageReceived fresh msg) ->
        suggestions (react (step w ev)) = suggestions (react w)).
Proof.
  split; [| exact controller_keeps_suggestions].
  intros fresh msg w out w'. subst out w'.
  rewrite step_received. split.
  - intros -> Hout.
    rewrite commitTurn_suggestions, commitTurn_messages.
    rewrite !appendDelta_buffer, Hout, appendDelta_suggestions.
    repeat split.
    by rewrite app_assoc, last_snoc.
  - intros [-> | Hout].
    + apply appendDelta_suggestions.
    + destruct (isTurnComplete msg); [| apply appendDelta_suggestions].
      rewrite commitTurn_suggestions, appendDelta_buffer, Hout.
      apply appendDelta_suggestions.
Qed.

(** The two scenarios of the specification: an assistant answer gives one
    Suggestion, a user-only turn gives none. *)
Lemma suggestion_per_assistant_message_witness :
  let answer :=
    {| serverContent := Some
         {| outputTranscription := Some {| text := lit "The answer is 4." |};
            inputTranscription := None;
            turnComplete := true |} |} in
  let asked :=
    step initial (MessageReceived fresh0 (deltaMessage Input (lit "What is 2+2?"))) in
  suggestions (react (step initial (MessageReceived fresh0 answer)))
  = [suggestionOf fresh0 (lit "The answer is 4.")]
  /\ suggestions (react (step asked (MessageReceived fresh0 turnCompleteMessage)))
     = [].
Proof.
  intros answer asked.
  pose proof (proj1 suggestion_per_assistant_message) as H.
  split.
  - apply (proj1 (H fresh0 answer initial)); reflexivity.
  - apply (proj2 (H fresh0 turnCompleteMessage asked)). right. reflexivity.
Defined.

Lemma suggestions_bounded w :
  reachable w -> (length (suggestions (react w)) <= 15)%nat.
Proof.
  revert w. apply reachable_ind; [cbn; lia|].
  intros w ev _ IH.
  destruct ev as [env| |v| |fresh msg|e|];
    try (rewrite controller_keeps_suggestions by (intros; discriminate);
         exact IH).
  rewrite step_received.
  destruct (isTurnComplete msg); [| by rewrite appendDelta_suggestions].
  rewrite commitTurn_suggestions, appendDelta_suggestions.
  destruct (blank _); [exact IH |].
  rewrite prependCapped_length. lia.
Qed.

Lemma prependCapped_full new old :
  length old = 15%nat ->
  prependCapped new old = new :: take 14 old.
Proof. done. Qed.

Lemma prependCapped_drops_last new kept oldest :
  length (kept ++ [oldest]) = 15%nat ->
  prependCapped new (kept ++ [oldest]) = new :: kept.
Proof.
  intros Hlen. rewrite length_app in Hlen. cbn in Hlen.
  rewrite prependCapped_full by (rewrite length_app; cbn; lia).
  f_equal. rewrite take_app_le by lia. apply firstn_all2. lia.
Qed.

(** C3: the Suggestion list of a reachable world never has more than 15
    entries; inserting into a list that holds 15 gives a list of 15 with
    the new entry at the head followed by the first 14 old entries in
    their order, and the oldest entry (the last one) is gone: so it is for
    the insertion a turn end makes, and for the updater function on any
    list of 15 entries. *)
Theorem suggestions_capped_at_15 :
  (forall w, reachable w -> (length (suggestions (react w)) <= 15)%nat)
  /\ (forall fresh msg w,
        isTurnComplete msg = true ->
        blank (buffer Output w ++ deltaOf Output msg) = false ->
        length (suggestions (react w)) = 15%nat ->
        suggestions (react (step w (MessageReceived fresh msg)))
        = suggestionOf fresh (buffer Output w ++ deltaOf Output msg)
          :: take 14 (suggestions (react w)))
  /\ (forall new old,
        length old = 15%nat ->
        length (prependCapped new old) = 15%nat
        /\ head (prependCapped new old) = Some new
        /\ prependCapped new old = new :: take 14 old
        /\ (forall kept oldest,
              old = kept ++ [oldest] -> prependCapped new old = new :: kept)
        /\ (forall oldest,
              NoDup (new :: old) -> last old = Some oldest ->
              oldest ∉ prependCapped new old)).
Proof.
  split; [exact suggestions_bounded |].
  split.
  { intros fresh msg w Htc Hout Hlen.
    rewrite step_received, Htc, commitTurn_suggestions, appendDelta_buffer.
    rewrite Hout, appendDelta_suggestions.
    by apply prependCapped_full. }
  intros new old Hlen.
  split; [rewrite prependCapped_length; lia |].
  split; [done |].
  split; [by apply prependCapped_full |].
  split.
  - intros kept oldest ->. by apply prependCapped_drops_last.
  - intros oldest Hnd Hlast.
    apply last_Some in Hlast as [kept ->].
    rewrite prependCapped_drops_last by done.
    apply NoDup_cons in Hnd as [Hnew Hold].
    apply NoDup_app in Hold as (_ & Hdisj & _).
    intros [->|Hin]%elem_of_cons.
    + apply Hnew. apply elem_of_app. right. by apply list_elem_of_singleton.
    + apply (Hdisj _ Hin). by apply list_elem_of_singleton.
Qed.

Lemma suggestions_capped_witness :
  prependCapped sixteenthSuggestion fifteenSuggestions
  = sixteenthSuggestion :: take 14 fifteenSuggestions
  /\ (forall oldest, last fifteenSuggestions = Some oldest ->
        oldest ∉ prependCapped sixteenthSuggestion fifteenSuggestions).
Proof.
  pose proof (proj2 (proj2 suggestions_capped_at_15) sixteenthSuggestion
                fifteenSuggestions eq_refl) as (_ & _ & Heq & _ & Habsent).
  split; [exact Heq|].
  intros oldest. apply Habsent.
  apply (NoDup_fmap_1 Suggestion.timestamp).
  vm_compute. apply (bool_decide_unpack _). by vm_compute.
Defined.

(** Sixteen assistant turns: sixteen Messages, and the fifteen latest
    Suggestions, newest first; the first one, "A", is gone. *)
Example sixteen_turns_keep_fifteen :
  length (messages (react (run sixteenTurns initial))) = 16%nat
  /\ Suggestion.content <$> suggestions (react (run sixteenTurns initial))
     = (fun i => [65 + Z.of_nat i]) <$> reverse (seq 1 15).
Proof. by vm_compute. Qed.

(** The two scenarios of the specification, section 8. *)
Example scenario_user_only :
  let w := run [MessageReceived fresh0 (deltaMessage Input (lit "Wh"));
                MessageReceived fresh0 (deltaMessage Input (lit "at is 2+2?"));
                MessageReceived fresh0 turnCompleteMessage] initial in
  messages (react w) = [messageOf Input fresh0 (lit "What is 2+2?")]
  /\ suggestions (react w) = [].
Proof. by vm_compute. Qed.

Example scenario_assistant_only :
  let w := run (assistantTurn fresh0 (lit "The answer is 4.")) initial in
  messages (react w) = [messageOf Output fresh0 (lit "The answer is 4.")]
  /\ suggestions (react w) = [suggestionOf fresh0 (lit "The answer is 4.")].
Proof. by vm_compute. Qed.

(** ** The claims about the session controller *)

Lemma afterStop_idemp w : afterStop (afterStop w) = afterStop w.
Proof.
  destruct w as [re [s a m sy ci co] [ts ss cs cn]].
  unfold afterStop; cbn. by rewrite app_nil_r.
Qed.

Lemma afterStop_tracks w :
  allEnded (tracksOf (micStreamRef (refs w))
            ++ tracksOf (systemStreamRef (refs w))) (afterStop w).
Proof.
  intros i t Hin. cbn. rewrite !stopTracks_lookup.
  destruct (trackStore (browser w) !! i) as [t0|]; [|done]. cbn.
  intros [= <-].
  apply elem_of_app in Hin as [Hin|Hin].
  - rewrite (decide_True (P := i ∈ tracksOf (micStreamRef (refs w)))) by done.
    by destruct (decide (i ∈ tracksOf (systemStreamRef (refs w)))).
  - by rewrite (decide_True (P := i ∈ tracksOf (systemStreamRef (refs w)))).
Qed.

(** C8: [stopSession] is safe in every state and idempotent. Whatever the
    refs hold (nothing, some of the handles, all of them) and whether or
    not the session's [close()] throws, no exception escapes; the handles
    are cleared, every track of the streams that were held is stopped, the
    audio context that was held is closed, [isActive] and [isMicActive] are
    false and both live values are empty; an exception of [close()] is
    caught and printed; and a second call changes nothing. *)
Theorem stopSession_safe_and_idempotent (w : World) :
  exists w',
    stopSession w = Ok tt w'
    /\ (sessionRef (refs w') = None /\ audioContextRef (refs w') = None
        /\ micStreamRef (refs w') = None /\ systemStreamRef (refs w') = None)
    /\ (SessionStatus.isActive (status (react w')) = false
        /\ SessionStatus.isMicActive (status (react w')) = false
        /\ streamingInput (react w') = [] /\ streamingOutput (react w') = [])
    /\ allEnded (tracksOf (micStreamRef (refs w))
                 ++ tracksOf (systemStreamRef (refs w))) w'
    /\ (forall c, audioContextRef (refs w) = Some c ->
          (c < length (contextStore (browser w)))%nat ->
          contextStore (browser w') !! c = Some closed)
    /\ (forall s session e,
          sessionRef (refs w) = Some s ->
          sessionStore (browser w) !! s = Some session ->
          closeThrows session = Some e ->
          console (browser w')
          = console (browser w)
            ++ [lit "Error closing session:" ++ lit " " ++ message e])
    /\ stopSession w' = Ok tt w'.
Proof.
  exists (afterStop w).
  split; [apply stopSession_afterStop |].
  split; [done |]. split; [done |].
  split; [apply afterStop_tracks |].
  split; [| split].
  - intros c Hc Hlt. cbn. rewrite Hc. by apply list_lookup_insert_eq.
  - intros s [thr cl] e Hs Hstore Hthr. cbn in Hthr. subst thr.
    unfold afterStop, closeErrors; cbn [console browser].
    by rewrite Hs, Hstore.
  - by rewrite stopSession_afterStop, afterStop_idemp.
Qed.

Lemma stopSession_safe_and_idempotent_witness :
  exists w',
    stopSession throwingSession = Ok tt w'
    /\ console (browser w') = [lit "Error closing session: socket gone"]
    /\ contextStore (browser w') !! 0%nat = Some closed
    /\ stopSession w' = Ok tt w'.
Proof.
  destruct (stopSession_safe_and_idempotent throwingSession)
    as (w' & Hok & _ & _ & _ & Hctx & Hcon & Hidem).
  exists w'. split; [exact Hok|]. split; [| split; [| exact Hidem]].
  - by rewrite (Hcon 0%nat _ _ eq_refl eq_refl eq_refl).
  - apply Hctx; [reflexivity | by vm_compute].
Defined.

(** C10: [stopSession] leaves the Message history, the Suggestion list
    and [status.error] as they are (and also [isConnecting], the knowledge
    base and the two transcription buffers): of the component's state it
    resets [isActive], [isMicActive], the four handles and the two live
    values, and nothing else. That holds for the stop that [onclose] makes,
    and for the one [onerror] makes after it has set its own error text. *)
Theorem stopSession_keeps_history :
  (forall w,
     stopSession w = Ok tt (afterStop w)
     /\ messages (react (afterStop w)) = messages (react w)
     /\ suggestions (react (afterStop w)) = suggestions (react w)
     /\ SessionStatus.error (status (react (afterStop w)))
        = SessionStatus.error (status (react w))
     /\ SessionStatus.isConnecting (status (react (afterStop w)))
        = SessionStatus.isConnecting (status (react w))
     /\ knowledgeBase (react (afterStop w)) = knowledgeBase (react w)
     /\ buffer Input (afterStop w) = buffer Input w
     /\ buffer Output (afterStop w) = buffer Output w)
  /\ (forall w, onclose w = stopSession w)
  /\ (forall e w,
        exists w1,
          onerror e w = stopSession w1
          /\ messages (react w1) = messages (react w)
          /\ suggestions (react w1) = suggestions (react w)
          /\ SessionStatus.error (status (react w1))
             = Some (lit "Connection error. Please restart Guard.")).
Proof.
  split; [| split].
  - intros w. split; [apply stopSession_afterStop | done].
  - done.
  - intros e [re rf [ts ss cs cn]]. eexists. split.
    + unfold onerror. run_m. reflexivity.
    + done.
Qed.

(** A stream that was just handed out, with no audio among its kinds, has
    no audio track. *)
Lemma no_audio_tracks ts (kinds : list TrackKind) :
  audio ∉ kinds ->
  filter (fun i =>
            kind <$> (ts ++ ((fun k => {| kind := k; readyState := live |}) <$> kinds)) !! i
            = Some audio)
         (seq (length ts) (length kinds))
  = [].
Proof.
  intros Hno.
  destruct (filter _ _) as [|i l] eqn:Hf; [done|]. exfalso.
  assert (Hi : i ∈ filter (fun i =>
            kind <$> (ts ++ ((fun k => {| kind := k; readyState := live |}) <$> kinds)) !! i
            = Some audio) (seq (length ts) (length kinds)))
    by (rewrite Hf; apply list_elem_of_here).
  apply list_elem_of_filter in Hi as [Hk Hseq].
  apply elem_of_seq in Hseq.
  rewrite lookup_app_r, list_lookup_fmap in Hk by lia.
  destruct (kinds !! (i - length ts)%nat) as [k|] eqn:Hlook; [|done].
  cbn in Hk. injection Hk as ->.
  apply Hno. by eapply list_elem_of_lookup_2.
Qed.

Lemma newError_name msg : name (newError msg) <> lit "NotAllowedError".
Proof. by vm_compute. Qed.

(** Step 2 when the display stream has no audio track: the error is raised
    on a world in which every track of that stream is already stopped, and
    the stream went into no ref. *)
Lemma getSystemAudio_no_audio env (kinds : list TrackKind) w :
  getDisplayMedia env = inr kinds ->
  audio ∉ kinds ->
  getSystemAudio env w
  = Throw (newError audioNotShared)
      {| react := react w; refs := refs w;
         browser :=
           {| trackStore :=
                trackStore (browser w)
                ++ ((fun k => {| kind := k; readyState := ended |}) <$> kinds);
              sessionStore := sessionStore (browser w);
              contextStore := contextStore (browser w);
              console := console (browser w) |} |}.
Proof.
  intros Hdisplay Hno.
  destruct w as [re rf [ts ss cs cn]].
  unfold getSystemAudio, newStream, getAudioTracks. rewrite Hdisplay. run_m.
  rewrite no_audio_tracks by done. run_m.
  rewrite decide_True by done.
  rewrite forEach_trackStop. run_m.
  rewrite decide_False by (by vm_compute).
  rewrite <- (length_fmap (fun k => {| kind := k; readyState := live |}) kinds).
  rewrite stopTracks_new, <- list_fmap_compose.
  done.
Qed.

Lemma stopTracks_keeps_ended l ts i t :
  stopTracks l ts !! i = Some t ->
  (i ∈ l \/ exists t0, ts !! i = Some t0 /\ readyState t0 = ended) ->
  readyState t = ended.
Proof.
  rewrite stopTracks_lookup. intros Hlook H.
  destruct (ts !! i) as [t0|]; [|done]. cbn in Hlook. injection Hlook as <-.
  destruct (decide (i ∈ l)); [done|].
  destruct H as [?|(t1 & [= <-] & ?)]; done.
Qed.


(** [startSession] when the display stream has no audio track: the world
    on which the failure path runs [stopSession]. The microphone stream is
    in its ref, the display stream is in none, and the error text is set. *)
Lemma startSession_no_audio
    (env : StartEnv) (micKinds displayKinds : list TrackKind) (w : World) :
  mediaDevices env = true ->
  truthy (apiKey env) = true ->
  getUserMedia env = inr micKinds ->
  getDisplayMedia env = inr displayKinds ->
  audio ∉ displayKinds ->
  startSession env w
  = Ok tt (afterStop
      {| react :=
           {| status :=
                {| SessionStatus.isActive := false;
                   SessionStatus.isConnecting := false;
                   SessionStatus.isMicActive := false;
                   SessionStatus.error := Some audioNotShared |};
              messages := messages (react w);
              suggestions := suggestions (react w);
              knowledgeBase := knowledgeBase (react w);
              streamingInput := streamingInput (react w);
              streamingOutput := streamingOutput (react w) |};
         refs :=
           {| sessionRef := sessionRef (refs w);
              audioContextRef := audioContextRef (refs w);
              micStreamRef :=
                Some {| getTracks := seq (length (trackStore (browser w)))
                                         (length micKinds) |};
              systemStreamRef := systemStreamRef (refs w);
              currentInputTranscription := currentInputTranscription (refs w);
              currentOutputTranscription := currentOutputTranscription (refs w) |};
         browser :=
           {| trackStore :=
                (trackStore (browser w)
                 ++ ((fun k => {| kind := k; readyState := live |}) <$> micKinds))
                ++ ((fun k => {| kind := k; readyState := ended |}) <$> displayKinds);
              sessionStore := sessionStore (browser w);
              contextStore := contextStore (browser w);
              console :=
                console (browser w)
                ++ [lit "Startup Error:" ++ lit " " ++ audioNotShared] |} |}).
Proof.
  intros Hmedia Hkey Hmic Hdisplay Hno.
  destruct w as [re [s a m sy ci co] [ts ss cs cn]].
  unfold startSession. rewrite Hmedia, Hkey.
  unfold getMicrophone, newStream. rewrite Hmic. run_m.
  destruct (aistudio env) as [[|]|]; run_m;
    erewrite getSystemAudio_no_audio by done; run_m;
    by rewrite stopSession_afterStop.
Qed.



(** Never started: [stopSession] changes nothing. *)
Example stopSession_never_started : stopSession initial = Ok tt initial.
Proof. by rewrite stopSession_afterStop. Qed.

(** A session whose [close()] throws: the exception is caught and printed,
    and the tracks and the context are released all the same. *)
Example stopSession_close_throws :
  SessionStatus.isActive (status (react throwingSession)) = true
  /\ exists w',
       stopSession throwingSession = Ok tt w'
       /\ trackStore (browser w')
          = [{| kind := audio; readyState := ended |};
             {| kind := video; readyState := ended |};
             {| kind := audio; readyState := ended |}]
       /\ contextStore (browser w') = [closed]
       /\ console (browser w') = [lit "Error closing session: socket gone"]
       /\ refs w' = refs initial
       /\ SessionStatus.isActive (status (react w')) = false.
Proof. split; [by vm_compute|]. eexists. by vm_compute. Qed.

(** * More of the component *)

(** ** [startSession], path by path *)

Lemma some_audio_tracks ts (kinds : list TrackKind) :
  audio ∈ kinds ->
  length (filter (fun i =>
            kind <$> (ts ++ tracksIn live kinds) !! i = Some audio)
         (seq (length ts) (length kinds)))
  <> 0%nat.
Proof.
  intros Hin Hlen. apply length_zero_iff_nil in Hlen.
  apply list_elem_of_lookup in Hin as [j Hj].
  apply (filter_nil_not_elem_of _ _ (length ts + j)%nat) in Hlen.
  - apply Hlen, elem_of_seq. apply lookup_lt_Some in Hj. lia.
  - unfold tracksIn. rewrite lookup_app_r, list_lookup_fmap by lia.
    replace (length ts + j - length ts)%nat with j by lia.
    by rewrite Hj.
Qed.

(** The checks before the [try]: the error is set and nothing else is
    touched. *)
Lemma startSession_prechecks env w :
  mediaDevices env = false \/ truthy (apiKey env) = false ->
  exists msg,
    startError env = Some msg
    /\ startSession env w
       = Ok tt {| react := withStatus (failedStatus msg) (react w);
                  refs := refs w; browser := browser w |}.
Proof.
  intros H. destruct w as [re rf br]. unfold startSession, startError.
  destruct (mediaDevices env); cbn [negb].
  - destruct H as [H|H]; [done|]. rewrite H. cbn [negb].
    eexists. split; [reflexivity|].
    destruct (aistudio env) as [[|]|]; run_m; done.
  - eexists. split; [reflexivity|]. run_m. done.
Qed.

Lemma startSession_microphone_denied env err w :
  mediaDevices env = true ->
  truthy (apiKey env) = true ->
  getUserMedia env = inl err ->
  startSession env w
  = Ok tt (afterStop
      (caught (lit "Microphone denied: " ++ message err) (refs w)
              (trackStore (browser w)) (contextStore (browser w)) w)).
Proof.
  intros Hmedia Hkey Hmic.
  destruct w as [re [s a m sy ci co] [ts ss cs cn]].
  unfold startSession. rewrite Hmedia, Hkey.
  unfold getMicrophone. rewrite Hmic. run_m.
  destruct (aistudio env) as [[|]|]; run_m;
    by rewrite stopSession_afterStop.
Qed.

Lemma startSession_display_rejected env micKinds err w :
  mediaDevices env = true ->
  truthy (apiKey env) = true ->
  getUserMedia env = inr micKinds ->
  getDisplayMedia env = inl err ->
  let n := length (trackStore (browser w)) in
  startSession env w
  = Ok tt (afterStop
      (caught (if decide (name err = lit "NotAllowedError")
               then permissionDenied else message err)
              (holding (sessionRef (refs w)) (audioContextRef (refs w))
                       (Some (streamAt n micKinds))
                       (systemStreamRef (refs w)) (refs w))
              (trackStore (browser w) ++ tracksIn live micKinds)
              (contextStore (browser w)) w)).
Proof.
  intros Hmedia Hkey Hmic Hdisplay n.
  destruct w as [re [s a m sy ci co] [ts ss cs cn]].
  unfold startSession. rewrite Hmedia, Hkey.
  unfold getMicrophone, getSystemAudio, newStream.
  rewrite Hmic, Hdisplay. run_m.
  destruct (aistudio env) as [[|]|]; run_m;
    destruct (decide (name err = lit "NotAllowedError")); run_m;
    by rewrite stopSession_afterStop.
Qed.

Lemma startSession_audio_not_shared env micKinds displayKinds w :
  mediaDevices env = true ->
  truthy (apiKey env) = true ->
  getUserMedia env = inr micKinds ->
  getDisplayMedia env = inr displayKinds ->
  audio ∉ displayKinds ->
  let n := length (trackStore (browser w)) in
  startSession env w
  = Ok tt (afterStop
      (caught audioNotShared
              (holding (sessionRef (refs w)) (audioContextRef (refs w))
                       (Some (streamAt n micKinds))
                       (systemStreamRef (refs w)) (refs w))
              ((trackStore (browser w) ++ tracksIn live micKinds)
               ++ tracksIn ended displayKinds)
              (contextStore (browser w)) w)).
Proof.
  intros Hmedia Hkey Hmic Hdisplay Hno n.
  by rewrite (startSession_no_audio env micKinds displayKinds w).
Qed.

(** Step 2 when the display stream has an audio track: the stream goes
    into its ref, with its tracks live. *)
Lemma getSystemAudio_shared env (kinds : list TrackKind) w :
  getDisplayMedia env = inr kinds ->
  audio ∈ kinds ->
  let stream := streamAt (length (trackStore (browser w))) kinds in
  getSystemAudio env w
  = Ok (Some stream)
      {| react := react w;
         refs := holding (sessionRef (refs w)) (audioContextRef (refs w))
                         (micStreamRef (refs w)) (Some stream) (refs w);
         browser :=
           {| trackStore := trackStore (browser w) ++ tracksIn live kinds;
              sessionStore := sessionStore (browser w);
              contextStore := contextStore (browser w);
              console := console (browser w) |} |}.
Proof.
  intros Hdisplay Hin stream.
  destruct w as [re rf [ts ss cs cn]].
  unfold getSystemAudio, newStream, getAudioTracks. rewrite Hdisplay. run_m.
  rewrite decide_False by (by apply some_audio_tracks).
  run_m. done.
Qed.

Lemma startSession_connect_rejected env micKinds displayKinds err w :
  mediaDevices env = true ->
  truthy (apiKey env) = true ->
  getUserMedia env = inr micKinds ->
  getDisplayMedia env = inr displayKinds ->
  audio ∈ displayKinds ->
  connect env = inl err ->
  let n := length (trackStore (browser w)) in
  startSession env w
  = Ok tt (afterStop
      (caught (message err)
              (holding (sessionRef (refs w))
                       (Some (length (contextStore (browser w))))
                       (Some (streamAt n micKinds))
                       (Some (streamAt (n + length micKinds) displayKinds))
                       (refs w))
              ((trackStore (browser w) ++ tracksIn live micKinds)
               ++ tracksIn live displayKinds)
              (contextStore (browser w) ++ [running]) w)).
Proof.
  intros Hmedia Hkey Hmic Hdisplay Hin Hconnect n.
  destruct w as [re [s a m sy ci co] [ts ss cs cn]].
  unfold startSession. rewrite Hmedia, Hkey.
  unfold getMicrophone, newStream. rewrite Hmic. run_m.
  destruct (aistudio env) as [[|]|]; run_m;
    erewrite getSystemAudio_shared by done; unfold newAudioContext; run_m;
    rewrite Hconnect; run_m;
    rewrite stopSession_afterStop;
    unfold caught, streamAt; cbn; by rewrite length_app, length_fmap.
Qed.

Lemma startSession_connected env micKinds displayKinds session w :
  mediaDevices env = true ->
  truthy (apiKey env) = true ->
  getUserMedia env = inr micKinds ->
  getDisplayMedia env = inr displayKinds ->
  audio ∈ displayKinds ->
  connect env = inr session ->
  let n := length (trackStore (browser w)) in
  startSession env w
  = Ok tt
      {| react := withStatus connectingStatus (react w);
         refs := holding (Some (length (sessionStore (browser w))))
                         (Some (length (contextStore (browser w))))
                         (Some (streamAt n micKinds))
                         (Some (streamAt (n + length micKinds) displayKinds))
                         (refs w);
         browser :=
           {| trackStore :=
                (trackStore (browser w) ++ tracksIn live micKinds)
                ++ tracksIn live displayKinds;
              sessionStore := sessionStore (browser w) ++ [session];
              contextStore := contextStore (browser w) ++ [running];
              console := console (browser w) |} |}.
Proof.
  intros Hmedia Hkey Hmic Hdisplay Hin Hconnect n.
  destruct w as [re [s a m sy ci co] [ts ss cs cn]].
  unfold startSession. rewrite Hmedia, Hkey.
  unfold getMicrophone, newStream. rewrite Hmic. run_m.
  destruct (aistudio env) as [[|]|]; run_m;
    erewrite getSystemAudio_shared by done;
    unfold newAudioContext, newSession; run_m;
    rewrite Hconnect; run_m;
    unfold streamAt; cbn; by rewrite length_app, length_fmap.
Qed.

(** ** What [startSession] leaves *)

Lemma startError_cases env :
  (mediaDevices env = false \/ truthy (apiKey env) = false)
  \/ (mediaDevices env = true /\ truthy (apiKey env) = true).
Proof. destruct (mediaDevices env), (truthy (apiKey env)); auto. Qed.

(** [startSession] returns, and the error text it leaves is the one the
    answers of the environment decide. *)
Lemma startSession_error env w :
  exists w',
    startSession env w = Ok tt w'
    /\ SessionStatus.error (status (react w')) = startError env
    /\ SessionStatus.isActive (status (react w')) = false
    /\ SessionStatus.isMicActive (status (react w')) = false
    /\ SessionStatus.isConnecting (status (react w'))
       = bool_decide (startError env = None).
Proof.
  destruct (startError_cases env) as [Hpre|[Hmedia Hkey]].
  { destruct (startSession_prechecks env w Hpre) as (msg & Herr & ->).
    eexists. split; [done|]. rewrite Herr. done. }
  unfold startError. rewrite Hmedia, Hkey. cbn [negb].
  destruct (getUserMedia env) as [err|micKinds] eqn:Hmic.
  { eexists. split; [by apply startSession_microphone_denied|]. done. }
  destruct (getDisplayMedia env) as [err|displayKinds] eqn:Hdisplay.
  { eexists. split; [by eapply startSession_display_rejected|].
    by destruct (decide (name err = lit "NotAllowedError")). }
  destruct (decide (audio ∈ displayKinds)) as [Hin|Hno].
  - destruct (connect env) as [err|session] eqn:Hconnect.
    + eexists. split; [by eapply startSession_connect_rejected|]. done.
    + eexists. split; [by eapply startSession_connected|]. done.
  - eexists. split; [by eapply startSession_audio_not_shared|]. done.
Qed.

(** ** Nothing is left running *)

(** [leakFree] and [idle] look at the handles and the stores only. *)
Lemma leakFree_ext w w' :
  handles w' = handles w ->
  trackStore (browser w') = trackStore (browser w) ->
  contextStore (browser w') = contextStore (browser w) ->
  sessionStore (browser w') = sessionStore (browser w) ->
  leakFree w -> leakFree w'.
Proof.
  unfold handles, leakFree, heldTracks.
  intros [= Hs Ha Hm Hsy] Hts Hcs Hss. by rewrite Hs, Ha, Hm, Hsy, Hts, Hcs, Hss.
Qed.

Lemma idle_ext w w' : handles w' = handles w -> idle w -> idle w'.
Proof. unfold handles, idle. intros [= -> -> -> ->]. done. Qed.

(** After [stopSession] nothing is held, and what was leak-free stays
    so: what the refs held is stopped, closed or past a [close()]. *)
Lemma afterStop_idle w : idle (afterStop w).
Proof. done. Qed.

Lemma afterStop_leakFree w : leakFree w -> leakFree (afterStop w).
Proof.
  intros (Htr & Hctx & Hses). unfold leakFree, heldTracks.
  cbn [afterStop refs browser micStreamRef systemStreamRef audioContextRef
       sessionRef trackStore contextStore sessionStore tracksOf app].
  split; [| split].
  - intros i t Hlook Hlive. exfalso.
    rewrite !stopTracks_lookup in Hlook.
    destruct (trackStore (browser w) !! i) as [t0|] eqn:Ht0; [|done].
    cbn in Hlook. injection Hlook as <-.
    specialize (Htr i t0 Ht0). unfold heldTracks in Htr.
    destruct (decide (i ∈ tracksOf (systemStreamRef (refs w)))) as [|Hsy];
      [done|].
    destruct (decide (i ∈ tracksOf (micStreamRef (refs w)))) as [|Hm];
      [done|].
    cbn in Hlive. apply Htr in Hlive.
    apply elem_of_app in Hlive as [|]; done.
  - intros c Hrun. exfalso.
    destruct (audioContextRef (refs w)) as [c0|] eqn:Hc0.
    + destruct (decide (c = c0)) as [->|Hne].
      * destruct (decide (c0 < length (contextStore (browser w)))%nat).
        -- by rewrite list_lookup_insert_eq in Hrun.
        -- rewrite list_insert_ge in Hrun by lia.
           apply lookup_lt_Some in Hrun. lia.
      * rewrite list_lookup_insert_ne in Hrun by done.
        apply Hctx in Hrun. congruence.
    + by apply Hctx in Hrun.
  - intros s session Hlook Hopen Hcloses. exfalso.
    unfold closeHeld in Hlook.
    destruct (sessionRef (refs w)) as [s0|] eqn:Hs0.
    + destruct (sessionStore (browser w) !! s0) as [[[e|] cl]|] eqn:Hheld.
      * specialize (Hses s session Hlook Hopen Hcloses).
        injection Hses as <-. rewrite Hheld in Hlook.
        injection Hlook as <-. done.
      * destruct (decide (s = s0)) as [->|Hne].
        -- rewrite list_lookup_insert_eq in Hlook
             by (by eapply lookup_lt_Some).
           injection Hlook as <-. done.
        -- rewrite list_lookup_insert_ne in Hlook by done.
           specialize (Hses s session Hlook Hopen Hcloses). congruence.
      * specialize (Hses s session Hlook Hopen Hcloses).
        injection Hses as <-. congruence.
    + specialize (Hses s session Hlook Hopen Hcloses). done.
Qed.

(** ** The handlers, as steps *)

Lemma step_stop w : step w StopClicked = afterStop w.
Proof. unfold step. cbn [handler]. by rewrite stopSession_afterStop. Qed.

Lemma step_closed w : step w SessionClosed = afterStop w.
Proof. unfold step. cbn [handler onclose]. by rewrite stopSession_afterStop. Qed.

Lemma step_errored w e :
  step w (SessionErrored e)
  = afterStop
      {| react :=
           withStatus
             {| SessionStatus.isActive := SessionStatus.isActive (status (react w));
                SessionStatus.isConnecting := false;
                SessionStatus.isMicActive := SessionStatus.isMicActive (status (react w));
                SessionStatus.error := Some (lit "Connection error. Please restart Guard.") |}
             (react w);
         refs := refs w;
         browser :=
           {| trackStore := trackStore (browser w);
              sessionStore := sessionStore (browser w);
              contextStore := contextStore (browser w);
              console :=
                console (browser w)
                ++ [lit "Session Error:" ++ lit " " ++ message e] |} |}.
Proof.
  destruct w as [re rf [ts ss cs cn]].
  unfold step. cbn [handler]. unfold onerror. run_m.
  by rewrite stopSession_afterStop.
Qed.

Lemma onmessage_keeps_controller fresh msg :
  preserves handles (onmessage fresh msg)
  /\ preserves browser (onmessage fresh msg)
  /\ preserves (fun w => status (react w)) (onmessage fresh msg).
Proof.
  repeat split; unfold onmessage, appendDelta, commitTurn; frame.
Qed.

Lemma step_message_handles fresh msg w :
  handles (step w (MessageReceived fresh msg)) = handles w
  /\ browser (step w (MessageReceived fresh msg)) = browser w
  /\ status (react (step w (MessageReceived fresh msg))) = status (react w).
Proof.
  destruct (onmessage_keeps_controller fresh msg) as (Hh & Hb & Hs).
  unfold step. cbn [handler]. by rewrite Hh, Hb, Hs.
Qed.

Lemma step_opened_handles w :
  handles (step w SessionOpened) = handles w
  /\ browser (step w SessionOpened) = browser w
  /\ status (react (step w SessionOpened))
     = {| SessionStatus.isActive := true;
          SessionStatus.isConnecting := false;
          SessionStatus.isMicActive := true;
          SessionStatus.error := SessionStatus.error (status (react w)) |}.
Proof. by destruct w as [re rf br]. Qed.

Lemma step_edited_handles v w :
  handles (step w (KnowledgeBaseEdited v)) = handles w
  /\ browser (step w (KnowledgeBaseEdited v)) = browser w
  /\ status (react (step w (KnowledgeBaseEdited v))) = status (react w).
Proof. by destruct w as [re rf br]. Qed.

(** ** More on the turn accumulator *)

Lemma step_messages_grow ev w :
  exists new,
    messages (react (step w ev)) = messages (react w) ++ new
    /\ (length new <= 2)%nat
    /\ (isControllerEvent ev = true -> new = []).
Proof.
  destruct ev as [env| |v| |fresh msg|e|];
    try (exists []; rewrite app_nil_r;
         split; [apply controller_keeps_messages; intros; discriminate|];
         split; [cbn; lia | done]).
  rewrite step_received.
  destruct (isTurnComplete msg).
  - rewrite commitTurn_messages, appendDelta_messages. eexists.
    split; [reflexivity|]. split; [| done].
    rewrite length_app. by repeat case_match; cbn; lia.
  - exists []. rewrite app_nil_r.
    split; [apply appendDelta_messages|]. split; [cbn; lia | done].
Qed.

Lemma run_controller_events evs w :
  forallb isControllerEvent evs = true ->
  messages (react (run evs w)) = messages (react w)
  /\ forall d, buffer d (run evs w) = buffer d w.
Proof.
  revert w. induction evs as [|ev evs IH]; intros w Hc; [done|].
  cbn [forallb] in Hc. apply andb_true_iff in Hc as [Hev Hc].
  rewrite run_cons. destruct (IH (step w ev) Hc) as [Hm Hb].
  assert (Hne : forall fresh msg, ev <> MessageReceived fresh msg)
    by (intros fresh msg ->; done).
  split.
  - rewrite Hm. by apply controller_keeps_messages.
  - intros d. rewrite Hb. by apply controller_keeps_buffers.
Qed.

(** A turn of deltas of one direction, on whatever the buffer holds. *)
Lemma run_turn_one_direction d (deltas : list (Fresh * jsstring)) fresh w :
  let turn :=
    received ((fun ft => (ft.1, deltaMessage d ft.2)) <$> deltas)
    ++ [MessageReceived fresh turnCompleteMessage] in
  let t := buffer d w ++ concat (snd <$> deltas) in
  messagesOf d (run turn w)
  = messagesOf d w ++ (if blank t then [] else [messageOf d fresh t]).
Proof.
  intros turn t. subst turn t.
  erewrite messagesOf_app;
    [| apply run_turn; [apply deltas_not_turnComplete | done]].
  f_equal.
  assert (Hfinal : forall d', deltaOf d' turnCompleteMessage = [])
    by (by intros []).
  rewrite !Hfinal, !app_nil_r.
  destruct d.
  - rewrite concat_deltas_same, (concat_deltas_other Output Input) by done.
    rewrite app_nil_r, filter_app.
    by destruct (blank (buffer Input w ++ _)), (blank (buffer Output w)).
  - rewrite concat_deltas_same, (concat_deltas_other Input Output) by done.
    rewrite app_nil_r, filter_app.
    by destruct (blank (buffer Output w ++ _)), (blank (buffer Input w)).
Qed.

Lemma take_cons_take {A} n (x : A) l :
  take (S n) (x :: take (S n) l) = take (S n) (x :: l).
Proof. cbn. f_equal. rewrite take_take. f_equal. lia. Qed.

(** The Suggestion list is the fifteen latest assistant Messages, newest
    first, each with the identifier and the text of its Message. *)
Lemma suggestions_mirror_messages w :
  reachable w ->
  suggestionKey <$> suggestions (react w)
  = take 15 (reverse (messageKey <$> messagesOf Output w))
  /\ Forall (fun s => Suggestion.title s = lit "AI Insight"
                      /\ Suggestion.confidence s = 0.99%float)
            (suggestions (react w)).
Proof.
  revert w. apply reachable_ind; [by split|].
  intros w ev _ [IHk IHt].
  destruct ev as [env| |v| |fresh msg|e|];
    try (unfold messagesOf;
         rewrite controller_keeps_suggestions, controller_keeps_messages
           by (intros; discriminate);
         by split).
  rewrite step_received.
  destruct (isTurnComplete msg).
  - set (w1 := worldOf (appendDelta msg w)).
    assert (Hs1 : suggestions (react w1) = suggestions (react w))
      by apply appendDelta_suggestions.
    assert (Hm1 : messagesOf Output w1 = messagesOf Output w)
      by (unfold messagesOf, w1; by rewrite appendDelta_messages).
    rewrite commitTurn_suggestions.
    erewrite (messagesOf_app Output w1) by apply commitTurn_messages.
    rewrite Hs1, Hm1, filter_app.
    destruct (blank (buffer Output w1)).
    + split; [| done].
      rewrite IHk. do 3 f_equal.
      destruct (blank (buffer Input w1)); by rewrite ?app_nil_r.
    + split.
      * unfold prependCapped.
        replace (filter _ (if blank (buffer Input w1) then [] else _))
          with (@nil Message.t) by (by destruct (blank (buffer Input w1))).
        rewrite app_nil_l, filter_cons_True, filter_nil by done.
        rewrite fmap_app, reverse_app.
        change (reverse [?x]) with [x]. cbn [app].
        rewrite fmap_take, fmap_cons, IHk.
        change (suggestionKey (suggestionOf fresh ?t))
          with (messageKey (messageOf Output fresh t)).
        apply take_cons_take.
      * unfold prependCapped. apply Forall_take. by constructor.
  - unfold messagesOf.
    by rewrite appendDelta_suggestions, appendDelta_messages.
Qed.

(** [startSession] leaves the live values alone, or empties them (the
    [stopSession] of its failure path). *)
Lemma startSession_streaming env w d :
  streaming d (worldOf (startSession env w)) = []
  \/ streaming d (worldOf (startSession env w)) = streaming d w.
Proof.
  destruct (startError_cases env) as [Hpre|[Hmedia Hkey]].
  { destruct (startSession_prechecks env w Hpre) as (msg & _ & ->).
    right. by destruct d. }
  destruct (getUserMedia env) as [err|micKinds] eqn:Hmic.
  { left. erewrite startSession_microphone_denied by done. by destruct d. }
  destruct (getDisplayMedia env) as [err|displayKinds] eqn:Hdisplay.
  { left. erewrite startSession_display_rejected by done. by destruct d. }
  destruct (decide (audio ∈ displayKinds)) as [Hin|Hno].
  - destruct (connect env) as [err|session] eqn:Hconnect.
    + left. erewrite startSession_connect_rejected by done. by destruct d.
    + right. erewrite startSession_connected by done. by destruct d.
  - left. erewrite startSession_audio_not_shared by done. by destruct d.
Qed.


(** ** More on the frame encoder *)

Lemma sextetChar_base64 n : 0 <= n < 64 -> isBase64Char (sextetChar n) = true.
Proof.
  intros Hn. unfold isBase64Char, sextetChar.
  repeat case_match; lia.
Qed.

Lemma base64_length (bs : list Z) :
  length (base64 bs) = (4 * ((length bs + 2) / 3))%nat.
Proof.
  remember (length bs) as n eqn:Hn. revert bs Hn.
  induction n as [n IH] using lt_wf_ind. intros bs ->.
  destruct bs as [|a [|b [|c rest]]]; [done..|].
  cbn [base64 length].
  rewrite (IH (length rest)) by (cbn; lia || done).
  replace (S (S (S (length rest))) + 2)%nat
    with ((length rest + 2) + 1 * 3)%nat by lia.
  rewrite Nat.div_add by done. lia.
Qed.

Lemma base64_alphabet (bs : list Z) :
  Forall (fun b => 0 <= b <= 255) bs ->
  Forall (fun c => isBase64Char c = true) (base64 bs).
Proof.
  remember (length bs) as n eqn:Hn. revert bs Hn.
  induction n as [n IH] using lt_wf_ind. intros bs Hn Hbs.
  destruct bs as [|a [|b [|c rest]]]; [constructor| | |].
  - apply Forall_cons in Hbs as [Ha _].
    destruct (group_roundtrip a 0 0 Ha) as ((H1 & H2 & _) & _); [lia..|].
    change (Z.shiftr 0 4) with 0 in *. rewrite Z.lor_0_r in *.
    cbn [base64]. repeat constructor; by apply sextetChar_base64.
  - apply Forall_cons in Hbs as [Ha Hbs]. apply Forall_cons in Hbs as [Hb _].
    destruct (group_roundtrip a b 0 Ha Hb) as ((H1 & H2 & H3 & _) & _); [lia|].
    change (Z.shiftr 0 6) with 0 in *. rewrite Z.lor_0_r in *.
    cbn [base64]. repeat constructor; by apply sextetChar_base64.
  - apply Forall_cons in Hbs as [Ha Hbs]. apply Forall_cons in Hbs as [Hb Hbs].
    apply Forall_cons in Hbs as [Hc Hrest].
    destruct (group_roundtrip a b c Ha Hb Hc) as ((H1 & H2 & H3 & H4) & _).
    cbn [base64].
    repeat (constructor; [by apply sextetChar_base64|]).
    apply (IH (length rest)); [cbn in Hn; lia | done | done].
Qed.

Lemma littleEndian16_length (vs : list Z) :
  length (vs ≫= littleEndian16) = (2 * length vs)%nat.
Proof.
  induction vs as [|v vs IH]; [done|].
  rewrite bind_cons, length_app, IH. cbn. lia.
Qed.


(** * Further properties of the component *)

(** ** The frame encoder *)

(** X1: [encode] never throws on a byte array: it gives a text of
    [4 * ceil(n / 3)] characters of the base64 alphabet from which the
    bytes are read back, so two byte arrays with the same text are the
    same. *)
Theorem encode_is_invertible :
  (forall bytes,
     Forall (fun b => 0 <= b <= 255) bytes ->
     exists s,
       encode bytes = Some s
       /\ unbase64 s = bytes
       /\ length s = (4 * ((length bytes + 2) / 3))%nat
       /\ Forall (fun c => isBase64Char c = true) s)
  /\ (forall bytes1 bytes2,
        Forall (fun b => 0 <= b <= 255) bytes1 ->
        Forall (fun b => 0 <= b <= 255) bytes2 ->
        encode bytes1 = encode bytes2 -> bytes1 = bytes2).
Proof.
  split.
  - intros bytes Hb. exists (base64 bytes).
    split; [by apply encode_bytes|].
    split; [by apply unbase64_base64|].
    split; [apply base64_length | by apply base64_alphabet].
  - intros b1 b2 H1 H2. rewrite !encode_bytes by done. intros [= Heq].
    by rewrite <- (unbase64_base64 b1), <- (unbase64_base64 b2), Heq.
Qed.

Lemma encode_is_invertible_witness :
  exists s,
    encode [0; 128; 255; 64] = Some s
    /\ unbase64 s = [0; 128; 255; 64]
    /\ length s = 8%nat
    /\ Forall (fun c => isBase64Char c = true) s.
Proof.
  apply (proj1 encode_is_invertible [0; 128; 255; 64]).
  repeat constructor; lia.
Defined.

(** X2: [createBlob] gives, for a block of [n] samples, a frame whose
    payload has [4 * ceil(2n / 3)] characters of the base64 alphabet and
    whose type is "audio/pcm;rate=16000"; two blocks give the same frame
    exactly when their samples quantise to the same 16-bit values. *)
Theorem createBlob_frame_size_and_identity :
  (forall samples,
     exists blob,
       createBlob samples = Some blob
       /\ length (data blob) = (4 * ((2 * length samples + 2) / 3))%nat
       /\ Forall (fun c => isBase64Char c = true) (data blob)
       /\ mimeType blob = lit "audio/pcm;rate=16000")
  /\ (forall samples1 samples2,
        createBlob samples1 = createBlob samples2
        <-> quantize <$> samples1 = quantize <$> samples2).
Proof.
  split.
  - intros samples. eexists. split; [apply createBlob_framePayload|].
    cbn [data mimeType]. unfold framePayload.
    split; [by rewrite base64_length, littleEndian16_length, length_fmap|].
    split; [| done].
    apply base64_alphabet.
    rewrite <- bufferBytes_littleEndian. apply bufferBytes_bytes.
  - intros s1 s2. rewrite !createBlob_framePayload. split.
    + intros [= Heq].
      by rewrite <- (framePayload_roundtrip s1), <- (framePayload_roundtrip s2), Heq.
    + intros Heq. unfold framePayload. by rewrite Heq.
Qed.

(** Full scale up and full scale down give the same frame. *)
Lemma createBlob_frame_size_and_identity_witness :
  createBlob [1; 0.5]%float = createBlob [-1; 0.5]%float.
Proof.
  apply (proj2 createBlob_frame_size_and_identity [1; 0.5]%float [-1; 0.5]%float).
  by vm_compute.
Defined.

(** ** The turn accumulator *)

(** X3: the Message history only grows at its end: whatever events
    happen, the history before is a prefix of the history after; one event
    appends at most two Messages, and an event that is not a message from
    the server appends none. *)
Theorem history_is_append_only :
  (forall evs w,
     messages (react w) `prefix_of` messages (react (run evs w)))
  /\ (forall ev w,
        exists new,
          messages (react (step w ev)) = messages (react w) ++ new
          /\ (length new <= 2)%nat
          /\ (isControllerEvent ev = true -> new = [])).
Proof.
  split; [| exact step_messages_grow].
  intros evs. induction evs as [|ev evs IH]; intros w; [done|].
  rewrite run_cons. etrans; [| apply IH].
  destruct (step_messages_grow ev w) as (new & -> & _).
  by apply prefix_app_r.
Qed.

(** X4: in every reachable world the Suggestion list is the latest
    assistant Messages of the history, newest first, at most fifteen: the
    list is as long as the smaller of 15 and the number of assistant
    Messages, and its [n]-th Suggestion has the identifier and the text of
    the [n]-th latest assistant Message, the title "AI Insight" and the
    confidence 0.99. *)
Theorem suggestions_are_latest_assistant_messages (w : World) :
  reachable w ->
  length (suggestions (react w))
  = Nat.min 15 (length (messagesOf Output w))
  /\ forall n s,
       suggestions (react w) !! n = Some s ->
       exists m,
         reverse (messagesOf Output w) !! n = Some m
         /\ Suggestion.id s = Message.id m
         /\ Suggestion.content s = Message.text m
         /\ Suggestion.title s = lit "AI Insight"
         /\ Suggestion.confidence s = 0.99%float.
Proof.
  intros Hw. destruct (suggestions_mirror_messages w Hw) as [Hk Ht]. split.
  - apply (f_equal length) in Hk.
    by rewrite length_fmap, length_take, length_reverse, length_fmap in Hk.
  - intros n s Hs.
    pose proof (f_equal (fun l => l !! n) Hk) as Hn. cbn beta in Hn.
    rewrite list_lookup_fmap, Hs in Hn. symmetry in Hn.
    apply lookup_take_Some in Hn as [Hn _].
    rewrite <- fmap_reverse, list_lookup_fmap in Hn.
    apply fmap_Some in Hn as (m & Hm & Hkey).
    injection Hkey as Hid Htext.
    rewrite Forall_lookup in Ht. destruct (Ht n s Hs) as [Htitle Hconf].
    by exists m.
Qed.

Lemma suggestions_are_latest_assistant_messages_witness :
  length (suggestions (react (run sixteenTurns initial)))
  = Nat.min 15 (length (messagesOf Output (run sixteenTurns initial))).
Proof.
  apply (suggestions_are_latest_assistant_messages (run sixteenTurns initial)).
  by exists sixteenTurns.
Defined.

(** X5: in every reachable world a live value ([streamingInput],
    [streamingOutput]) is empty or equal to the transcription buffer of
    its direction: what is shown as in progress is never a stale or
    partial copy of the buffer. *)
Theorem live_value_is_empty_or_the_buffer (w : World) (d : Direction) :
  reachable w ->
  streaming d w = [] \/ streaming d w = buffer d w.
Proof.
  intros Hw. revert d. revert w Hw.
  apply (reachable_ind
           (fun w => forall d, streaming d w = [] \/ streaming d w = buffer d w));
    [by intros []; left|].
  intros w ev _ IH d.
  destruct ev as [env| |v| |fresh msg|e|].
  - rewrite controller_keeps_buffers by (intros; discriminate).
    unfold step. cbn [handler].
    destruct (startSession_streaming env w d) as [->| ->]; [by left | apply IH].
  - left. rewrite step_stop. by destruct d.
  - rewrite controller_keeps_buffers by (intros; discriminate).
    replace (streaming d (step w (KnowledgeBaseEdited v)))
      with (streaming d w) by (by destruct w as [re rf br], d).
    apply IH.
  - rewrite controller_keeps_buffers by (intros; discriminate).
    replace (streaming d (step w SessionOpened))
      with (streaming d w) by (by destruct w as [re rf br], d).
    apply IH.
  - rewrite step_received. destruct (isTurnComplete msg).
    + left. apply commitTurn_resets.
    + rewrite appendDelta_streaming, appendDelta_buffer.
      pose proof (IH Input) as HI. pose proof (IH Output) as HO.
      destruct msg as [[[[to|] [ti|] tc]|]], d; cbn in *; rewrite ?app_nil_r;
        auto.
  - left. rewrite step_errored. by destruct d.
  - left. rewrite step_closed. by destruct d.
Qed.

Lemma live_value_is_empty_or_the_buffer_witness :
  streaming Input midTurn = [] \/ streaming Input midTurn = buffer Input midTurn.
Proof.
  apply (live_value_is_empty_or_the_buffer midTurn Input).
  by eexists.
Defined.

(** X6: [stopSession] and [startSession] do not empty the transcription
    buffers: the text of a turn that was not complete when the session
    stopped stays in its buffer through any events that are not messages
    (a stop, a close, an error, a new start), and is the beginning of the
    next Message committed for that direction. *)
Theorem unfinished_turn_survives_stop
    (d : Direction) (evs : list Event) (deltas : list (Fresh * jsstring))
    (fresh : Fresh) (w : World) :
  forallb isControllerEvent evs = true ->
  let turn :=
    received ((fun ft => (ft.1, deltaMessage d ft.2)) <$> deltas)
    ++ [MessageReceived fresh turnCompleteMessage] in
  let t := buffer d w ++ concat (snd <$> deltas) in
  buffer d (run evs w) = buffer d w
  /\ messagesOf d (run (evs ++ turn) w)
     = messagesOf d w ++ (if blank t then [] else [messageOf d fresh t]).
Proof.
  intros Hevs turn t.
  destruct (run_controller_events evs w Hevs) as [Hm Hb].
  split; [apply Hb|].
  rewrite run_app. subst turn t.
  rewrite run_turn_one_direction, Hb.
  unfold messagesOf. by rewrite Hm.
Qed.

(** "What is " was heard when the session closed; after a new start the
    participant says "2+2?" and the Message reads "What is 2+2?". *)
Lemma unfinished_turn_survives_stop_witness :
  messagesOf Input
    (run ([SessionClosed; StartClicked grantedStart; SessionOpened]
          ++ received [(fresh0, deltaMessage Input (lit "2+2?"))]
          ++ [MessageReceived fresh0 turnCompleteMessage]) midTurn)
  = [messageOf Input fresh0 (lit "What is 2+2?")].
Proof.
  apply (unfinished_turn_survives_stop Input
           [SessionClosed; StartClicked grantedStart; SessionOpened]
           [(fresh0, lit "2+2?")] fresh0 midTurn).
  reflexivity.
Defined.

(** ** The session controller *)



Lemma idle_leakFree_quiet w : idle w -> leakFree w -> allQuiet w.
Proof.
  intros (_ & Ha & Hm & Hsy) (Htr & Hctx & _).
  unfold heldTracks in Htr. rewrite Hm, Hsy in Htr.
  split; apply Forall_lookup.
  - intros i t Hi. destruct (readyState t) eqn:Hr; [|done].
    by apply (Htr i t Hi), elem_of_nil in Hr.
  - intros c st Hc. destruct st; [|done].
    apply Hctx in Hc. congruence.
Qed.



(** X13: in every reachable world the status never contradicts itself:
    [isMicActive] equals [isActive], the status is not active and
    connecting at once, and an error is not set while connecting. *)
Theorem status_never_contradicts_itself (w : World) :
  reachable w ->
  SessionStatus.isMicActive (status (react w))
  = SessionStatus.isActive (status (react w))
  /\ (SessionStatus.isActive (status (react w)) = true ->
      SessionStatus.isConnecting (status (react w)) = false)
  /\ (SessionStatus.error (status (react w)) <> None ->
      SessionStatus.isConnecting (status (react w)) = false).
Proof.
  revert w. apply reachable_ind; [done|].
  intros w ev _ (Hmic & Hact & Herr).
  destruct ev as [env| |v| |fresh msg|e|].
  - destruct (startSession_error env w)
      as (w' & Hrun & He & Ha & Hm & Hc).
    unfold step. cbn [handler]. rewrite Hrun. cbn [worldOf].
    rewrite Ha, Hm, Hc, He. split; [done|]. split; [done|].
    intros Hne. by apply bool_decide_eq_false.
  - rewrite step_stop. cbn. split; [done|]. split; [done|]. exact Herr.
  - by destruct (step_edited_handles v w) as (_ & _ & ->).
  - by destruct (step_opened_handles w) as (_ & _ & ->).
  - by destruct (step_message_handles fresh msg w) as (_ & _ & ->).
  - rewrite step_errored. done.
  - rewrite step_closed. cbn. split; [done|]. split; [done|]. exact Herr.
Qed.

Lemma status_never_contradicts_itself_witness :
  SessionStatus.isMicActive (status (react midTurn))
  = SessionStatus.isActive (status (react midTurn))
  /\ (SessionStatus.isActive (status (react midTurn)) = true ->
      SessionStatus.isConnecting (status (react midTurn)) = false)
  /\ (SessionStatus.error (status (react midTurn)) <> None ->
      SessionStatus.isConnecting (status (react midTurn)) = false).
Proof.
  apply (status_never_contradicts_itself midTurn). by eexists.
Defined.


(** ** Identifiers and the rendered view *)

Lemma idsDrawn_cons ev evs : idsDrawn (ev :: evs) = idsOf ev ++ idsDrawn evs.
Proof. done. Qed.

(** The identifiers of the Messages a run appends are among those drawn
    during the run, in the order they were drawn. *)
Lemma run_message_ids evs w :
  exists new,
    Message.id <$> messages (react (run evs w))
    = (Message.id <$> messages (react w)) ++ new
    /\ new `sublist_of` idsDrawn evs.
Proof.
  revert w. induction evs as [|ev evs IH]; intros w.
  - exists []. by rewrite app_nil_r.
  - rewrite run_cons, idsDrawn_cons.
    destruct (IH (step w ev)) as (new & -> & Hsub).
    destruct ev as [env| |v| |fresh msg|e|];
      try (rewrite controller_keeps_messages by (intros; discriminate);
           by exists new).
    rewrite step_received. cbn [idsOf]. destruct (isTurnComplete msg).
    + rewrite commitTurn_messages, appendDelta_messages, !fmap_app.
      eexists. rewrite <- !app_assoc. split; [reflexivity|].
      rewrite (app_assoc _ _ new). apply sublist_app; [| done].
      destruct (blank (buffer Input _)), (blank (buffer Output _)); cbn;
        repeat first [ by constructor
                     | apply sublist_skip | apply sublist_cons ].
    + rewrite appendDelta_messages. exists new. split; [done|].
      done.
Qed.

Lemma imap_cardOf_rest (rest : list Suggestion.t) :
  Forall (fun c => cardBadge c = lit "Historical Insight")
         (imap (cardOf ∘ S) rest).
Proof.
  apply Forall_forall. intros c Hc.
  apply elem_of_lookup_imap in Hc as (i & s & -> & _). done.
Qed.

(** X14: the keys React is given are unique as long as [uuidv4] never
    repeats itself: if the identifiers drawn during the events are
    pairwise different, no two Messages of the history share an
    identifier, and no two Suggestions do. *)
Theorem keys_are_unique (evs : list Event) :
  NoDup (idsDrawn evs) ->
  NoDup (Message.id <$> messages (react (run evs initial)))
  /\ NoDup (Suggestion.id <$> suggestions (react (run evs initial))).
Proof.
  intros Hids.
  assert (Hm : NoDup (Message.id <$> messages (react (run evs initial)))).
  { destruct (run_message_ids evs initial) as (new & -> & Hsub).
    cbn. by eapply sublist_NoDup. }
  split; [done|].
  destruct (suggestions_mirror_messages (run evs initial)) as [Hk _];
    [by exists evs|].
  apply (f_equal (fmap fst)) in Hk.
  rewrite <- list_fmap_compose in Hk.
  change (fst ∘ suggestionKey) with Suggestion.id in Hk. rewrite Hk.
  rewrite fmap_take, fmap_reverse, <- list_fmap_compose.
  change (fst ∘ messageKey) with Message.id.
  eapply sublist_NoDup; [| apply sublist_take].
  rewrite reverse_Permutation.
  eapply sublist_NoDup; [exact Hm|].
  apply fmap_sublist, sublist_filter.
Qed.

Lemma keys_are_unique_witness :
  NoDup (Message.id <$> messages (react (run twoTurns initial)))
  /\ NoDup (Suggestion.id <$> suggestions (react (run twoTurns initial))).
Proof.
  apply (keys_are_unique twoTurns).
  apply (bool_decide_unpack _). vm_compute. reflexivity.
Defined.

(** X15: what [AssistantUI] shows of the latest answer. In every
    reachable world with an assistant Message in the history, the
    component shows the two columns and not the welcome screen, also when
    the session is not active; the first card carries the badge
    "Immediate Action" and the identifier and the text of the latest
    assistant Message; every other card carries "Historical Insight"; and
    the Message has its bubble, captioned "AI Response", in the
    transcript. *)
Theorem latest_answer_is_the_first_card (w : World) (m : Message.t) :
  reachable w ->
  last (messagesOf Output w) = Some m ->
  exists transcript hearing generating first rest,
    assistantView w
    = Columns transcript hearing generating (Some (first :: rest))
    /\ cardBadge first = lit "Immediate Action"
    /\ cardKey first = Message.id m
    /\ cardText first = Message.text m
    /\ Forall (fun c => cardBadge c = lit "Historical Insight") rest
    /\ bubbleOf m ∈ transcript
    /\ bubbleCaption (bubbleOf m) = lit "AI Response".
Proof.
  intros Hw Hlast.
  destruct (suggestions_mirror_messages w Hw) as [Hk _].
  apply last_Some in Hlast as [older Holder].
  assert (Hin : m ∈ messagesOf Output w)
    by (rewrite Holder; apply elem_of_app; right; apply list_elem_of_singleton; done).
  apply list_elem_of_filter in Hin as [Hrole Hin].
  rewrite Holder, fmap_app, reverse_app in Hk.
  change (reverse (messageKey <$> [m])) with [messageKey m] in Hk.
  cbn [app take] in Hk.
  destruct (suggestions (react w)) as [|s rest] eqn:Hs; [done|].
  rewrite fmap_cons in Hk. injection Hk as Hid Htext _.
  unfold assistantView, AssistantUI. rewrite Hs.
  destruct (messages (react w)) as [|m0 ms] eqn:Hms;
    [by apply elem_of_nil in Hin|].
  rewrite andb_false_r. cbn [length Nat.eqb andb].
  eexists _, _, _, _, _. split; [reflexivity|].
  repeat split; try done.
  - apply imap_cardOf_rest.
  - by apply list_elem_of_fmap_2.
  - unfold bubbleOf. cbn. by rewrite Hrole.
Qed.

Lemma latest_answer_is_the_first_card_witness :
  exists transcript hearing generating first rest,
    assistantView (run twoTurns initial)
    = Columns transcript hearing generating (Some (first :: rest))
    /\ cardBadge first = lit "Immediate Action"
    /\ cardKey first = lit "id-assistant-1"
    /\ cardText first = lit "B"
    /\ Forall (fun c => cardBadge c = lit "Historical Insight") rest
    /\ bubbleOf (messageOf Output fresh1 (lit "B")) ∈ transcript
    /\ bubbleCaption (bubbleOf (messageOf Output fresh1 (lit "B")))
       = lit "AI Response".
Proof.
  apply (latest_answer_is_the_first_card (run twoTurns initial)
           (messageOf Output fresh1 (lit "B"))).
  - by exists twoTurns.
  - reflexivity.
Defined.

(** * The start, await by await *)

(** ** The pieces of [startSession] *)

Lemma continue_step n others env faults a w :
  continue (S n) others env faults (Waiting a) w
  = match resume env faults a (others a w) with
    | Ok p w' => continue n others env faults p w'
    | Throw e w' => Throw e w'
    end.
Proof. done. Qed.

Lemma continue_done n others env faults w :
  continue n others env faults Done w = Ok tt w.
Proof. by destruct n. Qed.

Lemma startSessionAmid_begin others env faults w :
  startSessionAmid others env faults w
  = match begin env w with
    | Ok p w' => continue 5 others env faults p w'
    | Throw e w' => Throw e w'
    end.
Proof. done. Qed.

(** The [catch] leaves the world [stopSession] makes of the one in which
    the error text is set. *)
Lemma catchStartup_caught err w :
  catchStartup err w
  = Ok tt (afterStop (caught (message err) (refs w) (trackStore (browser w))
                             (contextStore (browser w)) w)).
Proof.
  destruct w as [re rf [ts ss cs cn]].
  unfold catchStartup. run_m. by rewrite stopSession_afterStop.
Qed.

Lemma inTry_run body w :
  inTry body w
  = match body w with
    | Ok p w' => Ok p w'
    | Throw err w' =>
        Ok Done (afterStop (caught (message err) (refs w')
                                   (trackStore (browser w'))
                                   (contextStore (browser w')) w'))
    end.
Proof.
  unfold inTry, tryCatch. destruct (body w) as [p w'|err w']; [done|].
  unfold mbind, M_bind. by rewrite catchStartup_caught.
Qed.

Lemma caught_failed msg rf ts cs w :
  status (react (afterStop (caught msg rf ts cs w))) = failedStatus msg
  /\ idle (afterStop (caught msg rf ts cs w)).
Proof. done. Qed.


Lemma inTry_failedIn body w :
  inTry body w
  = match body w with
    | Ok p w' => Ok p w'
    | Throw err w' => Ok Done (failedIn (message err) w')
    end.
Proof. apply inTry_run. Qed.

Lemma checkApiKey_run env w :
  checkApiKey env w
  = if truthy (apiKey env) then Ok (Waiting GetUserMedia) w
    else Ok Done
           (statusSet
              {| SessionStatus.isActive := SessionStatus.isActive (status (react w));
                 SessionStatus.isConnecting := false;
                 SessionStatus.isMicActive := SessionStatus.isMicActive (status (react w));
                 SessionStatus.error := Some (lit "API Key missing.") |} w).
Proof.
  destruct w as [re rf br]. unfold checkApiKey.
  destruct (truthy (apiKey env)); run_m; done.
Qed.

Lemma begin_run env w :
  begin env w
  = if mediaDevices env then
      match aistudio env with
      | Some _ => Ok (Waiting HasSelectedApiKey) (statusSet connectingStatus w)
      | None => checkApiKey env (statusSet connectingStatus w)
      end
    else
      Ok Done
         (statusSet
            (failedStatus (lit "Media capture is not supported in this browser or environment (ensure HTTPS/Localhost)."))
            w).
Proof.
  destruct w as [re rf br]. unfold begin.
  destruct (mediaDevices env); run_m; [| done].
  destruct (aistudio env); run_m; done.
Qed.

Lemma getMicrophone_run env w :
  getMicrophone env w
  = match getUserMedia env with
    | inl err => Throw (newError (lit "Microphone denied: " ++ message err)) w
    | inr kinds =>
        Ok (streamAt (length (trackStore (browser w))) kinds)
           (withMicrophone kinds w)
    end.
Proof.
  destruct w as [re rf [ts ss cs cn]]. unfold getMicrophone, newStream.
  destruct (getUserMedia env) as [err|kinds]; run_m; done.
Qed.

Lemma getSystemAudio_run env w :
  getSystemAudio env w
  = match getDisplayMedia env with
    | inl err =>
        Throw (if decide (name err = lit "NotAllowedError")
               then newError permissionDenied else err) w
    | inr kinds =>
        if decide (audio ∈ kinds)
        then Ok (Some (streamAt (length (trackStore (browser w))) kinds))
                (withSystemAudio kinds w)
        else Throw (newError audioNotShared) (withTracks ended kinds w)
    end.
Proof.
  destruct (getDisplayMedia env) as [err|kinds] eqn:Hdisplay.
  - destruct w as [re rf [ts ss cs cn]]. unfold getSystemAudio.
    rewrite Hdisplay. run_m.
    destruct (decide (name err = lit "NotAllowedError")); run_m; done.
  - destruct (decide (audio ∈ kinds)).
    + by rewrite (getSystemAudio_shared env kinds).
    + by rewrite (getSystemAudio_no_audio env kinds).
Qed.

Lemma buildAudioGraph_run faults w :
  buildAudioGraph faults w
  = match audioContextThrows faults with
    | Some err => Throw err w
    | None =>
        match audioGraphThrows faults with
        | Some err => Throw err (withAudioContext w)
        | None => Ok tt (withAudioContext w)
        end
    end.
Proof.
  destruct w as [re rf [ts ss cs cn]]. unfold buildAudioGraph, newAudioContext.
  destruct (audioContextThrows faults); run_m; [done|].
  destruct (audioGraphThrows faults); run_m; done.
Qed.

(** The three pieces inside the [try], by the answers they get. *)
Lemma resume_GetUserMedia env faults w :
  resume env faults GetUserMedia w
  = match getUserMedia env with
    | inl err => Ok Done (failedIn (lit "Microphone denied: " ++ message err) w)
    | inr kinds => Ok (Waiting GetDisplayMedia) (withMicrophone kinds w)
    end.
Proof.
  cbn [resume]. rewrite inTry_failedIn. unfold mbind, M_bind.
  rewrite getMicrophone_run. by destruct (getUserMedia env).
Qed.

Lemma resume_GetDisplayMedia env faults w :
  resume env faults GetDisplayMedia w
  = match getDisplayMedia env with
    | inl err => Ok Done (failedIn (displayError err) w)
    | inr kinds =>
        if decide (audio ∈ kinds) then
          match audioContextThrows faults with
          | Some err => Ok Done (failedIn (message err) (withSystemAudio kinds w))
          | None =>
              match audioGraphThrows faults with
              | Some err =>
                  Ok Done (failedIn (message err)
                             (withAudioContext (withSystemAudio kinds w)))
              | None =>
                  Ok (Waiting Connect)
                     (withAudioContext (withSystemAudio kinds w))
              end
          end
        else Ok Done (failedIn audioNotShared (withTracks ended kinds w))
    end.
Proof.
  cbn [resume]. rewrite inTry_failedIn. unfold mbind, M_bind.
  rewrite getSystemAudio_run.
  destruct (getDisplayMedia env) as [err|kinds].
  - unfold displayError. by destruct (decide (name err = lit "NotAllowedError")).
  - destruct (decide (audio ∈ kinds)); [| done].
    rewrite buildAudioGraph_run.
    destruct (audioContextThrows faults); [done|].
    by destruct (audioGraphThrows faults).
Qed.

Lemma resume_Connect env faults w :
  resume env faults Connect w
  = match connect env with
    | inl err => Ok Done (failedIn (message err) w)
    | inr session => Ok Done (withSession session w)
    end.
Proof.
  cbn [resume]. rewrite inTry_failedIn. unfold mbind, M_bind.
  destruct (connect env) as [err|session]; [done|].
  destruct w as [re rf [ts ss cs cn]]. unfold newSession. run_m. done.
Qed.

Lemma failedIn_failed msg w :
  status (react (failedIn msg w)) = failedStatus msg /\ idle (failedIn msg w).
Proof. done. Qed.


(** ** How a start ends *)

(** From the API-key check on, whatever runs meanwhile. *)
Lemma tried_outcome others env faults n w :
  mediaDevices env = true ->
  keySelection env faults = None ->
  truthy (apiKey env) = true ->
  match startOutcome env faults with
  | Rejects _ => False
  | Fails msg =>
      exists w',
        continue (S (S (S n))) others env faults (Waiting GetUserMedia) w
        = Ok tt w'
        /\ status (react w') = failedStatus msg /\ idle w'
  | Connects =>
      exists w1 session,
        continue (S (S (S n))) others env faults (Waiting GetUserMedia) w
        = Ok tt (withSession session w1)
        /\ connect env = inr session
  end.
Proof.
  intros Hmedia Hsel Hkey. unfold startOutcome.
  rewrite Hmedia, Hsel, Hkey. cbn [negb].
  rewrite continue_step, resume_GetUserMedia.
  destruct (getUserMedia env) as [err|mk].
  { rewrite continue_done. eexists. split; [done | apply failedIn_failed]. }
  rewrite continue_step, resume_GetDisplayMedia.
  destruct (getDisplayMedia env) as [err|dk].
  { rewrite continue_done. eexists. split; [done | apply failedIn_failed]. }
  destruct (decide (audio ∈ dk));
    [| rewrite continue_done; eexists; split; [done | apply failedIn_failed]].
  destruct (audioContextThrows faults) as [err|];
    [rewrite continue_done; eexists; split; [done | apply failedIn_failed]|].
  destruct (audioGraphThrows faults) as [err|];
    [rewrite continue_done; eexists; split; [done | apply failedIn_failed]|].
  rewrite continue_step, resume_Connect.
  destruct (connect env) as [err|session].
  { rewrite continue_done. eexists. split; [done | apply failedIn_failed]. }
  rewrite continue_done. by eexists _, _.
Qed.

Lemma checked_outcome others env faults n w :
  mediaDevices env = true ->
  keySelection env faults = None ->
  match startOutcome env faults with
  | Rejects _ => False
  | Fails msg =>
      exists w',
        match checkApiKey env w with
        | Ok p w1 => continue (S (S (S n))) others env faults p w1
        | Throw e w1 => Throw e w1
        end = Ok tt w'
        /\ SessionStatus.error (status (react w')) = Some msg
        /\ SessionStatus.isConnecting (status (react w')) = false
        /\ (truthy (apiKey env) = true ->
            status (react w') = failedStatus msg /\ idle w')
  | Connects =>
      exists w1 session,
        match checkApiKey env w with
        | Ok p w1 => continue (S (S (S n))) others env faults p w1
        | Throw e w1 => Throw e w1
        end = Ok tt (withSession session w1)
        /\ connect env = inr session
  end.
Proof.
  intros Hmedia Hsel. rewrite checkApiKey_run.
  destruct (truthy (apiKey env)) eqn:Hkey.
  - pose proof (tried_outcome others env faults n w Hmedia Hsel Hkey) as H.
    destruct (startOutcome env faults) as [err|msg|]; [done| |done].
    destruct H as (w' & Hrun & Hst & Hidle).
    exists w'. split; [done|]. rewrite Hst. done.
  - unfold startOutcome. rewrite Hmedia, Hsel, Hkey. cbn [negb].
    rewrite continue_done. eexists. split; [done|]. done.
Qed.

(** X8: how a start ends is decided by the answers it gets, first failure
    first, whatever runs on the page while it waits. A rejection of one of
    the two promises of [window.aistudio], which are awaited before the
    [try], rejects the promise of [startSession]. Every other failure
    leaves its text in [status.error] with [isConnecting] false: the
    capture check, the API key, the microphone ("Microphone denied: " and
    the cause), the display share (the "PERMISSION DENIED" text for a
    [NotAllowedError], the cause's own message otherwise, the "AUDIO NOT
    SHARED" text for a share without audio), the audio context and the
    audio graph (the cause's message), the connection (the cause's
    message); a failure inside the [try] also leaves [isActive] and
    [isMicActive] false and the four handles empty. With no failure the
    session that the connection resolved to is in [sessionRef]. *)
Theorem start_outcome_is_decided_by_the_answers
    (others : Interference) (env : StartEnv) (faults : StartFaults)
    (w : World) :
  match startOutcome env faults with
  | Rejects err =>
      exists w', startSessionAmid others env faults w = Throw err w'
  | Fails msg =>
      exists w',
        startSessionAmid others env faults w = Ok tt w'
        /\ SessionStatus.error (status (react w')) = Some msg
        /\ SessionStatus.isConnecting (status (react w')) = false
        /\ (entersTry env faults = true ->
            status (react w') = failedStatus msg /\ idle w')
  | Connects =>
      exists w' s session,
        startSessionAmid others env faults w = Ok tt w'
        /\ connect env = inr session
        /\ sessionRef (refs w') = Some s
        /\ sessionStore (browser w') !! s = Some session
  end.
Proof.
  rewrite startSessionAmid_begin, begin_run.
  destruct (mediaDevices env) eqn:Hmedia.
  2: { unfold startOutcome. rewrite Hmedia. cbn [negb].
       rewrite continue_done. eexists. split; [done|].
       unfold entersTry. rewrite Hmedia. done. }
  assert (Hchecked : forall n w0,
    keySelection env faults = None ->
    match startOutcome env faults with
    | Rejects err => False
    | Fails msg =>
        exists w',
          match checkApiKey env w0 with
          | Ok p w1 => continue (S (S (S n))) others env faults p w1
          | Throw e w1 => Throw e w1
          end = Ok tt w'
          /\ SessionStatus.error (status (react w')) = Some msg
          /\ SessionStatus.isConnecting (status (react w')) = false
          /\ (entersTry env faults = true ->
              status (react w') = failedStatus msg /\ idle w')
    | Connects =>
        exists w' s session,
          match checkApiKey env w0 with
          | Ok p w1 => continue (S (S (S n))) others env faults p w1
          | Throw e w1 => Throw e w1
          end = Ok tt w'
          /\ connect env = inr session
          /\ sessionRef (refs w') = Some s
          /\ sessionStore (browser w') !! s = Some session
    end).
  { intros n w0 Hsel.
    pose proof (checked_outcome others env faults n w0 Hmedia Hsel) as H.
    destruct (startOutcome env faults) as [err|msg|]; [done| |].
    - destruct H as (w' & Hrun & Herr & Hcon & Htry).
      exists w'. repeat (split; [done|]).
      unfold entersTry. rewrite Hmedia, Hsel.
      destruct (truthy (apiKey env)); [auto | done].
    - destruct H as (w1 & session & Hrun & Hconnect).
      exists (withSession session w1), (length (sessionStore (browser w1))),
        session.
      repeat (split; [done|]). cbn.
      by rewrite lookup_app_r, Nat.sub_diag. }
  destruct (aistudio env) as [selected|] eqn:Hai.
  2: { assert (Hsel : keySelection env faults = None)
         by (unfold keySelection; by rewrite Hai).
       pose proof (Hchecked 2%nat (statusSet connectingStatus w) Hsel) as H.
       by destruct (startOutcome env faults). }
  rewrite continue_step. cbn [resume]. rewrite Hai.
  destruct (hasSelectedApiKeyRejects faults) as [err|] eqn:Hhas.
  { unfold startOutcome, keySelection. rewrite Hmedia, Hai, Hhas. cbn [negb].
    by eexists. }
  destruct selected.
  { assert (Hsel : keySelection env faults = None)
      by (unfold keySelection; by rewrite Hai, Hhas).
    pose proof (Hchecked 1%nat
                  (others HasSelectedApiKey (statusSet connectingStatus w))
                  Hsel) as H.
    by destruct (startOutcome env faults). }
  unfold mret, M_ret. rewrite continue_step. cbn [resume].
  destruct (openSelectKeyRejects faults) as [err|] eqn:Hopen.
  { unfold startOutcome, keySelection. rewrite Hmedia, Hai, Hhas, Hopen.
    cbn [negb]. by eexists. }
  assert (Hsel : keySelection env faults = None)
    by (unfold keySelection; by rewrite Hai, Hhas, Hopen).
  pose proof (Hchecked 0%nat
                (others OpenSelectKey
                   (others HasSelectedApiKey (statusSet connectingStatus w)))
                Hsel) as H.
  by destruct (startOutcome env faults).
Qed.

(** The display share is granted, but the audio graph cannot be built,
    while the session of the page reports that it opened: the error text
    is the message of the cause, and the handles are empty. *)
Lemma start_outcome_is_decided_by_the_answers_witness :
  exists w',
    startSessionAmid opensMeanwhile grantedStart graphFails initial = Ok tt w'
    /\ SessionStatus.error (status (react w')) = Some (lit "no audio device")
    /\ SessionStatus.isConnecting (status (react w')) = false
    /\ (entersTry grantedStart graphFails = true ->
        status (react w') = failedStatus (lit "no audio device") /\ idle w').
Proof.
  apply (start_outcome_is_decided_by_the_answers opensMeanwhile grantedStart
           graphFails initial).
Defined.


(** ** A start that keeps its handles *)

Lemma sameObjects_refl w : sameObjects w w.
Proof. done. Qed.

Lemma sameObjects_trans w1 w2 w3 :
  sameObjects w1 w2 -> sameObjects w2 w3 -> sameObjects w1 w3.
Proof. intros [? ?] [? ?]. split; congruence. Qed.

Lemma sameObjects_statusSet s w : sameObjects (statusSet s w) w.
Proof. done. Qed.

(** The pieces of a start look at the handles and at the browser objects
    only, as far as these go. *)
Ltac same_objects :=
  let Hh := fresh in
  let Hb := fresh in
  intros [Hh Hb];
  repeat match goal with
         | w : World |- _ =>
             destruct w as [? [? ? ? ? ? ?] [? ? ? ?]]
         end;
  unfold handles in Hh; cbn in Hh, Hb;
  injection Hh as -> -> -> ->; injection Hb as -> -> -> ->;
  done.

Lemma withTracks_same st kinds w1 w2 :
  sameObjects w1 w2 ->
  sameObjects (withTracks st kinds w1) (withTracks st kinds w2).
Proof. same_objects. Qed.

Lemma withMicrophone_same kinds w1 w2 :
  sameObjects w1 w2 ->
  sameObjects (withMicrophone kinds w1) (withMicrophone kinds w2).
Proof. same_objects. Qed.

Lemma withSystemAudio_same kinds w1 w2 :
  sameObjects w1 w2 ->
  sameObjects (withSystemAudio kinds w1) (withSystemAudio kinds w2).
Proof. same_objects. Qed.

Lemma withAudioContext_same w1 w2 :
  sameObjects w1 w2 ->
  sameObjects (withAudioContext w1) (withAudioContext w2).
Proof. same_objects. Qed.

Lemma withSession_same session w1 w2 :
  sameObjects w1 w2 ->
  sameObjects (withSession session w1) (withSession session w2).
Proof. same_objects. Qed.

Lemma failedIn_same msg w1 w2 :
  sameObjects w1 w2 -> sameObjects (failedIn msg w1) (failedIn msg w2).
Proof. same_objects. Qed.

Lemma statusSet_same s1 s2 w1 w2 :
  sameObjects w1 w2 -> sameObjects (statusSet s1 w1) (statusSet s2 w2).
Proof. same_objects. Qed.

Lemma checkApiKey_same env w1 w2 :
  sameObjects w1 w2 ->
  sameOutcome (checkApiKey env w1) (checkApiKey env w2).
Proof.
  intros H. rewrite !checkApiKey_run.
  destruct (truthy (apiKey env)); (split; [done|]);
    [done | by apply statusSet_same].
Qed.

Lemma resume_same env faults a w1 w2 :
  sameObjects w1 w2 ->
  sameOutcome (resume env faults a w1) (resume env faults a w2).
Proof.
  intros H. destruct a.
  - cbn [resume]. destruct (hasSelectedApiKeyRejects faults); [done|].
    destruct (aistudio env) as [[|]|]; try by apply checkApiKey_same.
    done.
  - cbn [resume]. destruct (openSelectKeyRejects faults); [done|].
    by apply checkApiKey_same.
  - rewrite !resume_GetUserMedia.
    destruct (getUserMedia env); (split; [done|]);
      [by apply failedIn_same | by apply withMicrophone_same].
  - rewrite !resume_GetDisplayMedia.
    destruct (getDisplayMedia env) as [err|kinds];
      [split; [done | by apply failedIn_same]|].
    destruct (decide (audio ∈ kinds));
      [| split; [done | by apply failedIn_same, withTracks_same]].
    destruct (audioContextThrows faults);
      [split; [done | by apply failedIn_same, withSystemAudio_same]|].
    destruct (audioGraphThrows faults); (split; [done|]);
      [apply failedIn_same|];
      by apply withAudioContext_same, withSystemAudio_same.
  - rewrite !resume_Connect.
    destruct (connect env); (split; [done|]);
      [by apply failedIn_same | by apply withSession_same].
Qed.

Lemma continue_same others env faults n p w1 w2 :
  handsOff others ->
  sameObjects w1 w2 ->
  sameOutcome (continue n others env faults p w1)
              (continue n undisturbed env faults p w2).
Proof.
  intros Hoff. revert p w1 w2.
  induction n as [|n IH]; intros [|a] w1 w2 H; try done.
  rewrite !continue_step.
  assert (Ha : sameObjects (others a w1) (undisturbed a w2)).
  { destruct (Hoff a w1) as [Hh Hb], H as [Hh' Hb'].
    split; unfold undisturbed; congruence. }
  pose proof (resume_same env faults a _ _ Ha) as Hr.
  destruct (resume env faults a (others a w1)) as [p1 v1|e1 v1],
           (resume env faults a (undisturbed a w2)) as [p2 v2|e2 v2];
    try done.
  destruct Hr as [-> Hv]. by apply IH.
Qed.

(** A start amid things that leave the handles and the browser objects
    alone ends as the undisturbed start does, on the same objects. *)
Lemma startSessionAmid_same others env faults w :
  handsOff others ->
  sameOutcome (startSessionAmid others env faults w)
              (startSessionAmid undisturbed env faults w).
Proof.
  intros Hoff. rewrite !startSessionAmid_begin.
  destruct (begin env w) as [p w0|e w0]; [| done].
  by apply continue_same.
Qed.

(** A start from the API-key check on, with what runs meanwhile. *)
Lemma tried_amid others env faults n w :
  continue (S (S (S n))) others env faults (Waiting GetUserMedia) w
  = let w0 := others GetUserMedia w in
    match getUserMedia env with
    | inl err =>
        Ok tt (failedIn (lit "Microphone denied: " ++ message err) w0)
    | inr mk =>
        let w1 := others GetDisplayMedia (withMicrophone mk w0) in
        match getDisplayMedia env with
        | inl err => Ok tt (failedIn (displayError err) w1)
        | inr dk =>
            if decide (audio ∈ dk) then
              match audioContextThrows faults with
              | Some err =>
                  Ok tt (failedIn (message err) (withSystemAudio dk w1))
              | None =>
                  let w3 := withAudioContext (withSystemAudio dk w1) in
                  match audioGraphThrows faults with
                  | Some err => Ok tt (failedIn (message err) w3)
                  | None =>
                      match connect env with
                      | inl err =>
                          Ok tt (failedIn (message err) (others Connect w3))
                      | inr session =>
                          Ok tt (withSession session (others Connect w3))
                      end
                  end
              end
            else Ok tt (failedIn audioNotShared (withTracks ended dk w1))
        end
    end.
Proof.
  cbv zeta. rewrite continue_step, resume_GetUserMedia.
  destruct (getUserMedia env) as [err|mk]; [by rewrite continue_done|].
  rewrite continue_step, resume_GetDisplayMedia.
  destruct (getDisplayMedia env) as [err|dk]; [by rewrite continue_done|].
  destruct (decide (audio ∈ dk)); [| by rewrite continue_done].
  destruct (audioContextThrows faults); [by rewrite continue_done|].
  destruct (audioGraphThrows faults); [by rewrite continue_done|].
  rewrite continue_step, resume_Connect.
  destruct (connect env); by rewrite continue_done.
Qed.

(** A start up to the API-key check, when the key selection does not
    reject, and when it does. *)
Lemma checked_amid others env faults w :
  mediaDevices env = true ->
  keySelection env faults = None ->
  let w0 := afterKeySelection others env (statusSet connectingStatus w) in
  startSessionAmid others env faults w
  = if truthy (apiKey env) then
      continue 3 others env faults (Waiting GetUserMedia) w0
    else
      Ok tt
         (statusSet
            {| SessionStatus.isActive := SessionStatus.isActive (status (react w0));
               SessionStatus.isConnecting := false;
               SessionStatus.isMicActive := SessionStatus.isMicActive (status (react w0));
               SessionStatus.error := Some (lit "API Key missing.") |} w0).
Proof.
  intros Hmedia Hsel w0. subst w0.
  rewrite startSessionAmid_begin, begin_run, Hmedia.
  unfold keySelection in Hsel. unfold afterKeySelection.
  destruct (aistudio env) as [selected|] eqn:Hai.
  - rewrite continue_step. cbn [resume]. rewrite Hai.
    destruct (hasSelectedApiKeyRejects faults); [done|].
    destruct selected.
    + rewrite checkApiKey_run.
      destruct (truthy (apiKey env)); [| by rewrite continue_done].
      by rewrite !tried_amid.
    + unfold mret, M_ret. rewrite continue_step. cbn [resume].
      destruct (openSelectKeyRejects faults); [done|].
      rewrite checkApiKey_run.
      destruct (truthy (apiKey env)); [| by rewrite continue_done].
      by rewrite !tried_amid.
  - rewrite checkApiKey_run.
    destruct (truthy (apiKey env)); [| by rewrite continue_done].
    by rewrite !tried_amid.
Qed.

Lemma rejected_amid others env faults err w :
  mediaDevices env = true ->
  keySelection env faults = Some err ->
  startSessionAmid others env faults w
  = Throw err (atRejection others faults (statusSet connectingStatus w)).
Proof.
  intros Hmedia Hsel.
  rewrite startSessionAmid_begin, begin_run, Hmedia.
  unfold keySelection in Hsel. unfold atRejection.
  destruct (aistudio env) as [selected|] eqn:Hai; [|done].
  rewrite continue_step. cbn [resume]. rewrite Hai.
  destruct (hasSelectedApiKeyRejects faults); [by injection Hsel as ->|].
  destruct selected; [done|].
  unfold mret, M_ret. rewrite continue_step. cbn [resume].
  rewrite Hsel. done.
Qed.

(** How the table reads once the checks before the [try] have passed. *)
Lemma startOutcome_Rejects env faults err :
  startOutcome env faults = Rejects err ->
  mediaDevices env = true /\ keySelection env faults = Some err.
Proof.
  unfold startOutcome.
  destruct (mediaDevices env); [|done]. cbn [negb].
  destruct (keySelection env faults); [by intros [= ->]|].
  destruct (truthy (apiKey env)), (getUserMedia env),
    (getDisplayMedia env) as [|dk]; try done;
  destruct (decide (audio ∈ dk)), (audioContextThrows faults),
    (audioGraphThrows faults), (connect env); done.
Qed.

Lemma startOutcome_Connects env faults :
  startOutcome env faults = Connects ->
  mediaDevices env = true /\ keySelection env faults = None
  /\ truthy (apiKey env) = true
  /\ audioContextThrows faults = None /\ audioGraphThrows faults = None
  /\ exists mk dk session,
       getUserMedia env = inr mk /\ getDisplayMedia env = inr dk
       /\ audio ∈ dk /\ connect env = inr session.
Proof.
  unfold startOutcome.
  destruct (mediaDevices env); [|done]. cbn [negb].
  destruct (keySelection env faults); [done|].
  destruct (truthy (apiKey env)); [|done]. cbn [negb].
  destruct (getUserMedia env) as [|mk]; [done|].
  destruct (getDisplayMedia env) as [|dk]; [done|].
  destruct (decide (audio ∈ dk)); [|done].
  destruct (audioContextThrows faults); [done|].
  destruct (audioGraphThrows faults); [done|].
  destruct (connect env) as [|session]; [done|].
  intros _. repeat split. by eexists _, _, _.
Qed.


Lemma leakFree_objects w w' : sameObjects w' w -> leakFree w -> leakFree w'.
Proof. intros [Hh Hb]. apply leakFree_ext; by rewrite ?Hb. Qed.

Lemma idle_objects w w' : sameObjects w' w -> idle w -> idle w'.
Proof. intros [Hh Hb]. by apply idle_ext. Qed.

Lemma allQuiet_objects w w' : sameObjects w' w -> allQuiet w -> allQuiet w'.
Proof. intros [Hh Hb]. unfold allQuiet. by rewrite Hb. Qed.

Lemma leakFree_failedIn msg w : leakFree w -> leakFree (failedIn msg w).
Proof. intros H. apply afterStop_leakFree. by apply (leakFree_ext w). Qed.

(** Tracks that are handed out ended leave a leak-free world so. *)
Lemma leakFree_withTracks_ended kinds w :
  leakFree w -> leakFree (withTracks ended kinds w).
Proof.
  intros (Htr & Hctx & Hses). split; [| done].
  intros i t Hlook Hlive. cbn in Hlook.
  destruct (decide (i < length (trackStore (browser w)))%nat).
  - rewrite lookup_app_l in Hlook by done. by apply (Htr i t).
  - rewrite lookup_app_r in Hlook by lia. unfold tracksIn in Hlook.
    rewrite list_lookup_fmap in Hlook.
    destruct (kinds !! _); [|done]. injection Hlook as <-. done.
Qed.

(** A new stream that goes into a ref that holds nothing leaves a
    leak-free world so; likewise a new audio context and a new session. *)
Lemma leakFree_withMicrophone kinds w :
  micStreamRef (refs w) = None ->
  leakFree w -> leakFree (withMicrophone kinds w).
Proof.
  intros Hm (Htr & Hctx & Hses). unfold heldTracks in Htr.
  rewrite Hm in Htr. split; [| done].
  intros i t Hlook Hlive. cbn in Hlook. unfold heldTracks. cbn.
  apply elem_of_app.
  destruct (decide (i < length (trackStore (browser w)))%nat).
  - rewrite lookup_app_l in Hlook by done. right. by apply (Htr i t).
  - left. apply lookup_lt_Some in Hlook. unfold tracksIn in Hlook.
    rewrite length_app, length_fmap in Hlook. apply elem_of_seq. lia.
Qed.

Lemma leakFree_withSystemAudio kinds w :
  systemStreamRef (refs w) = None ->
  leakFree w -> leakFree (withSystemAudio kinds w).
Proof.
  intros Hsy (Htr & Hctx & Hses). unfold heldTracks in Htr.
  rewrite Hsy, app_nil_r in Htr. split; [| done].
  intros i t Hlook Hlive. cbn in Hlook. unfold heldTracks. cbn.
  apply elem_of_app.
  destruct (decide (i < length (trackStore (browser w)))%nat).
  - rewrite lookup_app_l in Hlook by done. left. by apply (Htr i t).
  - right. apply lookup_lt_Some in Hlook. unfold tracksIn in Hlook.
    rewrite length_app, length_fmap in Hlook. apply elem_of_seq. lia.
Qed.

Lemma leakFree_withAudioContext w :
  audioContextRef (refs w) = None ->
  leakFree w -> leakFree (withAudioContext w).
Proof.
  intros Ha (Htr & Hctx & Hses). split; [done|]. split; [|done].
  intros c Hrun. cbn in Hrun |- *.
  destruct (decide (c < length (contextStore (browser w)))%nat).
  - rewrite lookup_app_l in Hrun by done. apply Hctx in Hrun. congruence.
  - apply lookup_lt_Some in Hrun as Hlt.
    rewrite length_app in Hlt. cbn in Hlt. f_equal. lia.
Qed.

Lemma leakFree_withSession session w :
  sessionRef (refs w) = None ->
  leakFree w -> leakFree (withSession session w).
Proof.
  intros Hs (Htr & Hctx & Hses). split; [done|]. split; [done|].
  intros s s0 Hlook Hopen Hcloses. cbn in Hlook |- *.
  destruct (decide (s < length (sessionStore (browser w)))%nat).
  - rewrite lookup_app_l in Hlook by done.
    specialize (Hses _ _ Hlook Hopen Hcloses). congruence.
  - apply lookup_lt_Some in Hlook as Hlt.
    rewrite length_app in Hlt. cbn in Hlt. f_equal. lia.
Qed.

(** The tracks of the two streams a start has just acquired are live. *)
Lemma acquired_tracks_live mk dk session w i :
  let w' :=
    withSession session
      (withAudioContext (withSystemAudio dk (withMicrophone mk w))) in
  i ∈ tracksOf (micStreamRef (refs w')) ++ tracksOf (systemStreamRef (refs w')) ->
  readyState <$> trackStore (browser w') !! i = Some live.
Proof.
  intros w' Hi. subst w'. cbn in Hi |- *. unfold tracksIn in *.
  rewrite length_app, length_fmap in Hi.
  apply elem_of_app in Hi as [Hi|Hi]; apply elem_of_seq in Hi.
  - rewrite lookup_app_l by (rewrite length_app, length_fmap; lia).
    rewrite lookup_app_r by lia.
    rewrite list_lookup_fmap.
    destruct (mk !! _) as [k|] eqn:Hk; [done|].
    apply lookup_ge_None in Hk. lia.
  - rewrite lookup_app_r by (rewrite length_app, length_fmap; lia).
    rewrite list_lookup_fmap.
    destruct (dk !! _) as [k|] eqn:Hk; [done|].
    apply lookup_ge_None in Hk. rewrite length_app, length_fmap in Hk. lia.
Qed.

(** The undisturbed start on a world that holds nothing and leaks
    nothing. *)
Lemma undisturbed_all_or_nothing env faults w :
  idle w -> leakFree w ->
  match startOutcome env faults with
  | Rejects err =>
      startSessionAmid undisturbed env faults w
      = Throw err (statusSet connectingStatus w)
  | Fails msg =>
      exists w',
        startSessionAmid undisturbed env faults w = Ok tt w'
        /\ idle w' /\ leakFree w'
  | Connects =>
      exists mk dk session,
        startSessionAmid undisturbed env faults w
        = Ok tt (withSession session
                   (withAudioContext
                      (withSystemAudio dk
                         (withMicrophone mk (statusSet connectingStatus w)))))
  end.
Proof.
  intros Hidle Hfree. unfold startOutcome.
  destruct (mediaDevices env) eqn:Hmedia; cbn [negb].
  2: { rewrite startSessionAmid_begin, begin_run, Hmedia, continue_done.
       eexists. split; [done|].
       split; [by apply (idle_objects w) | by apply (leakFree_objects w)]. }
  destruct (keySelection env faults) as [err|] eqn:Hsel.
  { rewrite (rejected_amid _ _ _ err) by done.
    unfold atRejection, undisturbed.
    by destruct (hasSelectedApiKeyRejects faults). }
  rewrite checked_amid by done. cbv zeta.
  replace (afterKeySelection undisturbed env (statusSet connectingStatus w))
    with (statusSet connectingStatus w)
    by (unfold afterKeySelection; by destruct (aistudio env) as [[|]|]).
  destruct (truthy (apiKey env)); cbn [negb].
  2: { eexists. split; [done|].
       split; [by apply (idle_objects w) | by apply (leakFree_objects w)]. }
  rewrite tried_amid. unfold undisturbed. cbv zeta.
  set (w0 := statusSet connectingStatus w).
  assert (Hfree0 : leakFree w0) by (by apply (leakFree_objects w)).
  destruct Hidle as (Hs & Ha & Hm & Hsy).
  destruct (getUserMedia env) as [err|mk].
  { eexists. split; [done|]. split; [done | by apply leakFree_failedIn]. }
  assert (Hfree1 : leakFree (withMicrophone mk w0))
    by (by apply leakFree_withMicrophone).
  destruct (getDisplayMedia env) as [err|dk].
  { eexists. split; [done|]. split; [done | by apply leakFree_failedIn]. }
  destruct (decide (audio ∈ dk)).
  2: { eexists. split; [done|]. split; [done|].
       by apply leakFree_failedIn, leakFree_withTracks_ended. }
  assert (Hfree2 : leakFree (withSystemAudio dk (withMicrophone mk w0)))
    by (by apply leakFree_withSystemAudio).
  destruct (audioContextThrows faults) as [err|].
  { eexists. split; [done|]. split; [done | by apply leakFree_failedIn]. }
  assert (Hfree3 : leakFree (withAudioContext
                               (withSystemAudio dk (withMicrophone mk w0))))
    by (by apply leakFree_withAudioContext).
  destruct (audioGraphThrows faults) as [err|].
  { eexists. split; [done|]. split; [done | by apply leakFree_failedIn]. }
  destruct (connect env) as [err|session].
  { eexists. split; [done|]. split; [done | by apply leakFree_failedIn]. }
  by eexists _, _, _.
Qed.


(** X9: a start is all or nothing, as long as what runs on the page while
    it waits leaves the handles and the browser objects alone (as
    [onopen], [onmessage] and the edit of the knowledge base do). Started
    with no handle held and nothing left running, it ends in one of three
    ways. Its promise rejects (a promise of [window.aistudio] did): then
    nothing was acquired. It fails: then no handle is held, every track is
    ended and every audio context is closed, what it had acquired before
    the failure being released. Or it connects: then the four handles hold
    the session, the audio context and the two streams it has just
    acquired, the context runs, the tracks are live, and nothing else
    runs. *)
Theorem start_is_all_or_nothing
    (others : Interference) (env : StartEnv) (faults : StartFaults)
    (w : World) :
  handsOff others -> idle w -> leakFree w ->
  match startOutcome env faults with
  | Rejects err =>
      exists w',
        startSessionAmid others env faults w = Throw err w'
        /\ idle w' /\ leakFree w' /\ browser w' = browser w
  | Fails msg =>
      exists w',
        startSessionAmid others env faults w = Ok tt w'
        /\ idle w' /\ leakFree w' /\ allQuiet w'
  | Connects =>
      exists w',
        startSessionAmid others env faults w = Ok tt w'
        /\ leakFree w'
        /\ sessionRef (refs w') = Some (length (sessionStore (browser w)))
        /\ audioContextRef (refs w')
           = Some (length (contextStore (browser w)))
        /\ contextStore (browser w')
           !! length (contextStore (browser w)) = Some running
        /\ is_Some (micStreamRef (refs w'))
        /\ is_Some (systemStreamRef (refs w'))
        /\ (forall i, i ∈ heldTracks w' ->
              readyState <$> trackStore (browser w') !! i = Some live)
  end.
Proof.
  intros Hoff Hidle Hfree.
  pose proof (startSessionAmid_same others env faults w Hoff) as Hsame.
  pose proof (undisturbed_all_or_nothing env faults w Hidle Hfree) as Hund.
  destruct (startOutcome env faults) as [err|msg|].
  - rewrite Hund in Hsame.
    destruct (startSessionAmid others env faults w) as [[] w'|e w']; [done|].
    destruct Hsame as [-> Hobj]. exists w'. split; [done|].
    split; [by apply (idle_objects (statusSet connectingStatus w))|].
    split; [by apply (leakFree_objects (statusSet connectingStatus w))|].
    by destruct Hobj as [_ ->].
  - destruct Hund as (w0 & Hrun & Hidle0 & Hfree0). rewrite Hrun in Hsame.
    destruct (startSessionAmid others env faults w) as [[] w'|e w']; [|done].
    destruct Hsame as [_ Hobj]. exists w'. split; [done|].
    assert (idle w') by (by apply (idle_objects w0)).
    assert (leakFree w') by (by apply (leakFree_objects w0)).
    split; [done|]. split; [done|]. by apply idle_leakFree_quiet.
  - destruct Hund as (mk & dk & session & Hrun). rewrite Hrun in Hsame.
    destruct (startSessionAmid others env faults w) as [[] w'|e w']; [|done].
    destruct Hsame as [_ Hobj]. exists w'. split; [done|].
    set (w0 := statusSet connectingStatus w) in *.
    set (w4 := withSession session
                 (withAudioContext
                    (withSystemAudio dk (withMicrophone mk w0)))) in *.
    destruct Hidle as (Hs & Ha & Hm & Hsy).
    assert (Hfree4 : leakFree w4).
    { apply leakFree_withSession; [done|].
      apply leakFree_withAudioContext; [done|].
      apply leakFree_withSystemAudio; [done|].
      apply leakFree_withMicrophone; [done|].
      by apply (leakFree_objects w). }
    split; [by apply (leakFree_objects w4)|].
    destruct Hobj as [Hh Hb]. unfold handles in Hh.
    injection Hh as Hs' Ha' Hm' Hsy'.
    split; [by rewrite Hs'|]. split; [by rewrite Ha'|].
    split.
    { rewrite Hb. cbn. by rewrite lookup_app_r, Nat.sub_diag. }
    split; [by rewrite Hm'|]. split; [by rewrite Hsy'|].
    intros i Hi. unfold heldTracks in Hi. rewrite Hm', Hsy' in Hi.
    rewrite Hb. by apply acquired_tracks_live.
Qed.

(** A start whose display share has no audio track, while the session of
    the page reports that it opened: the microphone track and the track of
    the share are ended. *)
Lemma start_is_all_or_nothing_witness :
  exists w',
    startSessionAmid opensMeanwhile videoOnlyShare noFaults initial = Ok tt w'
    /\ idle w' /\ leakFree w' /\ allQuiet w'.
Proof.
  apply (start_is_all_or_nothing opensMeanwhile videoOnlyShare noFaults
           initial).
  - intros [] w; split; try reflexivity; by destruct w.
  - done.
  - repeat split; intros; by rewrite ?lookup_nil in *.
Defined.

(** X17: a rejection of [hasSelectedApiKey()] or of [openSelectKey()]
    leaves the page waiting for ever. These promises are awaited before
    the [try], so that nothing catches the rejection: no error text is
    set and [isConnecting] stays true. As long as nothing else changes the
    status, the start button is disabled, and there is no retry link and
    no stop button. *)
Theorem rejected_key_selection_leaves_the_page_waiting
    (others : Interference) (env : StartEnv) (faults : StartFaults)
    (err : Exn) (w : World) :
  keepsStatus others ->
  startOutcome env faults = Rejects err ->
  exists w',
    startSessionAmid others env faults w = Throw err w'
    /\ status (react w') = connectingStatus
    /\ canStart w' = false
    /\ showsStopButton (status (react w')) = false
    /\ showsRetryLink (status (react w')) = false.
Proof.
  intros Hkeeps Hout.
  apply startOutcome_Rejects in Hout as [Hmedia Hsel].
  assert (Hrun : exists w',
    startSessionAmid others env faults w = Throw err w'
    /\ status (react w') = connectingStatus).
  { eexists. split; [by apply rejected_amid|].
    unfold atRejection.
    destruct (hasSelectedApiKeyRejects faults); by rewrite !Hkeeps. }
  destruct Hrun as (w' & Hrun & Hst). exists w'. split; [done|].
  split; [done|].
  unfold canStart, showsRetryLink, showsSetupPanel, showsStartButton,
    startButtonDisabled, showsStopButton. by rewrite Hst.
Qed.


(** The key dialog is closed without a choice. *)
Lemma rejected_key_selection_leaves_the_page_waiting_witness :
  exists w',
    startSessionAmid undisturbed keyToSelect keyDialogClosed initial
    = Throw (newError (lit "dialog closed")) w'
    /\ status (react w') = connectingStatus
    /\ canStart w' = false
    /\ showsStopButton (status (react w')) = false
    /\ showsRetryLink (status (react w')) = false.
Proof.
  apply (rejected_key_selection_leaves_the_page_waiting undisturbed); done.
Defined.

(** ** A start that is disturbed *)

(** A start in which nothing fails: the world it leaves, with what runs
    meanwhile and whatever the handles held before. *)
Lemma connects_amid others env faults mk dk session w :
  mediaDevices env = true -> keySelection env faults = None ->
  truthy (apiKey env) = true ->
  audioContextThrows faults = None -> audioGraphThrows faults = None ->
  getUserMedia env = inr mk -> getDisplayMedia env = inr dk ->
  audio ∈ dk -> connect env = inr session ->
  startSessionAmid others env faults w
  = Ok tt
      (withSession session
         (others Connect
            (withAudioContext
               (withSystemAudio dk
                  (others GetDisplayMedia
                     (withMicrophone mk
                        (others GetUserMedia
                           (afterKeySelection others env
                              (statusSet connectingStatus w))))))))).
Proof.
  intros Hmedia Hsel Hkey Hctx Hgraph Hmic Hdisplay Hin Hconnect.
  rewrite checked_amid by done. cbv zeta. rewrite Hkey.
  rewrite tried_amid. cbv zeta.
  rewrite Hmic, Hdisplay, Hctx, Hgraph, Hconnect.
  by rewrite decide_True by done.
Qed.

Lemma afterKeySelection_opensMeanwhile env w :
  afterKeySelection opensMeanwhile env w = w.
Proof. unfold afterKeySelection. by destruct (aistudio env) as [[|]|]. Qed.

Lemma afterKeySelection_undisturbed env w :
  afterKeySelection undisturbed env w = w.
Proof. unfold afterKeySelection. by destruct (aistudio env) as [[|]|]. Qed.

(** ... while its session opens, ... *)
Lemma connects_opening env faults w :
  startOutcome env faults = Connects ->
  exists mk dk session,
    startSessionAmid opensMeanwhile env faults w
    = Ok tt (withSession session
               (statusSet activeStatus
                  (withAudioContext
                     (withSystemAudio dk
                        (withMicrophone mk (statusSet connectingStatus w))))))
    /\ startSessionAmid undisturbed env faults w
       = Ok tt (withSession session
                  (withAudioContext
                     (withSystemAudio dk
                        (withMicrophone mk (statusSet connectingStatus w))))).
Proof.
  intros (Hmedia & Hsel & Hkey & Hctx & Hgraph & mk & dk & session
          & Hmic & Hdisplay & Hin & Hconnect)%startOutcome_Connects.
  exists mk, dk, session.
  rewrite !(connects_amid _ env faults mk dk session) by done.
  rewrite afterKeySelection_opensMeanwhile, afterKeySelection_undisturbed.
  cbn [opensMeanwhile]. unfold undisturbed.
  by destruct w as [re rf [ts ss cs cn]].
Qed.

(** X12: after a transport error, whatever the world was, the handles are
    cleared, the error text is set and the retry link is shown, so that a
    start can be clicked. A start in which nothing fails, and whose
    session opens while the start waits for the connection or right after
    it, then leaves the session active with no error text, the four
    handles set, and the Message history and the Suggestion list as they
    were before the error. *)
Theorem transport_error_then_restart
    (w : World) (e : Exn) (env : StartEnv) (faults : StartFaults) :
  startOutcome env faults = Connects ->
  let failed := step w (SessionErrored e) in
  let restarted := worldOf (startSessionAmid opensMeanwhile env faults failed) in
  (idle failed
   /\ SessionStatus.error (status (react failed))
      = Some (lit "Connection error. Please restart Guard.")
   /\ showsRetryLink (status (react failed)) = true
   /\ canStart failed = true)
  /\ (startSessionAmid opensMeanwhile env faults failed = Ok tt restarted
      /\ step (worldOf (startSessionAmid undisturbed env faults failed))
              SessionOpened = restarted
      /\ status (react restarted) = activeStatus
      /\ is_Some (sessionRef (refs restarted))
      /\ is_Some (audioContextRef (refs restarted))
      /\ is_Some (micStreamRef (refs restarted))
      /\ is_Some (systemStreamRef (refs restarted))
      /\ messages (react restarted) = messages (react w)
      /\ suggestions (react restarted) = suggestions (react w)).
Proof.
  intros Hout failed restarted.
  assert (Hfailed : idle failed
    /\ status (react failed)
       = failedStatus (lit "Connection error. Please restart Guard.")
    /\ messages (react failed) = messages (react w)
    /\ suggestions (react failed) = suggestions (react w)).
  { subst failed. rewrite step_errored. done. }
  destruct Hfailed as (Hidle & Hst & Hm & Hs).
  split.
  - split; [done|]. rewrite Hst. split; [done|]. split; [by vm_compute|].
    unfold canStart. rewrite Hst. by vm_compute.
  - subst restarted. clearbody failed.
    destruct (connects_opening env faults failed Hout)
      as (mk & dk & session & -> & ->).
    split; [done|]. split; [by destruct failed as [re rf [ts ss cs cn]]|].
    cbn. rewrite Hm, Hs. eauto 10.
Qed.

Lemma transport_error_then_restart_witness :
  let failed := step midTurn (SessionErrored (newError (lit "socket"))) in
  let restarted :=
    worldOf (startSessionAmid opensMeanwhile grantedStart noFaults failed) in
  status (react restarted) = activeStatus
  /\ messages (react restarted) = messages (react midTurn)
  /\ canStart failed = true.
Proof.
  destruct (transport_error_then_restart midTurn (newError (lit "socket"))
              grantedStart noFaults eq_refl)
    as ((_ & _ & _ & Hcan) & _ & _ & Hst & _ & _ & _ & _ & Hm & _).
  done.
Defined.


Lemma afterStop_stores w :
  length (trackStore (browser (afterStop w))) = length (trackStore (browser w))
  /\ length (contextStore (browser (afterStop w)))
     = length (contextStore (browser w)).
Proof.
  cbn. rewrite !stopTracks_length. split; [done|].
  destruct (audioContextRef (refs w)); by rewrite ?length_insert.
Qed.

(** X16: a close report that arrives while a start waits for the display
    share (the report of the session that was stopped just before, say)
    runs [stopSession] on the microphone stream the start has just
    acquired. The start does not notice: when the share is granted it goes
    on, connects, and its session opens. The page then shows an active
    session with the microphone on, while every track of that microphone
    stream is ended and [micStreamRef] holds nothing. *)
Theorem late_close_stops_the_new_microphone
    (w1 : World) (env : StartEnv) (faults : StartFaults)
    (mic : MediaStream) (kinds : list TrackKind) (session : LiveSession) :
  micStreamRef (refs w1) = Some mic ->
  Forall (fun i => (i < length (trackStore (browser w1)))%nat) (getTracks mic) ->
  getDisplayMedia env = inr kinds -> audio ∈ kinds ->
  audioContextThrows faults = None -> audioGraphThrows faults = None ->
  connect env = inr session ->
  let w2 := step w1 SessionClosed in
  let w3 := withAudioContext (withSystemAudio kinds w2) in
  let w4 := withSession session (step w3 SessionOpened) in
  resume env faults GetDisplayMedia w2 = Ok (Waiting Connect) w3
  /\ resume env faults Connect (step w3 SessionOpened) = Ok Done w4
  /\ micStreamRef (refs w4) = None
  /\ allEnded (getTracks mic) w4
  /\ is_Some (sessionRef (refs w4))
  /\ is_Some (audioContextRef (refs w4))
  /\ is_Some (systemStreamRef (refs w4))
  /\ SessionStatus.isActive (status (react w4)) = true
  /\ SessionStatus.isMicActive (status (react w4)) = true.
Proof.
  intros Hmic Hstore Hdisplay Hin Hctx Hgraph Hconnect w2 w3 w4.
  split.
  { rewrite resume_GetDisplayMedia, Hdisplay, Hctx, Hgraph.
    by rewrite decide_True by done. }
  split; [by rewrite resume_Connect, Hconnect|].
  subst w4 w3 w2. rewrite step_closed.
  split; [done|]. split; [| cbn; eauto 10].
  intros i t Hi Hlook. cbn in Hlook.
  rewrite Forall_forall in Hstore. specialize (Hstore i Hi).
  rewrite lookup_app_l in Hlook by (by rewrite !stopTracks_length).
  eapply stopTracks_keeps_ended; [exact Hlook|]. right.
  rewrite Hmic. cbn [tracksOf].
  destruct (lookup_lt_is_Some_2 (trackStore (browser w1)) i Hstore) as [t0 Ht0].
  exists (stopped t0). split; [| done].
  rewrite stopTracks_lookup, Ht0. cbn. by rewrite decide_True.
Qed.

(** A start waits for the display share, its microphone stream in the
    ref, when the close report comes. *)
Lemma late_close_stops_the_new_microphone_witness :
  let w1 := withMicrophone [audio] (statusSet connectingStatus initial) in
  let w3 := withAudioContext
              (withSystemAudio [video; audio] (step w1 SessionClosed)) in
  let w4 := withSession {| closeThrows := None; isClosed := false |}
              (step w3 SessionOpened) in
  resume grantedStart noFaults GetUserMedia (statusSet connectingStatus initial)
  = Ok (Waiting GetDisplayMedia) w1
  /\ trackStore (browser w4)
     = [{| kind := audio; readyState := ended |};
        {| kind := video; readyState := live |};
        {| kind := audio; readyState := live |}]
  /\ micStreamRef (refs w4) = None
  /\ SessionStatus.isMicActive (status (react w4)) = true.
Proof.
  split; [reflexivity|]. split; [reflexivity|].
  destruct (late_close_stops_the_new_microphone
              (withMicrophone [audio] (statusSet connectingStatus initial))
              grantedStart noFaults {| getTracks := [0%nat] |} [video; audio]
              {| closeThrows := None; isClosed := false |})
    as (_ & _ & Hm & _ & _ & _ & _ & _ & Hmic);
    try reflexivity.
  - repeat constructor.
  - apply list_elem_of_further, list_elem_of_here.
  - done.
Defined.

(** X10: a start can be clicked while an earlier start is still waiting,
    and then the handles of the earlier one are overwritten. A transport
    error that is reported while a start waits for the display share sets
    the error text and clears [isConnecting]; when the share is granted
    the start goes on: it puts the display stream and a new audio context
    into their refs and waits for the connection, while the page shows an
    enabled start button and the retry link. A second start clicked there
    (one in which nothing fails, and whose session opens) puts its own
    stream and context into the refs. After the stop button is clicked no
    handle is held, but the tracks of the first display stream are still
    live and the first audio context still runs: nothing holds them any
    more. *)
Theorem second_start_overwrites_the_first
    (w1 : World) (e : Exn) (envA : StartEnv) (faultsA : StartFaults)
    (kindsA : list TrackKind) (envB : StartEnv) (faultsB : StartFaults) :
  getDisplayMedia envA = inr kindsA -> audio ∈ kindsA ->
  audioContextThrows faultsA = None -> audioGraphThrows faultsA = None ->
  startOutcome envB faultsB = Connects ->
  let w2 := step w1 (SessionErrored e) in
  let w3 := withAudioContext (withSystemAudio kindsA w2) in
  let w4 := worldOf (startSessionAmid opensMeanwhile envB faultsB w3) in
  let w5 := step w4 StopClicked in
  let n := length (trackStore (browser w1)) in
  let c := length (contextStore (browser w1)) in
  resume envA faultsA GetDisplayMedia w2 = Ok (Waiting Connect) w3
  /\ canStart w3 = true
  /\ systemStreamRef (refs w3) = Some (streamAt n kindsA)
  /\ audioContextRef (refs w3) = Some c
  /\ showsStopButton (status (react w4)) = true
  /\ idle w5
  /\ (forall i, (n <= i < n + length kindsA)%nat ->
        readyState <$> trackStore (browser w5) !! i = Some live)
  /\ contextStore (browser w5) !! c = Some running
  /\ ~ allQuiet w5.
Proof.
  intros Hdisplay Hin Hctx Hgraph Hout w2 w3 w4 w5 n c.
  assert (Hlen : length (trackStore (browser w2)) = n
                 /\ length (contextStore (browser w2)) = c).
  { subst w2. rewrite step_errored. apply afterStop_stores. }
  destruct Hlen as [Hn Hc].
  assert (Hst2 : status (react w2)
                 = failedStatus (lit "Connection error. Please restart Guard.")).
  { subst w2. by rewrite step_errored. }
  clearbody w2.
  split.
  { rewrite resume_GetDisplayMedia, Hdisplay, Hctx, Hgraph.
    by rewrite decide_True by done. }
  split.
  { unfold canStart. subst w3. cbn [withAudioContext withSystemAudio react].
    rewrite Hst2. by vm_compute. }
  split; [subst w3; cbn; by rewrite Hn|].
  split; [subst w3; cbn; by rewrite Hc|].
  assert (Hlive : forall i, (n <= i < n + length kindsA)%nat ->
            readyState <$> trackStore (browser w5) !! i = Some live).
  { intros i Hi. subst w5 w4. rewrite step_stop.
    destruct (connects_opening envB faultsB w3 Hout)
      as (mk & dk & session & -> & _).
    subst w3. cbn -[stopTracks]. unfold tracksIn.
    rewrite !stopTracks_lookup.
    rewrite !length_app, !length_fmap, Hn.
    rewrite decide_False by (rewrite elem_of_seq; lia).
    rewrite decide_False by (rewrite elem_of_seq; lia).
    rewrite lookup_app_l by (rewrite !length_app, !length_fmap; lia).
    rewrite lookup_app_l by (rewrite !length_app, !length_fmap; lia).
    rewrite lookup_app_r by lia.
    rewrite list_lookup_fmap.
    destruct (kindsA !! _) as [k|] eqn:Hk; [done|].
    apply lookup_ge_None in Hk. lia. }
  split; [| split; [| split; [exact Hlive | split]]].
  - subst w4. by destruct (connects_opening envB faultsB w3 Hout)
      as (mk & dk & session & -> & _).
  - subst w5. by rewrite step_stop.
  - subst w5 w4. rewrite step_stop.
    destruct (connects_opening envB faultsB w3 Hout)
      as (mk & dk & session & -> & _).
    subst w3. cbn. rewrite length_app, Hc. cbn.
    rewrite list_lookup_insert_ne by lia.
    rewrite lookup_app_l by (rewrite length_app; cbn; lia).
    by rewrite lookup_app_r, Hc, Nat.sub_diag by lia.
  - intros [Htracks _].
    apply list_elem_of_lookup in Hin as [j Hj].
    apply lookup_lt_Some in Hj.
    specialize (Hlive (n + j)%nat ltac:(lia)).
    destruct (trackStore (browser w5) !! (n + j)%nat) as [t|] eqn:Ht; [|done].
    rewrite Forall_lookup in Htracks. specialize (Htracks _ _ Ht).
    cbn in Hlive. congruence.
Qed.


(** A start waits for the display share, its microphone stream in the
    ref, when the error of an earlier session is reported; the share is
    granted, a second start is clicked, its session opens, and the stop
    button is clicked. *)
Lemma second_start_overwrites_the_first_witness :
  let w1 := withMicrophone [audio] (statusSet connectingStatus initial) in
  let w2 := step w1 (SessionErrored (newError (lit "socket"))) in
  let w3 := withAudioContext (withSystemAudio [video; audio] w2) in
  let w5 :=
    step (worldOf (startSessionAmid opensMeanwhile grantedStart noFaults w3))
         StopClicked in
  canStart w3 = true
  /\ idle w5
  /\ contextStore (browser w5) !! 0%nat = Some running
  /\ ~ allQuiet w5.
Proof.
  destruct (second_start_overwrites_the_first
              (withMicrophone [audio] (statusSet connectingStatus initial))
              (newError (lit "socket")) grantedStart noFaults [video; audio]
              grantedStart noFaults)
    as (_ & Hcan & _ & _ & _ & Hidle & _ & Hctx & Hloud);
    try reflexivity.
  - apply list_elem_of_further, list_elem_of_here.
  - done.
Defined.

(** ** The start in one go *)

(** [startSession], which takes the awaits in one go, is the start in
    which nothing else runs while it waits, the promises of
    [window.aistudio] resolve, and the audio graph is built. *)
Lemma startSession_undisturbed env w :
  startSessionAmid undisturbed env noFaults w = startSession env w.
Proof.
  destruct (mediaDevices env) eqn:Hmedia.
  2: { destruct (startSession_prechecks env w) as (msg & Herr & ->);
         [by left|].
       unfold startError in Herr. rewrite Hmedia in Herr.
       injection Herr as <-.
       by rewrite startSessionAmid_begin, begin_run, Hmedia, continue_done. }
  assert (Hsel : keySelection env noFaults = None)
    by (unfold keySelection; by destruct (aistudio env) as [[|]|]).
  rewrite checked_amid by done. cbv zeta.
  rewrite afterKeySelection_undisturbed.
  destruct (truthy (apiKey env)) eqn:Hkey.
  2: { destruct (startSession_prechecks env w) as (msg & Herr & ->);
         [by right|].
       unfold startError in Herr. rewrite Hmedia, Hkey in Herr.
       injection Herr as <-. by destruct w. }
  rewrite tried_amid. unfold undisturbed. cbv zeta.
  cbn [noFaults audioContextThrows audioGraphThrows].
  destruct (getUserMedia env) as [err|mk] eqn:Hmic.
  { erewrite startSession_microphone_denied by done. by destruct w. }
  destruct (getDisplayMedia env) as [err|dk] eqn:Hdisplay.
  { erewrite startSession_display_rejected by done. by destruct w. }
  destruct (decide (audio ∈ dk)).
  2: { erewrite startSession_audio_not_shared by done. by destruct w. }
  destruct (connect env) as [err|session] eqn:Hconnect.
  - erewrite startSession_connect_rejected by done.
    destruct w as [re rf [ts ss cs cn]]. unfold failedIn, caught, streamAt.
    cbn. unfold tracksIn. by rewrite length_app, length_fmap.
  - erewrite startSession_connected by done.
    destruct w as [re rf [ts ss cs cn]].
    unfold withSession, withAudioContext, withSystemAudio, withMicrophone,
      withTracks, statusSet, streamAt.
    cbn. unfold tracksIn. by rewrite length_app, length_fmap.
Qed.
